(** * R-GCN notebook: relational graph convolution layer and triple encoding

    A shallow embedding of [DGL_Relational_Graph_Convolutional_Network.ipynb]:
    the [RGCNLayer] class (constructor and forward pass) and the pandas /
    networkx preprocessing cells that turn the triple table into node ids,
    relation ids and edge norms.

    Conventions.
    - Python integers are [Z]; a raised exception is the [Raise] branch of
      [result].
    - A tensor is its shape together with its contiguous row-major buffer,
      which is what [view] reinterprets.
    - Tensor entries of the layer range over an abstract scalar type (class
      [Scalar]); algebraic laws are assumed only by the theorems that need
      them, and named there, so every definition runs at any instance.  The
      instance on [Z] evaluates the layer on integer-valued tensors, whose
      sums and products are exact in floating point as well.
    - Edge data is modelled with its element types and layout, on which the
      batched message functions depend: [rel_type] is an integer column of
      some width, whose arithmetic wraps; [norm] holds one scalar per edge,
      stored either as a vector (shape E) or as a column (shape E x 1), in
      single or double precision.  The element type of a floating-point
      tensor is tracked as a tag next to its entries.
    - The message functions, the reduction and the update act on whole
      batches, as the framework calls them; shapes follow the broadcasting
      rules of the tensor library.
    - The preprocessing cells compute with Python floats; they are modelled
      with binary64 primitive floats.
    - Library routines ([torch], [pandas], [networkx]) are modelled by what
      they return on the calls the notebook makes. *)

From Stdlib Require Import String Ascii OrderedTypeEx.
From Stdlib Require Import List ZArith Lia Bool Arith Permutation Floats Uint63 Sorted.
Import ListNotations.

Local Open Scope Z_scope.

(** ** Exceptions *)

Inductive exn : Type :=
| RuntimeError
| ValueError
| IndexError
| KeyError
| AttributeError
| ZeroDivisionError
| DGLError.

Inductive result (A : Type) : Type :=
| Ok (a : A)
| Raise (e : exn).

Arguments Ok {A} a.
Arguments Raise {A} e.

Definition bind {A B : Type} (m : result A) (k : A -> result B) : result B :=
  match m with
  | Ok a => k a
  | Raise e => Raise e
  end.

Notation "x <- m ;; k" := (bind m (fun x => k))
  (at level 61, m at next level, right associativity).

Definition raises {A : Type} (m : result A) : Prop := exists e, m = Raise e.

Fixpoint mapM {A B : Type} (f : A -> result B) (l : list A) : result (list B) :=
  match l with
  | [] => Ok []
  | a :: l' => b <- f a ;; bs <- mapM f l' ;; Ok (b :: bs)
  end.

(** ** Scalars *)

Class Scalar (F : Type) : Type := {
  Fzero : F;
  Fone : F;
  Fadd : F -> F -> F;
  Fmul : F -> F -> F;
  (** truth value of a one-element tensor: the entry differs from zero *)
  Fnonzero : F -> bool
}.

#[export] Instance Z_Scalar : Scalar Z := {
  Fzero := 0;
  Fone := 1;
  Fadd := Z.add;
  Fmul := Z.mul;
  Fnonzero := fun x => negb (x =? 0)
}.

(** ** Tensors *)

Record tensor (F : Type) : Type := mkTensor {
  shape : list Z;
  data : list F
}.

Arguments mkTensor {F} shape data.
Arguments shape {F} t.
Arguments data {F} t.

Definition prodZ (dims : list Z) : Z := fold_right Z.mul 1 dims.

Definition numel {F : Type} (t : tensor F) : Z := Z.of_nat (length (data t)).

(** The buffer has as many entries as the shape says. *)
Definition tensor_wf {F : Type} (t : tensor F) : Prop :=
  Forall (fun d => 0 <= d) (shape t) /\ numel t = prodZ (shape t).

(** [k] entries of [l] starting at offset [off]. *)
Definition slice {A : Type} (off k : nat) (l : list A) : list A :=
  firstn k (skipn off l).

(** ** Element types *)

(** The signed integer types of an index column. *)
Inductive int_dtype : Type := Int8 | Int16 | Int32 | Int64.

Definition int_bits (d : int_dtype) : Z :=
  match d with
  | Int8 => 8
  | Int16 => 16
  | Int32 => 32
  | Int64 => 64
  end.

(** Integer arithmetic in type [d] keeps the low bits, in two's
    complement. *)
Definition wrap (d : int_dtype) (z : Z) : Z :=
  (z + 2 ^ (int_bits d - 1)) mod 2 ^ int_bits d - 2 ^ (int_bits d - 1).

Inductive float_dtype : Type := Float32 | Float64.

(** Type promotion of two floating-point tensors. *)
Definition promote (a b : float_dtype) : float_dtype :=
  match a, b with
  | Float32, Float32 => Float32
  | _, _ => Float64
  end.

Definition float_dtype_eqb (a b : float_dtype) : bool :=
  match a, b with
  | Float32, Float32 | Float64, Float64 => true
  | _, _ => false
  end.

(** Which integer tensors may index another tensor: 64-bit ones always,
    32-bit ones in later releases of the library only, narrower ones
    never.  The notebook does not pin a release. *)
Inductive index_rule : Type := LongOnly | LongOrInt.

Definition index_dtype_ok (ir : index_rule) (d : int_dtype) : bool :=
  match d, ir with
  | Int64, _ => true
  | Int32, LongOrInt => true
  | _, _ => false
  end.

Definition prod_nat (dims : list nat) : nat := fold_right Nat.mul 1%nat dims.

(** All positions of a tensor of shape [s], in row-major order. *)
Fixpoint multi_indices (s : list nat) : list (list nat) :=
  match s with
  | [] => [[]]
  | d :: s' => flat_map (fun i => map (cons i) (multi_indices s')) (seq 0 d)
  end.

(** Shape of the result of a broadcasting operation, both shapes read from
    their last dimension: sizes must agree unless one of them is 1. *)
Fixpoint broadcast_rev (a b : list Z) : option (list Z) :=
  match a, b with
  | [], _ => Some b
  | _, [] => Some a
  | x :: a', y :: b' =>
      match broadcast_rev a' b' with
      | None => None
      | Some s =>
          if x =? y then Some (x :: s)
          else if x =? 1 then Some (y :: s)
          else if y =? 1 then Some (x :: s)
          else None
      end
  end.

Definition broadcast_shape (a b : list Z) : option (list Z) :=
  match broadcast_rev (rev a) (rev b) with
  | Some s => Some (rev s)
  | None => None
  end.

(** Offset, in an operand of shape [sh], of the entry that is broadcast to
    position [ix] of the result: the operand's dimensions are the last
    ones of the result, and a dimension of size 1 is read at 0. *)
Definition boffset (sh ix : list nat) : nat :=
  fold_left (fun acc di => (acc * fst di + (if (fst di =? 1)%nat then 0 else snd di))%nat)
            (combine sh (skipn (length ix - length sh) ix)) 0%nat.

Section Torch.

Context {F : Type} `{Scalar F}.

(** [torch.Tensor(d0, d1, ...)]: an uninitialized tensor; a negative
    dimension is rejected.  [mem] is whatever the fresh buffer holds. *)
Definition torch_Tensor (dims : list Z) (mem : nat -> F) : result (tensor F) :=
  if existsb (fun d => d <? 0) dims then Raise RuntimeError
  else Ok (mkTensor dims (map mem (seq 0 (Z.to_nat (prodZ dims))))).

(** [t.view(dims)] on a contiguous tensor: same buffer, new shape; one
    dimension may be [-1] and is then inferred. *)
Definition view (t : tensor F) (dims : list Z) : result (tensor F) :=
  let n := numel t in
  let known := prodZ (filter (fun d => negb (d =? -1)) dims) in
  if existsb (fun d => d <? -1) dims then Raise RuntimeError
  else
    match length (filter (fun d => d =? -1) dims) with
    | O => if known =? n then Ok (mkTensor dims (data t)) else Raise RuntimeError
    | S O =>
        if (0 <? known) && (n mod known =? 0)
        then Ok (mkTensor (map (fun d => if d =? -1 then n / known else d) dims)
                          (data t))
        else Raise RuntimeError
    | _ => Raise RuntimeError
    end.

(** [t[i]]: index the first dimension; negative indices count from the end. *)
Definition tensor_index (t : tensor F) (i : Z) : result (tensor F) :=
  match shape t with
  | d0 :: rest =>
      if (- d0 <=? i) && (i <? d0)
      then
        let i' := if i <? 0 then i + d0 else i in
        let sz := Z.to_nat (prodZ rest) in
        Ok (mkTensor rest (slice (Z.to_nat i' * sz)%nat sz (data t)))
      else Raise IndexError
  | [] => Raise IndexError
  end.

Definition getF (l : list F) (i : nat) : F := nth i l Fzero.

(** Sum of [a_j * b_j] for [j < k], accumulated from zero in index order. *)
Definition dot (k : nat) (a b : nat -> F) : F :=
  fold_left (fun acc j => Fadd acc (Fmul (a j) (b j))) (seq 0 k) Fzero.

(** [torch.matmul] of a matrix [m x k] with a batch [n x k x p]: the matrix
    is broadcast over the batch, the result is [n x m x p].  Other ranks do
    not occur in the layer. *)
Definition matmul (a b : tensor F) : result (tensor F) :=
  match shape a, shape b with
  | [m; k], [n; k'; p] =>
      if k =? k'
      then
        let m' := Z.to_nat m in
        let k0 := Z.to_nat k in
        let n' := Z.to_nat n in
        let p' := Z.to_nat p in
        Ok (mkTensor [n; m; p]
              (flat_map (fun i =>
                 flat_map (fun r =>
                   map (fun o =>
                          dot k0 (fun j => getF (data a) (r * k0 + j)%nat)
                                 (fun j => getF (data b) ((i * k0 + j) * p' + o)%nat))
                       (seq 0 p'))
                   (seq 0 m'))
                 (seq 0 n')))
      else Raise RuntimeError
  | _, _ => Raise RuntimeError
  end.

(** A vector scaled by [c]. *)
Definition vscale (c : F) (v : list F) : list F := map (fun x => Fmul x c) v.

Fixpoint vadd (u v : list F) : list F :=
  match u, v with
  | x :: u', y :: v' => Fadd x y :: vadd u' v'
  | _, _ => []
  end.

(** [bool(t)] for a tensor: defined for exactly one element. *)
Definition tensor_bool (t : tensor F) : result bool :=
  match data t with
  | [x] => Ok (Fnonzero x)
  | _ => Raise RuntimeError
  end.

(** The two implementations of the initializer's fan computation: older
    releases read the receptive field off [tensor[0][0].numel()], which
    raises on an empty first or second dimension; later releases multiply
    [shape[2:]].  The notebook does not pin a release. *)
Inductive torch_version : Type := Legacy | Current.

Definition receptive_field_size (v : torch_version) (d0 d1 : Z) (rest : list Z)
  : result Z :=
  match rest with
  | [] => Ok 1
  | _ =>
      match v with
      | Legacy =>
          if (d0 =? 0) || (d1 =? 0) then Raise IndexError else Ok (prodZ rest)
      | Current => Ok (prodZ rest)
      end
  end.

(** [nn.init.xavier_uniform_(t, gain)]: needs at least two dimensions,
    divides by [fan_in + fan_out], then overwrites every entry with a draw.
    The bound of the uniform distribution only shapes the draws, which are
    left arbitrary ([draw]). *)
Definition xavier_uniform_ (v : torch_version) (t : tensor F) (draw : nat -> F)
  : result (tensor F) :=
  match shape t with
  | d0 :: d1 :: rest =>
      rf <- receptive_field_size v d0 d1 rest ;;
      let fan_in := d1 * rf in
      let fan_out := d0 * rf in
      if fan_in + fan_out =? 0 then Raise ZeroDivisionError
      else Ok (mkTensor (shape t) (map draw (seq 0 (length (data t)))))
  | _ => Raise ValueError
  end.

(** [t[index]] for a one-dimensional integer tensor [index]: the rows
    [t[i]] stacked; an index outside [[-d0, d0)] raises. *)
Definition index_rows (t : tensor F) (index : list Z) : result (tensor F) :=
  match shape t with
  | _ :: rest =>
      rows <- mapM (tensor_index t) index ;;
      Ok (mkTensor (Z.of_nat (length index) :: rest) (flat_map data rows))
  | [] => Raise IndexError
  end.

(** [t.unsqueeze(1)] *)
Definition unsqueeze1 (t : tensor F) : result (tensor F) :=
  match shape t with
  | d0 :: rest => Ok (mkTensor (d0 :: 1 :: rest) (data t))
  | [] => Raise IndexError
  end.

(** [t.squeeze()]: every dimension of size 1 is dropped. *)
Definition squeeze (t : tensor F) : tensor F :=
  mkTensor (filter (fun d => negb (d =? 1)) (shape t)) (data t).

(** Product of an [m x k] matrix [A] and a [k x p] matrix [B], both given
    by their row-major entries. *)
Definition mat_mul (m k p : nat) (A B : list F) : list F :=
  flat_map (fun r =>
    map (fun o => dot k (fun j => getF A (r * k + j)%nat)
                        (fun j => getF B (j * p + o)%nat))
        (seq 0 p))
    (seq 0 m).

(** [torch.bmm(a, b)]: both operands three-dimensional, with the same
    batch size and matching inner dimension. *)
Definition bmm (a b : tensor F) : result (tensor F) :=
  match shape a, shape b with
  | [n; m; k], [n'; k'; p] =>
      if (n =? n') && (k =? k')
      then
        let m0 := Z.to_nat m in
        let k0 := Z.to_nat k in
        let p0 := Z.to_nat p in
        Ok (mkTensor [n; m; p]
              (flat_map (fun i =>
                 mat_mul m0 k0 p0
                   (slice (i * (m0 * k0)) (m0 * k0) (data a))
                   (slice (i * (k0 * p0)) (k0 * p0) (data b)))
                 (seq 0 (Z.to_nat n))))
      else Raise RuntimeError
  | _, _ => Raise RuntimeError
  end.

(** An entrywise binary operation with broadcasting ([a * b], [a + b]). *)
Definition broadcast (f : F -> F -> F) (a b : tensor F) : result (tensor F) :=
  match broadcast_shape (shape a) (shape b) with
  | None => Raise RuntimeError
  | Some s =>
      let sa := map Z.to_nat (shape a) in
      let sb := map Z.to_nat (shape b) in
      Ok (mkTensor s
            (map (fun ix => f (getF (data a) (boffset sa ix))
                              (getF (data b) (boffset sb ix)))
                 (multi_indices (map Z.to_nat s))))
  end.

(** [F.relu]: entry by entry, on any shape; [relu1] is the rectifier on
    one entry. *)
Definition F_relu (relu1 : F -> F) (t : tensor F) : result (tensor F) :=
  Ok (mkTensor (shape t) (map relu1 (data t))).

(** [partial(F.softmax, dim=1)]: the vectors along dimension 1 are
    normalized, which needs at least two dimensions; [softmax1] is the
    normalized exponential of one vector. *)
Definition F_softmax (softmax1 : list F -> list F) (t : tensor F)
  : result (tensor F) :=
  match shape t with
  | n :: d :: rest =>
      let d0 := Z.to_nat d in
      let p := prod_nat (map Z.to_nat rest) in
      Ok (mkTensor (shape t)
            (flat_map (fun i =>
               flat_map (fun j =>
                 map (fun r =>
                        nth j (softmax1
                                 (map (fun j' => getF (data t) ((i * d0 + j') * p + r)%nat)
                                      (seq 0 d0)))
                            Fzero)
                     (seq 0 p))
                 (seq 0 d0))
               (seq 0 (Z.to_nat n))))
  | _ => Raise IndexError
  end.

End Torch.

(** ** The layer *)

Section Layer.

Context {F : Type} `{Scalar F}.

(** [self.bias] holds the constructor argument (only its truth value
    matters) until the constructor replaces it by a parameter vector. *)
Inductive bias_attr : Type :=
| BiasArg (b : bool)
| BiasParam (t : tensor F).

Record RGCNLayer : Type := mkLayer {
  in_feat : Z;
  out_feat : Z;
  num_rels : Z;
  num_bases : Z;
  bias : bias_attr;
  activation : option (tensor F -> result (tensor F));
  is_input_layer : bool;
  weight : tensor F;
  w_comp : option (tensor F)
}.

(** Arguments of [RGCNLayer.__init__]. *)
Record layer_args : Type := mkArgs {
  a_in_feat : Z;
  a_out_feat : Z;
  a_num_rels : Z;
  a_num_bases : Z;
  a_bias : bool;
  a_activation : option (tensor F -> result (tensor F));
  a_is_input_layer : bool
}.

(** What the constructor reads from its environment: the contents of the
    freshly allocated buffers and the draws of the random initializer. *)
Record init_env : Type := mkEnv {
  mem_weight : nat -> F;
  mem_w_comp : nat -> F;
  mem_bias : nat -> F;
  draw_weight : nat -> F;
  draw_w_comp : nat -> F;
  draw_bias : nat -> F
}.

(** [if self.bias:] *)
Definition bias_truth (b : bias_attr) : result bool :=
  match b with
  | BiasArg b => Ok b
  | BiasParam t => tensor_bool t
  end.

(** The sanity check on [num_bases]. *)
Definition clamp_bases (nb r : Z) : Z :=
  if (nb <=? 0) || (nb >? r) then r else nb.

Definition RGCNLayer_init (v : torch_version) (a : layer_args) (env : init_env)
  : result RGCNLayer :=
  let nb := clamp_bases (a_num_bases a) (a_num_rels a) in
  w0 <- torch_Tensor [nb; a_in_feat a; a_out_feat a] (mem_weight env) ;;
  c0 <- (if nb <? a_num_rels a
         then c <- torch_Tensor [a_num_rels a; nb] (mem_w_comp env) ;; Ok (Some c)
         else Ok None) ;;
  b0 <- (if a_bias a
         then b <- torch_Tensor [a_out_feat a] (mem_bias env) ;; Ok (BiasParam b)
         else Ok (BiasArg false)) ;;
  w1 <- xavier_uniform_ v w0 (draw_weight env) ;;
  c1 <- (if nb <? a_num_rels a
         then match c0 with
              | Some c => c' <- xavier_uniform_ v c (draw_w_comp env) ;; Ok (Some c')
              | None => Raise AttributeError
              end
         else Ok c0) ;;
  bt <- bias_truth b0 ;;
  b1 <- (if bt
         then match b0 with
              | BiasParam b => b' <- xavier_uniform_ v b (draw_bias env) ;; Ok (BiasParam b')
              | BiasArg _ => Raise AttributeError
              end
         else Ok b0) ;;
  Ok (mkLayer (a_in_feat a) (a_out_feat a) (a_num_rels a) nb b1
              (a_activation a) (a_is_input_layer a) w1 c1).

(** *** Forward pass *)

(** The weight tensor the messages use: rebuilt from the bases when
    [num_bases < num_rels], the stored one otherwise. *)
Definition forward_weight (l : RGCNLayer) : result (tensor F) :=
  if num_bases l <? num_rels l
  then
    w1 <- view (weight l) [in_feat l; num_bases l; out_feat l] ;;
    c <- match w_comp l with Some c => Ok c | None => Raise AttributeError end ;;
    w2 <- matmul c w1 ;;
    view w2 [num_rels l; in_feat l; out_feat l]
  else Ok (weight l).

(** An edge with its entries of the edge data: relation id and norm. *)
Record edge : Type := mkEdge {
  src : Z;
  dst : Z;
  rel_type : Z;
  norm : F
}.

(** How the ['norm'] edge data is stored: a vector of shape [E], as the
    notebook builds it, or a column of shape [E x 1]. *)
Inductive norm_shape : Type := NormVector | NormColumn.

(** A floating-point tensor with its element type. *)
Record ftensor : Type := mkFT {
  ft_dtype : float_dtype;
  ft : tensor F
}.

(** The graph the layer runs on.  The edge data ['rel_type'] is an integer
    vector of type [rel_dtype], ['norm'] a floating-point tensor of type
    [norm_dtype] laid out as [norm_layout] says; nodes carry the frames
    ['id'] (64-bit integers, as [torch.arange] makes them) and ['h'] once
    they are set. *)
Record DGLGraph : Type := mkGraph {
  number_of_nodes : nat;
  edges : list edge;
  rel_dtype : int_dtype;
  norm_layout : norm_shape;
  norm_dtype : float_dtype;
  ndata_id : option (list Z);
  ndata_h : option ftensor
}.

Definition frame {A : Type} (fr : option (list A)) (i : Z) : result A :=
  match fr with
  | None => Raise KeyError
  | Some rows =>
      if i <? 0 then Raise IndexError
      else match nth_error rows (Z.to_nat i) with
           | Some x => Ok x
           | None => Raise IndexError
           end
  end.

(** [edges.data['rel_type']] *)
Definition edata_rel_type (g : DGLGraph) : list Z := map rel_type (edges g).

(** [edges.data['norm']] *)
Definition edata_norm (g : DGLGraph) : tensor F :=
  let E := Z.of_nat (length (edges g)) in
  mkTensor (match norm_layout g with
            | NormVector => [E]
            | NormColumn => [E; 1]
            end)
           (map norm (edges g)).

(** [edges.src['id']]: the id entry of every edge's source node. *)
Definition edges_src_id (g : DGLGraph) : result (list Z) :=
  match ndata_id g with
  | None => Raise KeyError
  | Some ids => mapM (frame (Some ids)) (map src (edges g))
  end.

(** [edges.src['h']]: the feature rows of the edges' source nodes. *)
Definition edges_src_h (g : DGLGraph) : result ftensor :=
  match ndata_h g with
  | None => Raise KeyError
  | Some h =>
      if existsb (fun i => i <? 0) (map src (edges g)) then Raise IndexError
      else
        t <- index_rows (ft h) (map src (edges g)) ;;
        Ok (mkFT (ft_dtype h) t)
  end.

(** Input layer: embedding lookup by relation and source id.  The product
    [rel_type * in_feat] is computed in the type of [rel_type], the sum
    with the 64-bit ids in 64 bits. *)
Definition message_input (l : RGCNLayer) (w : tensor F) (g : DGLGraph)
  : result ftensor :=
  embed <- view w [-1; out_feat l] ;;
  ids <- edges_src_id g ;;
  let index :=
    map (fun p => wrap Int64 (wrap (rel_dtype g) (fst p * in_feat l) + snd p))
        (combine (edata_rel_type g) ids) in
  rows <- index_rows embed index ;;
  msg <- broadcast Fmul rows (edata_norm g) ;;
  Ok (mkFT (promote Float32 (norm_dtype g)) msg).

(** Other layers: the source features times the relations' matrices, one
    batched product; the weights are single precision. *)
Definition message_hidden (ir : index_rule) (w : tensor F) (g : DGLGraph)
  : result ftensor :=
  wr <- (if index_dtype_ok ir (rel_dtype g)
         then index_rows w (edata_rel_type g)
         else Raise IndexError) ;;
  h <- edges_src_h g ;;
  h1 <- unsqueeze1 (ft h) ;;
  m <- (if float_dtype_eqb (ft_dtype h) Float32 then bmm h1 wr
        else Raise RuntimeError) ;;
  msg <- broadcast Fmul (squeeze m) (edata_norm g) ;;
  Ok (mkFT (promote Float32 (norm_dtype g)) msg).

Definition message_func (ir : index_rule) (l : RGCNLayer) (w : tensor F)
           (g : DGLGraph) : result ftensor :=
  if is_input_layer l then message_input l w g else message_hidden ir w g.

Definition zeros (n : nat) : list F := repeat Fzero n.

(** [fn.sum(msg='msg', out='h')] at node [v]: the sum of the messages on
    the edges into [v], the zero vector when there are none. *)
Definition fn_sum (width : nat) (mailbox : list (Z * list F)) (v : Z) : list F :=
  fold_left vadd (map snd (filter (fun m => fst m =? v) mailbox)) (zeros width).

(** The rows of a batch: [n] consecutive blocks of [width] entries. *)
Definition rows_of (width n : nat) (d : list F) : list (list F) :=
  map (fun i => slice (i * width) width d) (seq 0 n).

(** The reduction over the whole graph: the batch of messages must have
    one row per edge, and every node gets the sum of the rows on its
    incoming edges.  On a graph without edges the rows are not looked at
    and every sum is the zero vector. *)
Definition reduce_sum (g : DGLGraph) (msg : ftensor) : result ftensor :=
  let E := length (edges g) in
  let N := number_of_nodes g in
  let tail := tl (shape (ft msg)) in
  let width := prod_nat (map Z.to_nat tail) in
  let mailbox := combine (map dst (edges g)) (rows_of width E (data (ft msg))) in
  if (E =? 0)%nat
     || match shape (ft msg) with
        | d0 :: _ => d0 =? Z.of_nat E
        | [] => false
        end
  then Ok (mkFT (ft_dtype msg)
             (mkTensor (Z.of_nat N :: tail)
                (flat_map (fun v => fn_sum width mailbox (Z.of_nat v)) (seq 0 N))))
  else Raise DGLError.

(** [h + self.bias]: a parameter vector is broadcast against [h]; the
    constructor argument itself counts as 1 or 0. *)
Definition add_bias (h : ftensor) (b : bias_attr) : result ftensor :=
  match b with
  | BiasArg b =>
      Ok (mkFT (ft_dtype h)
            (mkTensor (shape (ft h))
               (map (fun x => Fadd x (if b then Fone else Fzero)) (data (ft h)))))
  | BiasParam t =>
      s <- broadcast Fadd (ft h) t ;;
      Ok (mkFT (promote (ft_dtype h) Float32) s)
  end.

Definition apply_func (l : RGCNLayer) (h : ftensor) : result ftensor :=
  bt <- bias_truth (bias l) ;;
  h1 <- (if bt then add_bias h (bias l) else Ok h) ;;
  match activation l with
  | Some act => t <- act (ft h1) ;; Ok (mkFT (ft_dtype h1) t)
  | None => Ok h1
  end.

(** The per-node sums, before bias and activation. *)
Definition aggregate (ir : index_rule) (l : RGCNLayer) (w : tensor F) (g : DGLGraph)
  : result ftensor :=
  msg <- message_func ir l w g ;;
  reduce_sum g msg.

(** Storing a node frame: it must have one row per node. *)
Definition set_ndata_h (g : DGLGraph) (h : ftensor) : result DGLGraph :=
  match shape (ft h) with
  | d0 :: _ =>
      if d0 =? Z.of_nat (number_of_nodes g)
      then Ok (mkGraph (number_of_nodes g) (edges g) (rel_dtype g) (norm_layout g)
                       (norm_dtype g) (ndata_id g) (Some h))
      else Raise DGLError
  | [] => Raise DGLError
  end.

(** [layer.forward(g)]: [g.update_all(message_func, fn.sum, apply_func)];
    the result is the new ['h'] frame. *)
Definition forward (ir : index_rule) (l : RGCNLayer) (g : DGLGraph)
  : result DGLGraph :=
  w <- forward_weight l ;;
  sums <- aggregate ir l w g ;;
  h <- apply_func l sums ;;
  set_ndata_h g h.

(** The same graph with its edge list replaced. *)
Definition with_edges (g : DGLGraph) (es : list edge) : DGLGraph :=
  mkGraph (number_of_nodes g) es (rel_dtype g) (norm_layout g) (norm_dtype g)
          (ndata_id g) (ndata_h g).

End Layer.

Arguments RGCNLayer F : clear implicits.
Arguments layer_args F : clear implicits.
Arguments init_env F : clear implicits.
Arguments edge F : clear implicits.
Arguments DGLGraph F : clear implicits.
Arguments bias_attr F : clear implicits.
Arguments ftensor F : clear implicits.

(** ** Preprocessing cells *)

(** A row of [bios_graph_data]. *)
Record triple : Type := mkTriple {
  agent_A : string;
  agent_B : string;
  stmt_type : string
}.

(** *** [Series.astype('category').cat.codes] *)

(** pandas builds the categories of a string column as its distinct values
    in sorted order; strings compare by code point, as [String.compare]
    does. *)
Fixpoint insert_category (x : string) (cats : list string) : list string :=
  match cats with
  | [] => [x]
  | y :: cats' =>
      match String.compare x y with
      | Lt => x :: cats
      | Eq => cats
      | Gt => y :: insert_category x cats'
      end
  end.

Definition categories (col : list string) : list string :=
  fold_left (fun cats x => insert_category x cats) col [].

Fixpoint index_of (x : string) (l : list string) : option nat :=
  match l with
  | [] => None
  | y :: l' =>
      if String.eqb x y then Some O
      else match index_of x l' with
           | Some i => Some (S i)
           | None => None
           end
  end.

(** The code of a value is its position among the categories ([-1] for a
    value that is not one of them). *)
Definition code_of (cats : list string) (x : string) : Z :=
  match index_of x cats with
  | Some i => Z.of_nat i
  | None => -1
  end.

Definition cat_codes (col : list string) : list Z :=
  map (code_of (categories col)) col.

(** [bios_graph_data.stmt_type.astype('category').cat.codes] *)
Definition relation_category (rows : list triple) : list Z :=
  cat_codes (map stmt_type rows).

(** [bios_graph_data['agent_A'].astype('category').cat.codes.tolist()] *)
Definition edge_src (rows : list triple) : list Z :=
  cat_codes (map agent_A rows).

(** [bios_graph_data['agent_B'].astype('category').cat.codes.tolist()] *)
Definition edge_dst (rows : list triple) : list Z :=
  cat_codes (map agent_B rows).

(** *** [nx.from_pandas_edgelist(..., create_using=nx.DiGraph())] *)

(** A simple directed graph: nodes in insertion order, each ordered pair
    at most once. *)
Record DiGraph : Type := mkDiGraph {
  nodes : list string;
  arcs : list (string * string)
}.

Definition has_node (G : DiGraph) (n : string) : bool :=
  existsb (String.eqb n) (nodes G).

Definition has_arc (G : DiGraph) (u v : string) : bool :=
  existsb (fun a => String.eqb u (fst a) && String.eqb v (snd a)) (arcs G).

Definition add_node (G : DiGraph) (n : string) : DiGraph :=
  if has_node G n then G else mkDiGraph (nodes G ++ [n]) (arcs G).

Definition add_edge (G : DiGraph) (u v : string) : DiGraph :=
  let G1 := add_node (add_node G u) v in
  if has_arc G1 u v then G1 else mkDiGraph (nodes G1) (arcs G1 ++ [(u, v)]).

Definition from_pandas_edgelist (rows : list triple) : DiGraph :=
  fold_left (fun G t => add_edge G (agent_A t) (agent_B t)) rows
            (mkDiGraph [] []).

Definition out_degree (G : DiGraph) (n : string) : nat :=
  length (filter (fun a => String.eqb n (fst a)) (arcs G)).

Definition in_degree (G : DiGraph) (n : string) : nat :=
  length (filter (fun a => String.eqb n (snd a)) (arcs G)).

(** [G.degree()] of a directed graph counts the arcs out of and into the
    node. *)
Definition degree (G : DiGraph) (n : string) : nat :=
  (out_degree G n + in_degree G n)%nat.

Definition float_of_nat (n : nat) : float :=
  PrimFloat.of_uint63 (Uint63.of_Z (Z.of_nat n)).

(** [nx.degree_centrality(G)]: every node's degree times
    [1.0 / (len(G) - 1.0)]; all ones on a graph with at most one node. *)
Definition degree_centrality (G : DiGraph) : list (string * float) :=
  if (length (nodes G) <=? 1)%nat
  then map (fun n => (n, 1%float)) (nodes G)
  else
    let s := (1 / (float_of_nat (length (nodes G)) - 1))%float in
    map (fun n => (n, (float_of_nat (degree G n) * s)%float)) (nodes G).

(** [d[k]] *)
Fixpoint dict_get (d : list (string * float)) (k : string) : result float :=
  match d with
  | [] => Raise KeyError
  | (k', x) :: d' => if String.eqb k k' then Ok x else dict_get d' k
  end.

(** [lambda x: np.sqrt(dict1[x.agent_A] * dict1[x.agent_B])] *)
Definition edge_norm_row (dict1 : list (string * float)) (x : triple)
  : result float :=
  a <- dict_get dict1 (agent_A x) ;;
  b <- dict_get dict1 (agent_B x) ;;
  Ok (PrimFloat.sqrt (a * b)).

(** The [edge_norm] column: the lambda applied to every row, and the
    result assigned to the column.  On a table without rows [apply]
    returns an empty table instead of a column, and assigning that to the
    single column raises. *)
Definition edge_norm (rows : list triple) : result (list float) :=
  match rows with
  | [] => Raise ValueError
  | _ => mapM (edge_norm_row (degree_centrality (from_pandas_edgelist rows))) rows
  end.

(** ** Reference definitions

    What the specification describes, written independently of the code
    above, to compare the code with. *)

Section Reference.

Context {F : Type} `{Scalar F}.

(** Equation (3) of the R-GCN paper, which the layer's comments cite:
    relation [r] uses [sum_b coeff[r][b] * Basis_b], where [Basis_b] is the
    stored [in_feat x out_feat] matrix [weight[b]] and [coeff] is [w_comp]. *)
Definition basis_combination (l : RGCNLayer F) (coeff : tensor F) : tensor F :=
  let R := Z.to_nat (num_rels l) in
  let B := Z.to_nat (num_bases l) in
  let I := Z.to_nat (in_feat l) in
  let O := Z.to_nat (out_feat l) in
  mkTensor [num_rels l; in_feat l; out_feat l]
    (flat_map (fun r =>
       flat_map (fun i =>
         map (fun o =>
                dot B (fun b => getF (data coeff) (r * B + b)%nat)
                      (fun b => getF (data (weight l)) ((b * I + i) * O + o)%nat))
             (seq 0 O))
         (seq 0 I))
       (seq 0 R)).

(** The one-hot row vector of length [n] for node id [i]. *)
Definition one_hot (n i : Z) : list F :=
  map (fun j => if Z.of_nat j =? i then Fone else Fzero) (seq 0 (Z.to_nat n)).

(** [torch.arange(num_nodes)], the ['id'] frame the model installs. *)
Definition create_features (num_nodes : nat) : list Z :=
  map Z.of_nat (seq 0 num_nodes).

(** The messages of the specification, one per edge.  Input mode: row
    [rel_id * in_dim + src_id] of the weight read as an embedding table of
    [out_dim] columns, scaled by the edge's norm. *)
Definition embedding_message (l : RGCNLayer F) (w : tensor F) (e : edge F)
  : list F :=
  vscale (norm e)
    (slice (Z.to_nat (rel_type e * in_feat l + src e) * Z.to_nat (out_feat l))
           (Z.to_nat (out_feat l)) (data w)).

(** A feature vector [x] times the matrix [Weight[rel_id]], scaled by the
    edge's norm. *)
Definition feature_message (l : RGCNLayer F) (w : tensor F) (x : list F) (e : edge F)
  : list F :=
  let I := Z.to_nat (in_feat l) in
  let O := Z.to_nat (out_feat l) in
  vscale (norm e)
    (mat_mul 1 I O x (slice (Z.to_nat (rel_type e) * (I * O)) (I * O) (data w))).

(** The one-hot vector of the source id through the matrix path. *)
Definition one_hot_message (l : RGCNLayer F) (w : tensor F) (e : edge F) : list F :=
  feature_message l w (one_hot (in_feat l) (src e)) e.

(** Hidden mode: the source node's row of the feature matrix [h] through
    the matrix path. *)
Definition hidden_message (l : RGCNLayer F) (w h : tensor F) (e : edge F) : list F :=
  let I := Z.to_nat (in_feat l) in
  feature_message l w (slice (Z.to_nat (src e) * I) I (data h)) e.

(** The message of an edge on a graph: by embedding lookup in an input
    layer, from the source's row of the ['h'] frame otherwise. *)
Definition spec_message (l : RGCNLayer F) (w : tensor F) (g : DGLGraph F) (e : edge F)
  : list F :=
  if is_input_layer l then embedding_message l w e
  else match ndata_h g with
       | Some h => hidden_message l w (ft h) e
       | None => []
       end.

(** Aggregation: every node's sum of the messages on its incoming edges,
    the zero vector of [width] entries when it has none. *)
Definition node_sums (width : nat) (msg : edge F -> list F) (g : DGLGraph F)
  : list (list F) :=
  map (fun v => fn_sum width (map (fun e => (dst e, msg e)) (edges g)) (Z.of_nat v))
      (seq 0 (number_of_nodes g)).

End Reference.

(** Ids in order of first appearance: the distinct labels in the order in
    which they first occur. *)
Fixpoint first_seen (seen : list string) (labels : list string) : list string :=
  match labels with
  | [] => seen
  | x :: labels' =>
      if existsb (String.eqb x) seen then first_seen seen labels'
      else first_seen (seen ++ [x]) labels'
  end.

Definition first_appearance_codes (col : list string) : list Z :=
  map (code_of (first_seen [] col)) col.

(** Node labels of the whole triple sequence, subject then object of each
    row. *)
Definition node_labels (rows : list triple) : list string :=
  flat_map (fun t => [agent_A t; agent_B t]) rows.

(** Strict order of strings by code point. *)
Definition slt (x y : string) : Prop := String.compare x y = Lt.

(** The number of distinct labels of a column that sort strictly before
    [x]. *)
Definition sorted_rank (col : list string) (x : string) : Z :=
  Z.of_nat (length (filter (fun y => String.ltb y x) (nodup string_dec col))).

(** ** Example inputs *)

Local Open Scope string_scope.

(** Draws of the initializer on integer-valued entries: the weight buffer
    is filled with 1, 2, 3, ..., the coefficients with 1, 0, 0, ... *)
Definition ex_env : init_env Z :=
  mkEnv (fun _ => 0) (fun _ => 0) (fun _ => 0)
        (fun i => Z.of_nat i + 1)
        (fun i => match i with O => 1 | _ => 0 end)
        (fun _ => 0).

(** [RGCNLayer(2, 1, 2, num_bases=1, is_input_layer=True)] *)
Definition ex_args_bases : layer_args Z := mkArgs 2 1 2 1 false None true.

(** [RGCNLayer(2, 1, 2, is_input_layer=True)], [num_bases] left at [-1] *)
Definition ex_args_direct : layer_args Z := mkArgs 2 1 2 (-1) false None true.

(** [RGCNLayer(3, 2, 0)] *)
Definition ex_args_no_rels : layer_args Z := mkArgs 3 2 0 (-1) false None false.

(** [RGCNLayer(3, 0, 2)] *)
Definition ex_args_no_out : layer_args Z := mkArgs 3 0 2 (-1) false None false.

(** [RGCNLayer(2, 2, 1, bias=True)] *)
Definition ex_args_bias : layer_args Z := mkArgs 2 2 1 (-1) true None false.

(** Two nodes, three edges, with the ['id'] frame installed; relation ids
    are 64-bit and the norms a single-precision column. *)
Definition ex_edges : list (edge Z) :=
  [mkEdge 0 1 0 2; mkEdge 1 0 1 1; mkEdge 1 1 0 5].

Definition ex_graph : DGLGraph Z :=
  mkGraph 2 ex_edges Int64 NormColumn Float32 (Some (create_features 2)) None.

(** [RGCNLayer(2, 1, 2)]: a layer that is not the input layer, with a
    single output feature. *)
Definition ex_args_out1 : layer_args Z := mkArgs 2 1 2 (-1) false None false.

(** [RGCNLayer(2, 3, 2)] *)
Definition ex_args_hidden : layer_args Z := mkArgs 2 3 2 (-1) false None false.

(** The same graph with single-precision feature rows [[1, 0]] and
    [[2, 5]] in its ['h'] frame. *)
Definition ex_graph_h : DGLGraph Z :=
  mkGraph 2 ex_edges Int64 NormColumn Float32 (Some (create_features 2))
          (Some (mkFT Float32 (mkTensor [2; 2] [1; 0; 2; 5]))).

(** [RGCNLayer(200, 2, 2, is_input_layer=True)] *)
Definition ex_args_wide : layer_args Z := mkArgs 200 2 2 (-1) false None true.

(** Two hundred nodes and two edges whose relation ids are stored as 8-bit
    integers, as [torch.tensor(relation_category.to_numpy())] stores the
    category codes: node 0 to node 1 with relation 1, node 3 to node 2 with
    relation 0. *)
Definition ex_graph_int8 : DGLGraph Z :=
  mkGraph 200 [mkEdge 0 1 1 1; mkEdge 3 2 0 1] Int8 NormColumn Float32
          (Some (create_features 200)) None.

(** The triples A->B, B->A, B->C. *)
Definition ex_triples : list triple :=
  [mkTriple "A" "B" "Complex"; mkTriple "B" "A" "Activation";
   mkTriple "B" "C" "Complex"].

(** A label that is subject of one row and object of another. *)
Definition ex_rows_shared : list triple :=
  [mkTriple "B" "C" "Complex"; mkTriple "A" "B" "Complex"].

(** The relation labels of the dataset, in the order in which the
    notebook's [edge_relation_lookup] output lists them (order of first
    appearance). *)
Definition ex_relation_labels : list string :=
  ["Complex"; "Activation"; "IncreaseAmount"; "Inhibition"; "Glycosylation";
   "Phosphorylation"; "Ubiquitination"; "DecreaseAmount"; "Dephosphorylation";
   "Gef"; "Conversion"; "Methylation"; "Farnesylation"; "Hydroxylation";
   "Sumoylation"; "Acetylation"; "Deubiquitination"; "Deacetylation";
   "GtpActivation"; "Gap"; "Demethylation"; "Myristoylation"; "Desumoylation";
   "Palmitoylation"].

Local Close Scope string_scope.

(** ** The model: a stack of layers *)

Section ModelDef.

Context {F : Type} `{Scalar F}.

(** The two activations of the model, [F.relu] and
    [partial(F.softmax, dim=1)], as functions on tensors. *)
Variable relu : tensor F -> result (tensor F).
Variable softmax : tensor F -> result (tensor F).

Record Model : Type := mkModel {
  m_num_nodes : Z;
  m_h_dim : Z;
  m_out_dim : Z;
  m_num_rels : Z;
  m_num_bases : Z;
  m_num_hidden_layers : Z;
  layers : list (RGCNLayer F);
  features : list Z
}.

(** Arguments of [Model.__init__]. *)
Record model_args : Type := mkModelArgs {
  ma_num_nodes : Z;
  ma_h_dim : Z;
  ma_out_dim : Z;
  ma_num_rels : Z;
  ma_num_bases : Z;
  ma_num_hidden_layers : Z
}.

(** What each layer's constructor reads from its environment. *)
Record model_env : Type := mkModelEnv {
  env_input : init_env F;
  env_hidden : nat -> init_env F;
  env_output : init_env F
}.

Definition build_input_layer (v : torch_version) (a : model_args) (env : init_env F)
  : result (RGCNLayer F) :=
  RGCNLayer_init v
    (mkArgs (ma_num_nodes a) (ma_h_dim a) (ma_num_rels a) (ma_num_bases a)
            false (Some relu) true) env.

Definition build_hidden_layer (v : torch_version) (a : model_args) (env : init_env F)
  : result (RGCNLayer F) :=
  RGCNLayer_init v
    (mkArgs (ma_h_dim a) (ma_h_dim a) (ma_num_rels a) (ma_num_bases a)
            false (Some relu) false) env.

Definition build_output_layer (v : torch_version) (a : model_args) (env : init_env F)
  : result (RGCNLayer F) :=
  RGCNLayer_init v
    (mkArgs (ma_h_dim a) (ma_out_dim a) (ma_num_rels a) (ma_num_bases a)
            false (Some softmax) false) env.

(** [build_model]: input layer, [range(num_hidden_layers)] hidden layers,
    output layer, appended in this order. *)
Definition build_model (v : torch_version) (a : model_args) (env : model_env)
  : result (list (RGCNLayer F)) :=
  i2h <- build_input_layer v a (env_input env) ;;
  h2hs <- mapM (fun k => build_hidden_layer v a (env_hidden env k))
               (seq 0 (Z.to_nat (ma_num_hidden_layers a))) ;;
  h2o <- build_output_layer v a (env_output env) ;;
  Ok (i2h :: h2hs ++ [h2o]).

(** [torch.arange(num_nodes)] *)
Definition Model_create_features (num_nodes : Z) : result (list Z) :=
  if num_nodes <? 0 then Raise RuntimeError
  else Ok (create_features (Z.to_nat num_nodes)).

Definition Model_init (v : torch_version) (a : model_args) (env : model_env)
  : result Model :=
  ls <- build_model v a env ;;
  fs <- Model_create_features (ma_num_nodes a) ;;
  Ok (mkModel (ma_num_nodes a) (ma_h_dim a) (ma_out_dim a) (ma_num_rels a)
              (ma_num_bases a) (ma_num_hidden_layers a) ls fs).

(** The edge data and frames for which a layer computes the messages of
    the specification edge by edge: the norms stored as a column, relation
    ids and sources in range; for an input layer the ids [0 .. N-1] with
    [in_feat] the node count and every row number of the embedding table
    representable in the type of [rel_type]; for any other layer an index
    type the library accepts, single-precision feature rows of [in_feat]
    entries, and [out_feat] other than 1, since [squeeze()] drops every
    dimension of size 1. *)
Definition graph_ready (ir : index_rule) (l : RGCNLayer F) (g : DGLGraph F) : Prop :=
  norm_layout g = NormColumn
  /\ (forall e, In e (edges g) ->
        0 <= rel_type e < num_rels l /\ 0 <= src e < Z.of_nat (number_of_nodes g))
  /\ (if is_input_layer l
      then ndata_id g = Some (create_features (number_of_nodes g))
           /\ in_feat l = Z.of_nat (number_of_nodes g)
           /\ num_rels l * in_feat l <= 2 ^ (int_bits (rel_dtype g) - 1)
      else index_dtype_ok ir (rel_dtype g) = true
           /\ out_feat l <> 1
           /\ exists h, ndata_h g = Some (mkFT Float32 h)
                        /\ shape h = [Z.of_nat (number_of_nodes g); in_feat l]
                        /\ tensor_wf h).

(** An activation that maps a matrix to a matrix of the same shape. *)
Definition keeps_matrices (act : tensor F -> result (tensor F)) : Prop :=
  forall (t : tensor F) (n k : Z),
    shape t = [n; k] -> tensor_wf t ->
    exists t', act t = Ok t' /\ shape t' = [n; k] /\ tensor_wf t'.

(** [for layer in self.layers: layer(g)] *)
Fixpoint run_layers (ir : index_rule) (ls : list (RGCNLayer F)) (g : DGLGraph F)
  : result (DGLGraph F) :=
  match ls with
  | [] => Ok g
  | l :: ls' => g' <- forward ir l g ;; run_layers ir ls' g'
  end.

(** [g.ndata['id'] = features]: the frame must have one entry per node. *)
Definition set_ndata_id (g : DGLGraph F) (fs : list Z) : result (DGLGraph F) :=
  if (length fs =? number_of_nodes g)%nat
  then Ok (mkGraph (number_of_nodes g) (edges g) (rel_dtype g) (norm_layout g)
                   (norm_dtype g) (Some fs) (ndata_h g))
  else Raise DGLError.

(** [Model.forward(g)]: install the ids, run the layers in order, pop the
    ['h'] frame off the graph and return it. *)
Definition Model_forward (ir : index_rule) (m : Model) (g : DGLGraph F)
  : result (ftensor F * DGLGraph F) :=
  g0 <- set_ndata_id g (features m) ;;
  g1 <- run_layers ir (layers m) g0 ;;
  match ndata_h g1 with
  | Some h => Ok (h, mkGraph (number_of_nodes g1) (edges g1) (rel_dtype g1)
                             (norm_layout g1) (norm_dtype g1) (ndata_id g1) None)
  | None => Raise KeyError
  end.

End ModelDef.

Arguments Model F : clear implicits.
Arguments model_env F : clear implicits.

(** ** More of the preprocessing cells *)

(** A Python [dict] with integer keys: entries in insertion order, a key
    set again keeps its place and takes the new value. *)
Fixpoint zdict_set (d : list (Z * string)) (k : Z) (x : string)
  : list (Z * string) :=
  match d with
  | [] => [(k, x)]
  | (k', x') :: d' =>
      if k =? k' then (k, x) :: d' else (k', x') :: zdict_set d' k x
  end.

Fixpoint zdict_get (d : list (Z * string)) (k : Z) : result string :=
  match d with
  | [] => Raise KeyError
  | (k', x) :: d' => if k =? k' then Ok x else zdict_get d' k
  end.

(** [dict(zip(keys, values))] *)
Definition dict_zip (ks : list Z) (xs : list string) : list (Z * string) :=
  fold_left (fun d p => zdict_set d (fst p) (snd p)) (combine ks xs) [].

(** [edge_relation_lookup]: from relation code to relation label. *)
Definition edge_relation_lookup (rows : list triple) : list (Z * string) :=
  dict_zip (cat_codes (map stmt_type rows)) (map stmt_type rows).

(** [np.unique]: the distinct values in increasing order. *)
Fixpoint insert_unique (x : Z) (l : list Z) : list Z :=
  match l with
  | [] => [x]
  | y :: l' =>
      match x ?= y with
      | Lt => x :: l
      | Eq => l
      | Gt => y :: insert_unique x l'
      end
  end.

Definition np_unique (l : list Z) : list Z :=
  fold_left (fun acc x => insert_unique x acc) l [].

(** [num_rels = len(np.unique(relation_category.tolist()))] *)
Definition notebook_num_rels (rows : list triple) : Z :=
  Z.of_nat (length (np_unique (relation_category rows))).

(** [len(DGLGraph((edge_src, edge_dst)))]: the node count is inferred as
    the largest id plus one. *)
Definition dgl_number_of_nodes (srcs dsts : list Z) : Z :=
  fold_right Z.max 0 (map Z.succ (srcs ++ dsts)).

(** [len(g)] for the notebook's graph. *)
Definition notebook_num_nodes (rows : list triple) : Z :=
  dgl_number_of_nodes (edge_src rows) (edge_dst rows).

(** [bios["agA_ns"] + ':' + bios["agA_id"]]: the label of an agent. *)
Definition agent_label (ns id : string) : string :=
  (ns ++ ":" ++ id)%string.

(** [sorted(d, key=d.get, reverse=True)]: a stable sort by decreasing
    value; an entry is placed before the first entry of smaller value. *)
Fixpoint insert_desc (kx : string * float) (l : list (string * float))
  : list (string * float) :=
  match l with
  | [] => [kx]
  | y :: l' =>
      if PrimFloat.ltb (snd y) (snd kx) then kx :: l else y :: insert_desc kx l'
  end.

Definition sorted_desc (d : list (string * float)) : list (string * float) :=
  fold_left (fun acc kx => insert_desc kx acc) d [].

(** [print_centrality(d)]: the lines printed, a key with its value each;
    the loop stops after fifteen. *)
Definition print_centrality (d : list (string * float))
  : list (string * float) :=
  firstn 15 (sorted_desc d).

(** ** More example inputs *)

(** The layers the constructor returns on [ex_args_bases] and
    [ex_args_direct]. *)
Definition ex_layer_bases : RGCNLayer Z :=
  mkLayer 2 1 2 1 (BiasArg false) None true
          (mkTensor [1; 2; 1] [1; 2]) (Some (mkTensor [2; 1] [1; 0])).

Definition ex_layer_direct : RGCNLayer Z :=
  mkLayer 2 1 2 2 (BiasArg false) None true
          (mkTensor [2; 2; 1] [1; 2; 3; 4]) None.

(** The layer the constructor returns on [ex_args_hidden]. *)
Definition ex_layer_hidden : RGCNLayer Z :=
  mkLayer 2 3 2 2 (BiasArg false) None false
          (mkTensor [2; 2; 3] [1; 2; 3; 4; 5; 6; 7; 8; 9; 10; 11; 12]) None.

(** The edges of [ex_graph] with the edge data laid out as the notebook
    stores it: 8-bit relation ids, and the norms a double-precision
    vector. *)
Definition ex_graph_notebook : DGLGraph Z :=
  mkGraph 2 ex_edges Int8 NormVector Float64 None None.

(** An edge whose relation id counts from the end. *)
Definition ex_graph_negative : DGLGraph Z :=
  mkGraph 2 [mkEdge 0 1 (-1) 3; mkEdge 1 0 0 1] Int64 NormColumn Float32
          (Some (create_features 2)) None.

(** One edge from node 0 to node 1: node 0 has no incoming edge. *)
Definition ex_graph_one_edge : DGLGraph Z :=
  mkGraph 2 [mkEdge 0 1 0 2] Int64 NormColumn Float32 (Some (create_features 2)) None.

(** An edge whose relation id is the number of relations. *)
Definition ex_graph_bad_relation : DGLGraph Z :=
  mkGraph 2 [mkEdge 0 1 0 2; mkEdge 1 0 2 1] Int64 NormColumn Float32
          (Some (create_features 2)) None.

(** A rectifier and a stand-in for the normalized exponential on
    integer-valued tensors. *)
Definition ex_relu : tensor Z -> result (tensor Z) := F_relu (Z.max 0).

Definition ex_softmax : tensor Z -> result (tensor Z) := F_softmax (map (Z.max 0)).

(** [Model(2, 2, 3, 2, num_hidden_layers=1)] *)
Definition ex_model_args : model_args := mkModelArgs 2 2 3 2 (-1) 1.

Definition ex_model_env : model_env Z :=
  mkModelEnv ex_env (fun _ => ex_env) ex_env.

(** * Auxiliary facts *)

Ltac zbool :=
  repeat match goal with
  | H : (_ || _)%bool = true |- _ => apply orb_true_iff in H
  | H : (_ || _)%bool = false |- _ => apply orb_false_iff in H; destruct H
  | H : (_ && _)%bool = true |- _ => apply andb_true_iff in H; destruct H
  | H : (_ && _)%bool = false |- _ => apply andb_false_iff in H
  | H : (_ <? _) = true |- _ => apply Z.ltb_lt in H
  | H : (_ <? _) = false |- _ => apply Z.ltb_ge in H
  | H : (_ <=? _) = true |- _ => apply Z.leb_le in H
  | H : (_ <=? _) = false |- _ => apply Z.leb_gt in H
  | H : (_ >? _) = true |- _ => rewrite Z.gtb_ltb in H
  | H : (_ >? _) = false |- _ => rewrite Z.gtb_ltb in H
  | H : (_ =? _) = true |- _ => apply Z.eqb_eq in H
  | H : (_ =? _) = false |- _ => apply Z.eqb_neq in H
  end.

(** Split on the next test the code performs. *)
Ltac step_if :=
  match goal with
  | |- context [if ?b then _ else _] => destruct b eqn:?
  | H : context [if ?b then _ else _] |- _ => destruct b eqn:?
  end.

Lemma bind_Ok {A B : Type} (m : result A) (k : A -> result B) (b : B) :
  (x <- m ;; k x) = Ok b -> exists a, m = Ok a /\ k a = Ok b.
Proof. destruct m; cbn; [eauto|discriminate]. Qed.

Lemma mapM_Ok_cons {A B} (f : A -> result B) (a : A) (l : list A) (bs : list B) :
  mapM f (a :: l) = Ok bs ->
  exists b bs', f a = Ok b /\ mapM f l = Ok bs' /\ bs = b :: bs'.
Proof.
  cbn [mapM]. intros Hm.
  apply bind_Ok in Hm as (b & Hb & Hm).
  apply bind_Ok in Hm as (bs' & Hbs & [= <-]). eauto.
Qed.

Lemma mapM_cons_Ok {A B} (f : A -> result B) (a : A) (l : list A) (b : B) (bs : list B) :
  f a = Ok b -> mapM f l = Ok bs -> mapM f (a :: l) = Ok (b :: bs).
Proof. intros Hb Hbs. cbn [mapM]. now rewrite Hb, Hbs. Qed.

Lemma filter_Permutation {A} (p : A -> bool) (l l' : list A) :
  Permutation l l' -> Permutation (filter p l) (filter p l').
Proof.
  induction 1 as [|x l l' Hp IH|x y l|l l' l'' Hp1 IH1 Hp2 IH2]; cbn.
  - constructor.
  - destruct (p x); [now constructor|assumption].
  - destruct (p x), (p y); try reflexivity. constructor.
  - now transitivity (filter p l').
Qed.

Lemma nth_slice {A} (off k i : nat) (l : list A) (d : A) :
  (i < k)%nat -> nth i (slice off k l) d = nth (off + i) l d.
Proof.
  intros Hi. unfold slice. rewrite nth_firstn.
  destruct (i <? k)%nat eqn:E; [|apply Nat.ltb_ge in E; lia].
  revert l. induction off as [|off IH]; intros l; cbn [skipn Nat.add].
  - reflexivity.
  - destruct l as [|a l]; [now destruct i|]. cbn [nth]. apply IH.
Qed.

Lemma length_slice {A} (off k : nat) (l : list A) :
  (off + k <= length l)%nat -> length (slice off k l) = k.
Proof.
  intros Hl. unfold slice. rewrite length_firstn, length_skipn. lia.
Qed.

Lemma length_flat_map_const {A B} (f : A -> list B) (l : list A) (c : nat) :
  (forall x, length (f x) = c) -> length (flat_map f l) = (length l * c)%nat.
Proof.
  intros Hf. induction l as [|a l IH]; cbn; [reflexivity|].
  rewrite length_app, Hf, IH. lia.
Qed.

Lemma list_eq_nth {A} (d : A) (l l' : list A) :
  length l = length l' ->
  (forall i, (i < length l)%nat -> nth i l d = nth i l' d) -> l = l'.
Proof.
  revert l'. induction l as [|a l IH]; intros [|a' l'] Hlen Hnth;
    try discriminate; [reflexivity|].
  f_equal.
  - apply (Hnth O). cbn. lia.
  - apply IH; [now injection Hlen|]. intros i Hi. apply (Hnth (S i)). cbn. lia.
Qed.

Lemma mapM_length {A B : Type} (f : A -> result B) (l : list A) (ys : list B) :
  mapM f l = Ok ys ->
  length ys = length l /\ forall y, In y ys -> exists x, In x l /\ f x = Ok y.
Proof.
  revert ys. induction l as [|x l IH]; intros ys Hm.
  - injection Hm as <-. split; [reflexivity|]. intros y [].
  - apply mapM_Ok_cons in Hm as (b & bs & Hb & Hbs & ->).
    destruct (IH _ Hbs) as [Hlen Hin]. split; [cbn; congruence|].
    intros y [<-|Hy].
    + exists x. split; [now left|assumption].
    + destruct (Hin y Hy) as (x' & Hx' & Hfx'). exists x'. split; [now right|assumption].
Qed.

Lemma nth_flat_map_const {A B : Type} (f : A -> list B) (l : list A)
      (c i j : nat) (d : B) (da : A) :
  (forall x, length (f x) = c) -> (i < length l)%nat -> (j < c)%nat ->
  nth (i * c + j) (flat_map f l) d = nth j (f (nth i l da)) d.
Proof.
  intros Hc. revert i. induction l as [|a l IH]; intros i Hi Hj; [cbn in Hi; lia|].
  cbn [flat_map]. destruct i as [|i].
  - cbn [Nat.mul Nat.add nth]. apply app_nth1. now rewrite Hc.
  - rewrite app_nth2 by (rewrite Hc; cbn; lia).
    rewrite Hc. replace (S i * c + j - c)%nat with (i * c + j)%nat by (cbn; lia).
    cbn [nth]. apply IH; [cbn in Hi; lia|assumption].
Qed.

Lemma nth_map_seq {B : Type} (f : nat -> B) (n j : nat) (d : B) :
  (j < n)%nat -> nth j (map f (seq 0 n)) d = f j.
Proof.
  intros Hj. rewrite (nth_indep _ d (f O)) by now rewrite length_map, length_seq.
  rewrite (map_nth f). now rewrite seq_nth.
Qed.

Lemma mapM_total {A B : Type} (f : A -> result B) (P : B -> Prop) (l : list A) :
  (forall x, In x l -> exists y, f x = Ok y /\ P y) ->
  exists ys, mapM f l = Ok ys /\ length ys = length l /\ Forall P ys.
Proof.
  induction l as [|x l IH]; intros Hf.
  - exists []. repeat split. constructor.
  - destruct (Hf x (or_introl eq_refl)) as (y & Hy & HP).
    destruct (IH (fun z Hz => Hf z (or_intror Hz))) as (ys & Hys & Hlen & Hall).
    exists (y :: ys). split; [now apply mapM_cons_Ok|].
    split; [cbn; congruence|now constructor].
Qed.

Lemma mapM_combine_In {A B C : Type} (f : A -> result B) (l : list A) (cs : list C)
      (ys : list B) (c : C) (x : A) :
  mapM f l = Ok ys -> In (c, x) (combine cs l) ->
  exists y, f x = Ok y /\ In (c, y) (combine cs ys).
Proof.
  revert cs ys. induction l as [|a l IH]; intros cs ys Hm Hin.
  - destruct cs; destruct Hin.
  - apply mapM_Ok_cons in Hm as (b & bs & Hb & Hbs & ->).
    destruct cs as [|c0 cs]; [destruct Hin|]. cbn [combine] in Hin |- *.
    destruct Hin as [[= <- <-]|Hin].
    + exists b. split; [assumption|now left].
    + destruct (IH cs bs Hbs Hin) as (y & Hy & Hiny). exists y. split; [assumption|now right].
Qed.
(** * The constructor *)

Section InitFacts.

Context {F : Type} `{Scalar F}.

Lemma clamp_bases_range (nb r : Z) :
  0 < r -> 0 < clamp_bases nb r <= r.
Proof.
  unfold clamp_bases; intros Hr.
  destruct ((nb <=? 0) || (nb >? r))%bool eqn:E; zbool; lia.
Qed.

Lemma clamp_bases_outside (nb r : Z) :
  nb <= 0 \/ nb > r -> clamp_bases nb r = r.
Proof.
  unfold clamp_bases; intros Hout.
  destruct ((nb <=? 0) || (nb >? r))%bool eqn:E; zbool; lia.
Qed.

Lemma clamp_bases_le (nb r : Z) : 0 <= r -> clamp_bases nb r <= r.
Proof.
  unfold clamp_bases; intros Hr.
  destruct ((nb <=? 0) || (nb >? r))%bool eqn:E; zbool; lia.
Qed.

Lemma clamp_bases_neg (nb r : Z) : r < 0 -> clamp_bases nb r = r.
Proof. intros Hr. apply clamp_bases_outside. lia. Qed.

Lemma torch_Tensor_shape (dims : list Z) (mem : nat -> F) (t : tensor F) :
  torch_Tensor dims mem = Ok t ->
  shape t = dims /\ Forall (fun d => 0 <= d) dims /\ numel t = prodZ dims.
Proof.
  unfold torch_Tensor. destruct (existsb _ dims) eqn:E; [discriminate|].
  intros [= <-]. cbn [shape data]. split; [reflexivity|].
  assert (Hpos : Forall (fun d => 0 <= d) dims).
  { apply Forall_forall. intros d Hd.
    destruct (d <? 0) eqn:Ed; zbool; [|assumption].
    assert (existsb (fun d => d <? 0) dims = true).
    { apply existsb_exists. exists d. split; [assumption|]. now apply Z.ltb_lt. }
    congruence. }
  split; [assumption|].
  unfold numel; cbn [data]. rewrite length_map, length_seq.
  apply Z2Nat.id. clear E. induction Hpos; cbn; [lia|].
  unfold prodZ in IHHpos. lia.
Qed.

Lemma xavier_uniform__shape (v : torch_version) (t t' : tensor F) (draw : nat -> F) :
  xavier_uniform_ v t draw = Ok t' ->
  shape t' = shape t /\ numel t' = numel t.
Proof.
  unfold xavier_uniform_. destruct (shape t) as [|d0 [|d1 rest]]; try discriminate.
  destruct (receptive_field_size v d0 d1 rest); cbn [bind]; [|discriminate].
  step_if; [discriminate|]. intros [= <-]. cbn [shape data]. split; [reflexivity|].
  unfold numel; cbn [data]. now rewrite length_map, length_seq.
Qed.

Lemma xavier_uniform__ok3 (v : torch_version) (t : tensor F) (draw : nat -> F)
      (d0 d1 d2 : Z) :
  shape t = [d0; d1; d2] -> 0 < d0 -> 0 < d1 -> 0 < d2 ->
  exists t', xavier_uniform_ v t draw = Ok t'.
Proof.
  intros Hs H0 H1 H2. unfold xavier_uniform_, receptive_field_size. rewrite Hs.
  replace ((d0 =? 0) || (d1 =? 0))%bool with false
    by (symmetry; apply orb_false_iff; split; apply Z.eqb_neq; lia).
  assert (E : (d1 * prodZ [d2] + d0 * prodZ [d2] =? 0) = false)
    by (apply Z.eqb_neq; cbn; nia).
  destruct v; cbn [bind]; rewrite E; eauto.
Qed.

Lemma xavier_uniform__ok2 (v : torch_version) (t : tensor F) (draw : nat -> F)
      (d0 d1 : Z) :
  shape t = [d0; d1] -> 0 < d0 + d1 -> 0 <= d0 -> 0 <= d1 ->
  exists t', xavier_uniform_ v t draw = Ok t'.
Proof.
  intros Hs H0 H1 H2. unfold xavier_uniform_, receptive_field_size. rewrite Hs.
  cbn [bind].
  assert (E : (d1 * 1 + d0 * 1 =? 0) = false) by (apply Z.eqb_neq; lia).
  rewrite E; eauto.
Qed.

Lemma torch_Tensor_ok (dims : list Z) (mem : nat -> F) :
  Forall (fun d => 0 <= d) dims ->
  torch_Tensor dims mem
  = Ok (mkTensor dims (map mem (seq 0 (Z.to_nat (prodZ dims))))).
Proof.
  intros Hpos. unfold torch_Tensor.
  destruct (existsb _ dims) eqn:E; [|reflexivity].
  apply existsb_exists in E as (d & Hd & Hneg). zbool.
  rewrite Forall_forall in Hpos. specialize (Hpos d Hd). lia.
Qed.

Lemma RGCNLayer_init_ok (v : torch_version) (a : layer_args F) (env : init_env F) :
  0 < a_num_rels a -> 0 < a_in_feat a -> 0 < a_out_feat a -> a_bias a = false ->
  exists l, RGCNLayer_init v a env = Ok l.
Proof.
  intros HR Hin Hout Hb.
  pose proof (clamp_bases_range (a_num_bases a) (a_num_rels a) HR) as Hnb.
  unfold RGCNLayer_init. set (nb := clamp_bases _ _) in *.
  rewrite torch_Tensor_ok by (repeat constructor; lia).
  rewrite Hb. cbn [bind].
  match goal with |- context [xavier_uniform_ v ?t (draw_weight env)] =>
    destruct (xavier_uniform__ok3 v t (draw_weight env) nb (a_in_feat a)
                (a_out_feat a) eq_refl ltac:(lia) Hin Hout) as (w1 & Hw1)
  end.
  destruct (nb <? a_num_rels a) eqn:E.
  - rewrite torch_Tensor_ok by (repeat constructor; lia).
    cbn [bind]. rewrite Hw1. cbn [bind].
    match goal with |- context [xavier_uniform_ v ?t (draw_w_comp env)] =>
      destruct (xavier_uniform__ok2 v t (draw_w_comp env) (a_num_rels a) nb
                  eq_refl ltac:(lia) ltac:(lia) ltac:(lia)) as (c1 & Hc1)
    end.
    rewrite Hc1. cbn. eauto.
  - cbn [bind]. rewrite Hw1. cbn. eauto.
Qed.

Lemma RGCNLayer_init_inv (v : torch_version) (a : layer_args F) (env : init_env F)
      (l : RGCNLayer F) :
  RGCNLayer_init v a env = Ok l ->
  let nb := clamp_bases (a_num_bases a) (a_num_rels a) in
  in_feat l = a_in_feat a /\ out_feat l = a_out_feat a /\
  num_rels l = a_num_rels a /\ num_bases l = nb /\
  activation l = a_activation a /\ is_input_layer l = a_is_input_layer a /\
  (exists w0, torch_Tensor [nb; a_in_feat a; a_out_feat a] (mem_weight env) = Ok w0 /\
              xavier_uniform_ v w0 (draw_weight env) = Ok (weight l)) /\
  (if nb <? a_num_rels a
   then exists c0 c1, torch_Tensor [a_num_rels a; nb] (mem_w_comp env) = Ok c0 /\
                      xavier_uniform_ v c0 (draw_w_comp env) = Ok c1 /\
                      w_comp l = Some c1
   else w_comp l = None) /\
  (if a_bias a
   then exists b0, torch_Tensor [a_out_feat a] (mem_bias env) = Ok b0 /\
                   tensor_bool b0 = Ok false /\ bias l = BiasParam b0
   else bias l = BiasArg false).
Proof.
  unfold RGCNLayer_init. intros Hinit.
  apply bind_Ok in Hinit as (w0 & Hw0 & Hinit).
  apply bind_Ok in Hinit as (c0 & Hc0 & Hinit).
  apply bind_Ok in Hinit as (b0 & Hb0 & Hinit).
  apply bind_Ok in Hinit as (w1 & Hw1 & Hinit).
  apply bind_Ok in Hinit as (c1 & Hc1 & Hinit).
  apply bind_Ok in Hinit as (bt & Hbt & Hinit).
  apply bind_Ok in Hinit as (b1 & Hb1 & Hinit).
  injection Hinit as <-. cbn [in_feat out_feat num_rels num_bases activation
    is_input_layer weight w_comp bias].
  repeat (split; [reflexivity|]).
  split; [eauto|]. split.
  - destruct (_ <? a_num_rels a).
    + apply bind_Ok in Hc0 as (c & Hc & [= <-]).
      apply bind_Ok in Hc1 as (c' & Hc' & [= <-]). eauto.
    + injection Hc0 as <-. now injection Hc1 as <-.
  - destruct (a_bias a).
    + apply bind_Ok in Hb0 as (b & Hb & [= <-]). cbn in Hbt.
      destruct bt.
      * apply bind_Ok in Hb1 as (b' & Hb' & _). exfalso.
        apply torch_Tensor_shape in Hb as (Hs & _).
        unfold xavier_uniform_ in Hb'. rewrite Hs in Hb'. discriminate.
      * injection Hb1 as <-. eauto.
    + injection Hb0 as <-. cbn in Hbt. injection Hbt as <-. now injection Hb1 as <-.
Qed.

End InitFacts.

Section InitTheorems.

Context {F : Type} `{Scalar F}.

(** C8.  With [num_rels > 0], every constructed layer stores a number of
    bases in [(0, num_rels]]; a configured value outside that range is
    replaced by [num_rels], and then there is no coefficient matrix and the
    weight tensor holds one [in_feat x out_feat] matrix per relation.  With
    positive dimensions and no bias the constructor does return a layer. *)
Theorem RGCNLayer_init_num_bases
        (v : torch_version) (a : layer_args F) (env : init_env F) :
  0 < a_num_rels a ->
  (forall l, RGCNLayer_init v a env = Ok l ->
     num_rels l = a_num_rels a /\
     0 < num_bases l <= num_rels l /\
     (a_num_bases a <= 0 \/ a_num_bases a > a_num_rels a ->
        num_bases l = num_rels l /\ w_comp l = None /\
        shape (weight l) = [num_rels l; in_feat l; out_feat l] /\
        tensor_wf (weight l)))
  /\ (0 < a_in_feat a -> 0 < a_out_feat a -> a_bias a = false ->
      exists l, RGCNLayer_init v a env = Ok l).
Proof.
  intros HR. split.
  - intros l Hl. apply RGCNLayer_init_inv in Hl.
    cbv zeta in Hl.
    destruct Hl as (Hin & Hout & Hrel & Hnb & _ & _ & (w0 & Hw0 & Hw1) & Hc & _).
    pose proof (clamp_bases_range (a_num_bases a) (a_num_rels a) HR) as Hrange.
    rewrite Hrel, Hnb. split; [reflexivity|]. split; [assumption|].
    intros Hout'. pose proof (clamp_bases_outside _ _ Hout') as Heq.
    rewrite Heq in *. split; [reflexivity|].
    rewrite Z.ltb_irrefl in Hc. split; [assumption|].
    apply torch_Tensor_shape in Hw0 as (Hs0 & Hpos & Hn0).
    apply xavier_uniform__shape in Hw1 as (Hs1 & Hn1).
    rewrite Hin, Hout. split; [congruence|].
    split; [rewrite Hs1, Hs0; assumption|]. rewrite Hn1, Hs1, Hs0. assumption.
  - intros. now apply RGCNLayer_init_ok.
Qed.

(** C7, as the code has it.  The constructor checks no dimension itself;
    with [out_feat <= 0], [in_feat < 0] or [num_rels < 0] it still raises,
    from the tensor allocation (negative dimension) or from the
    initializer (division by a zero fan sum), whichever release of the
    framework runs it. *)
Theorem RGCNLayer_init_rejects
        (v : torch_version) (a : layer_args F) (env : init_env F) :
  a_out_feat a <= 0 \/ a_in_feat a < 0 \/ a_num_rels a < 0 ->
  raises (RGCNLayer_init v a env).
Proof.
  intros Hbad.
  destruct (RGCNLayer_init v a env) as [l|e] eqn:Hl; [|now exists e].
  exfalso. apply RGCNLayer_init_inv in Hl. cbv zeta in Hl.
  destruct Hl as (_ & _ & _ & _ & _ & _ & (w0 & Hw0 & Hw1) & _).
  apply torch_Tensor_shape in Hw0 as (Hs0 & Hpos & _).
  inversion Hpos as [|? ? Hnb Hpos1]; subst.
  inversion Hpos1 as [|? ? Hi Hpos2]; subst.
  inversion Hpos2 as [|? ? Ho _]; subst.
  assert (Hr : 0 <= a_num_rels a).
  { destruct (Z.lt_ge_cases (a_num_rels a) 0) as [Hneg|]; [|assumption].
    rewrite (clamp_bases_neg _ _ Hneg) in Hnb. lia. }
  assert (Ho0 : a_out_feat a = 0) by lia.
  unfold xavier_uniform_ in Hw1. rewrite Hs0 in Hw1.
  destruct (receptive_field_size v _ _ _) as [rf|] eqn:Erf; cbn [bind] in Hw1;
    [|discriminate].
  assert (rf = 0).
  { unfold receptive_field_size in Erf. rewrite Ho0 in Erf.
    destruct v; [destruct (_ || _)%bool; [discriminate|]|];
      cbn in Erf; injection Erf; lia. }
  subst rf. rewrite !Z.mul_0_r in Hw1. discriminate.
Qed.

(** C9.  A layer asked to carry a bias is not constructed: after the bias
    vector is allocated, [if self.bias:] asks for the truth value of a
    tensor, which raises unless it has exactly one element, and a
    one-element bias with a non-zero entry reaches the initializer, which
    rejects a one-dimensional tensor. *)
Theorem RGCNLayer_init_bias_raises
        (v : torch_version) (a : layer_args F) (env : init_env F) :
  a_bias a = true ->
  a_out_feat a <> 1 \/ Fnonzero (mem_bias env 0%nat) = true ->
  raises (RGCNLayer_init v a env).
Proof.
  intros Hb Hcase.
  destruct (RGCNLayer_init v a env) as [l|e] eqn:Hl; [|now exists e].
  exfalso. apply RGCNLayer_init_inv in Hl. cbv zeta in Hl.
  destruct Hl as (_ & _ & _ & _ & _ & _ & _ & _ & Hbias).
  rewrite Hb in Hbias. destruct Hbias as (b0 & Hb0 & Hbool & _).
  pose proof (torch_Tensor_shape _ _ _ Hb0) as (_ & Hpos & Hn).
  unfold torch_Tensor in Hb0. step_if; [discriminate|]. injection Hb0 as <-.
  unfold tensor_bool in Hbool. cbn [data] in Hbool, Hn.
  unfold numel in Hn. cbn [data prodZ fold_right] in Hn.
  destruct (map _ _) as [|x [|y r]] eqn:Em; try discriminate.
  cbn [length] in Hn. destruct Hcase as [Hne|Hnz]; [lia|].
  assert (Hout : a_out_feat a = 1) by lia.
  rewrite Hout in Em. cbn in Em. injection Em as <-. congruence.
Qed.

(** The only layers built with [bias=True] have a one-element bias that is
    zero, and their update step never adds it. *)
Lemma RGCNLayer_bias_never_added
      (v : torch_version) (a : layer_args F) (env : init_env F) (l : RGCNLayer F)
      (h : ftensor F) :
  a_bias a = true -> RGCNLayer_init v a env = Ok l ->
  apply_func l h = match activation l with
                   | Some act => t <- act (ft h) ;; Ok (mkFT (ft_dtype h) t)
                   | None => Ok h
                   end.
Proof.
  intros Hb Hl. apply RGCNLayer_init_inv in Hl. cbv zeta in Hl.
  destruct Hl as (_ & _ & _ & _ & _ & _ & _ & _ & Hbias).
  rewrite Hb in Hbias. destruct Hbias as (b0 & _ & Hbool & Hbl).
  unfold apply_func. rewrite Hbl. cbn [bias_truth]. now rewrite Hbool.
Qed.

End InitTheorems.

(** C7, a configuration the claim wants rejected and the constructor
    accepts: [RGCNLayer(3, 2, 0)] is built, with an empty weight tensor,
    where the initializer computes the receptive field from the shape. *)
Lemma RGCNLayer_init_accepts_no_rels :
  a_num_rels ex_args_no_rels <= 0 /\
  RGCNLayer_init Current ex_args_no_rels ex_env
  = Ok (mkLayer 3 2 0 0 (BiasArg false) None false (mkTensor [0; 3; 2] []) None) /\
  ~ raises (RGCNLayer_init Current ex_args_no_rels ex_env).
Proof.
  split; [cbn; lia|]. split; [reflexivity|].
  intros [e He]. discriminate He.
Qed.

(** The same configuration under the older initializer, which indexes the
    empty first dimension. *)
Example RGCNLayer_init_no_rels_legacy :
  RGCNLayer_init Legacy ex_args_no_rels ex_env = Raise IndexError.
Proof. reflexivity. Qed.

Lemma RGCNLayer_init_rejects_witness :
  (a_out_feat ex_args_no_out <= 0 \/ a_in_feat ex_args_no_out < 0
   \/ a_num_rels ex_args_no_out < 0) /\
  raises (RGCNLayer_init Current ex_args_no_out ex_env).
Proof.
  split; [left; cbn; lia|].
  apply (RGCNLayer_init_rejects Current ex_args_no_out ex_env).
  left; cbn; lia.
Defined.

Lemma RGCNLayer_init_num_bases_witness :
  0 < a_num_rels ex_args_direct /\
  exists l, RGCNLayer_init Current ex_args_direct ex_env = Ok l /\
            num_bases l = 2 /\ w_comp l = None.
Proof.
  split; [cbn; lia|].
  destruct (RGCNLayer_init_num_bases Current ex_args_direct ex_env
              ltac:(cbn; lia)) as [Hall Hex].
  destruct (Hex ltac:(cbn; lia) ltac:(cbn; lia) eq_refl) as [l Hl].
  exists l. split; [exact Hl|].
  destruct (Hall l Hl) as (Hrel & _ & Hout).
  destruct (Hout ltac:(left; cbn; lia)) as (Hnb & Hc & _).
  split; [|exact Hc]. rewrite Hnb. exact Hrel.
Defined.

Lemma RGCNLayer_init_bias_raises_witness :
  a_bias ex_args_bias = true /\
  raises (RGCNLayer_init Current ex_args_bias ex_env).
Proof.
  split; [reflexivity|].
  apply (RGCNLayer_init_bias_raises Current ex_args_bias ex_env eq_refl).
  left. cbn. lia.
Defined.

(** What the constructor does on [RGCNLayer(2, 2, 1, bias=True)]. *)
Example RGCNLayer_init_bias_example :
  RGCNLayer_init Current ex_args_bias ex_env = Raise RuntimeError /\
  RGCNLayer_init Legacy ex_args_bias ex_env = Raise RuntimeError.
Proof. split; reflexivity. Qed.

(** * Facts about lists and batches *)

Lemma flat_map_shift {B : Type} (H : nat -> list B) (a n : nat) :
  flat_map H (seq (S a) n) = flat_map (fun i => H (S i)) (seq a n).
Proof.
  revert a. induction n as [|n IH]; intros a; cbn [seq flat_map]; [reflexivity|].
  now rewrite IH.
Qed.

(** Running through the positions of a list is running through the list. *)
Lemma flat_map_seq_nth {A B : Type} (d : A) (H : nat -> list B) (G : A -> list B)
      (l : list A) :
  (forall i, (i < length l)%nat -> H i = G (nth i l d)) ->
  flat_map H (seq 0 (length l)) = flat_map G l.
Proof.
  revert H. induction l as [|a l IH]; intros H HG; [reflexivity|].
  cbn [length seq flat_map]. rewrite (HG O) by (cbn; lia). cbn [nth]. f_equal.
  rewrite flat_map_shift. apply IH. intros i Hi.
  rewrite (HG (S i)) by (cbn; lia). reflexivity.
Qed.

Lemma map_seq_nth {A B : Type} (d : A) (H : nat -> B) (G : A -> B) (l : list A) :
  (forall i, (i < length l)%nat -> H i = G (nth i l d)) ->
  map H (seq 0 (length l)) = map G l.
Proof.
  revert H. induction l as [|a l IH]; intros H HG; [reflexivity|].
  cbn [length seq map]. rewrite (HG O) by (cbn; lia). cbn [nth]. f_equal.
  rewrite <- seq_shift, map_map. apply IH. intros i Hi.
  rewrite (HG (S i)) by (cbn; lia). reflexivity.
Qed.

Lemma map_flat_map {A B C : Type} (f : B -> C) (g : A -> list B) (l : list A) :
  map f (flat_map g l) = flat_map (fun x => map f (g x)) l.
Proof.
  induction l as [|a l IH]; cbn [flat_map map]; [reflexivity|].
  now rewrite map_app, IH.
Qed.

Lemma flat_map_map {A B C : Type} (f : A -> B) (g : B -> list C) (l : list A) :
  flat_map g (map f l) = flat_map (fun x => g (f x)) l.
Proof.
  induction l as [|a l IH]; cbn [flat_map map]; [reflexivity|]. now rewrite IH.
Qed.

Lemma combine_map_map {A B C : Type} (f : A -> B) (g : A -> C) (l : list A) :
  combine (map f l) (map g l) = map (fun x => (f x, g x)) l.
Proof. induction l as [|a l IH]; cbn; [reflexivity|]. now rewrite IH. Qed.

Lemma slice_flat_map_const {A B : Type} (f : A -> list B) (l : list A)
      (c i : nat) (d : A) :
  (forall x, length (f x) = c) -> (i < length l)%nat ->
  slice (i * c) c (flat_map f l) = f (nth i l d).
Proof.
  intros Hc. revert i. induction l as [|a l IH]; intros i Hi; [cbn in Hi; lia|].
  cbn [flat_map]. unfold slice in *. destruct i as [|i].
  - cbn [Nat.mul skipn nth]. rewrite firstn_app, Hc, Nat.sub_diag.
    cbn [firstn]. rewrite app_nil_r. rewrite <- (Hc a) at 1. apply firstn_all.
  - cbn [nth]. replace (S i * c)%nat with (length (f a) + i * c)%nat
      by (rewrite Hc; cbn; lia).
    rewrite skipn_app, Nat.add_comm, Nat.add_sub.
    rewrite (skipn_all2 (f a)) by lia. cbn [app].
    apply IH. cbn in Hi. lia.
Qed.

Lemma map_nth_seq {B : Type} (d : B) (l : list B) :
  map (fun j => nth j l d) (seq 0 (length l)) = l.
Proof.
  rewrite (map_seq_nth d (fun j => nth j l d) (fun x => x) l);
    [apply map_id|reflexivity].
Qed.

Lemma flat_map_singleton {A B : Type} (f : A -> B) (l : list A) :
  flat_map (fun x => [f x]) l = map f l.
Proof. induction l as [|a l IH]; cbn; [reflexivity|]. now rewrite IH. Qed.

Lemma flat_map_repeat {A B : Type} (x : B) (w : nat) (l : list A) :
  flat_map (fun _ => repeat x w) l = repeat x (length l * w).
Proof.
  induction l as [|a l IH]; cbn [flat_map length Nat.mul]; [reflexivity|].
  now rewrite IH, repeat_app.
Qed.

(** ** Integer types *)

Lemma wrap_small (d : int_dtype) (z : Z) :
  - 2 ^ (int_bits d - 1) <= z < 2 ^ (int_bits d - 1) -> wrap d z = z.
Proof.
  intros Hz. unfold wrap.
  assert (Hpow : 2 ^ int_bits d = 2 * 2 ^ (int_bits d - 1)) by now destruct d.
  rewrite Hpow, Z.mod_small; lia.
Qed.

Lemma int_bits_le_64 (d : int_dtype) :
  0 < 2 ^ (int_bits d - 1) <= 2 ^ (int_bits Int64 - 1).
Proof. destruct d; cbn; lia. Qed.

Section BatchFacts.

Context {F : Type} `{Scalar F}.

(** ** Indexing by an index tensor *)

Lemma tensor_index_in_range (t : tensor F) (d0 : Z) (rest : list Z) (i : Z) :
  shape t = d0 :: rest -> - d0 <= i < d0 ->
  tensor_index t i
  = Ok (mkTensor rest
          (slice (Z.to_nat (if i <? 0 then i + d0 else i) * Z.to_nat (prodZ rest))
                 (Z.to_nat (prodZ rest)) (data t))).
Proof.
  intros Hs Hi. unfold tensor_index. rewrite Hs.
  replace ((- d0 <=? i) && (i <? d0))%bool with true; [reflexivity|].
  symmetry. apply andb_true_iff. split; [apply Z.leb_le|apply Z.ltb_lt]; lia.
Qed.

Lemma tensor_index_out_of_range (t : tensor F) (d0 : Z) (rest : list Z) (i : Z) :
  shape t = d0 :: rest -> ~ (- d0 <= i < d0) ->
  tensor_index t i = Raise IndexError.
Proof.
  intros Hs Hi. unfold tensor_index. rewrite Hs.
  destruct ((- d0 <=? i) && (i <? d0))%bool eqn:E; [|reflexivity].
  zbool. lia.
Qed.

Lemma tensor_index_exn (t : tensor F) (i : Z) (e : exn) :
  tensor_index t i = Raise e -> e = IndexError.
Proof.
  unfold tensor_index. destruct (shape t) as [|d0 rest]; [congruence|].
  destruct (_ && _)%bool; congruence.
Qed.

Lemma mapM_map_Ok {A B : Type} (f : A -> result B) (g : A -> B) (l : list A) :
  (forall x, In x l -> f x = Ok (g x)) -> mapM f l = Ok (map g l).
Proof.
  induction l as [|a l IH]; intros Hf; [reflexivity|].
  cbn [mapM map]. rewrite (Hf a) by now left. cbn [bind].
  rewrite IH by (intros; apply Hf; now right). reflexivity.
Qed.

Lemma mapM_raises_with {A B : Type} (f : A -> result B) (e0 : exn) (l : list A)
      (x : A) :
  (forall y e, f y = Raise e -> e = e0) ->
  In x l -> f x = Raise e0 -> mapM f l = Raise e0.
Proof.
  intros Hexn. induction l as [|y l IH]; intros Hx Hr; [easy|]. cbn [mapM].
  destruct (f y) as [b|e] eqn:Hy.
  - cbn [bind]. destruct Hx as [->|Hx]; [congruence|]. now rewrite IH.
  - cbn [bind]. now rewrite (Hexn y e Hy).
Qed.

Lemma index_rows_in_range (t : tensor F) (d0 : Z) (rest : list Z) (index : list Z) :
  shape t = d0 :: rest ->
  (forall i, In i index -> - d0 <= i < d0) ->
  index_rows t index
  = Ok (mkTensor (Z.of_nat (length index) :: rest)
          (flat_map (fun i =>
             slice (Z.to_nat (if i <? 0 then i + d0 else i) * Z.to_nat (prodZ rest))
                   (Z.to_nat (prodZ rest)) (data t))
             index)).
Proof.
  intros Hs Hin. unfold index_rows. rewrite Hs.
  rewrite (mapM_map_Ok (tensor_index t)
             (fun i => mkTensor rest
                (slice (Z.to_nat (if i <? 0 then i + d0 else i) * Z.to_nat (prodZ rest))
                       (Z.to_nat (prodZ rest)) (data t)))).
  - cbn [bind]. now rewrite flat_map_map.
  - intros i Hi. apply (tensor_index_in_range t d0 rest); [assumption|now apply Hin].
Qed.

Lemma index_rows_out_of_range (t : tensor F) (d0 : Z) (rest : list Z)
      (index : list Z) (i : Z) :
  shape t = d0 :: rest -> In i index -> ~ (- d0 <= i < d0) ->
  index_rows t index = Raise IndexError.
Proof.
  intros Hs Hi Hout. unfold index_rows. rewrite Hs.
  rewrite (mapM_raises_with (tensor_index t) IndexError index i);
    [reflexivity| |assumption|].
  - intros y e. apply tensor_index_exn.
  - now apply (tensor_index_out_of_range t d0 rest).
Qed.

(** ** Batched products *)

Lemma length_mat_mul (m k p : nat) (A B : list F) :
  length (mat_mul m k p A B) = (m * p)%nat.
Proof.
  unfold mat_mul. rewrite (length_flat_map_const _ _ p).
  - now rewrite length_seq.
  - intros r. now rewrite length_map, length_seq.
Qed.

(** A batch of row vectors times a batch of matrices, row by row. *)
Lemma bmm_rows {A : Type} (d : A) (es : list A) (ha wb : A -> list F) (I O : Z) :
  0 <= I -> 0 <= O ->
  (forall e, length (ha e) = Z.to_nat I) ->
  (forall e, length (wb e) = (Z.to_nat I * Z.to_nat O)%nat) ->
  bmm (mkTensor [Z.of_nat (length es); 1; I] (flat_map ha es))
      (mkTensor [Z.of_nat (length es); I; O] (flat_map wb es))
  = Ok (mkTensor [Z.of_nat (length es); 1; O]
          (flat_map (fun e => mat_mul 1 (Z.to_nat I) (Z.to_nat O) (ha e) (wb e)) es)).
Proof.
  intros HI HO Hha Hwb. unfold bmm. cbn [shape data].
  rewrite !Z.eqb_refl. cbn [andb]. do 2 f_equal.
  rewrite Nat2Z.id. change (Z.to_nat 1) with 1%nat.
  apply (flat_map_seq_nth d). intros i Hi.
  rewrite Nat.mul_1_l.
  rewrite (slice_flat_map_const ha es _ i d Hha Hi).
  now rewrite (slice_flat_map_const wb es _ i d Hwb Hi).
Qed.

(** ** Broadcasting *)

Lemma length_multi_indices (s : list nat) :
  length (multi_indices s) = prod_nat s.
Proof.
  induction s as [|d s IH]; [reflexivity|]. cbn [multi_indices prod_nat fold_right].
  rewrite (length_flat_map_const _ _ (prod_nat s)).
  - now rewrite length_seq.
  - intros i. now rewrite length_map.
Qed.

(** The result of a broadcasting operation has as many entries as its
    shape says. *)
Lemma broadcast_length (f : F -> F -> F) (a b t : tensor F) :
  broadcast f a b = Ok t ->
  length (data t) = prod_nat (map Z.to_nat (shape t)).
Proof.
  unfold broadcast. destruct (broadcast_shape (shape a) (shape b)) as [s|];
    [|discriminate].
  intros [= <-]. cbn [data shape]. now rewrite length_map, length_multi_indices.
Qed.

(** A batch of rows times a column of one scalar per row, each row scaled
    by its own scalar. *)
Lemma broadcast_column {A : Type} (d : A) (f : F -> F -> F) (es : list A)
      (row : A -> list F) (c : A -> F) (k : Z) :
  0 <= k ->
  (forall e, length (row e) = Z.to_nat k) ->
  broadcast f (mkTensor [Z.of_nat (length es); k] (flat_map row es))
              (mkTensor [Z.of_nat (length es); 1] (map c es))
  = Ok (mkTensor [Z.of_nat (length es); k]
          (flat_map (fun e => map (fun x => f x (c e)) (row e)) es)).
Proof.
  intros Hk Hrow. unfold broadcast, broadcast_shape. cbn [shape data rev app].
  cbn [broadcast_rev]. rewrite Z.eqb_refl.
  assert (Hs : (if k =? 1 then Some [k; Z.of_nat (length es)]
                else if k =? 1 then Some [1; Z.of_nat (length es)]
                     else if 1 =? 1 then Some [k; Z.of_nat (length es)] else None)
               = Some [k; Z.of_nat (length es)])
    by (destruct (k =? 1); reflexivity).
  rewrite Hs. cbn [rev app map]. do 2 f_equal. rewrite Nat2Z.id.
  change (Z.to_nat 1) with 1%nat.
  cbn [multi_indices]. rewrite map_flat_map.
  apply (flat_map_seq_nth d). intros i Hi.
  rewrite map_map. cbn [map]. rewrite flat_map_singleton, map_map.
  transitivity (map (fun x => f x (c (nth i es d)))
                    (map (fun j => nth j (row (nth i es d)) Fzero)
                         (seq 0 (Z.to_nat k)))).
  2:{ rewrite <- (Hrow (nth i es d)), map_nth_seq. reflexivity. }
  rewrite map_map. apply map_ext_in. intros j Hj. apply in_seq in Hj.
  unfold boffset. cbn [length Nat.sub skipn combine fold_left fst snd].
  assert (Hi' : (if (length es =? 1)%nat then 0%nat else i) = i).
  { destruct (length es =? 1)%nat eqn:E; [|reflexivity].
    apply Nat.eqb_eq in E. lia. }
  assert (Hj' : (if (Z.to_nat k =? 1)%nat then 0%nat else j) = j).
  { destruct (Z.to_nat k =? 1)%nat eqn:E; [|reflexivity].
    apply Nat.eqb_eq in E. lia. }
  rewrite Hi', Hj'. cbn [Nat.eqb Nat.mul Nat.add].
  f_equal.
  - unfold getF. rewrite Nat.add_comm.
    replace (j + i * Z.to_nat k)%nat with (i * Z.to_nat k + j)%nat by lia.
    apply (nth_flat_map_const row es (Z.to_nat k) i j Fzero d Hrow Hi). lia.
  - unfold getF. replace (i * 1 + 0)%nat with i by lia.
    rewrite (nth_indep _ Fzero (c d)) by now rewrite length_map.
    apply map_nth.
Qed.

(** A single row that lost its batch dimension, times the [1 x 1] column:
    broadcasting restores the batch dimension. *)
Lemma broadcast_vector_column (f : F -> F -> F) (row : list F) (c : F) (k : Z) :
  0 <= k -> k <> 1 -> length row = Z.to_nat k ->
  broadcast f (mkTensor [k] row) (mkTensor [1; 1] [c])
  = Ok (mkTensor [1; k] (map (fun x => f x c) row)).
Proof.
  intros Hk Hk1 Hrow. unfold broadcast, broadcast_shape. cbn [shape data rev app].
  cbn [broadcast_rev].
  replace (k =? 1) with false by (symmetry; apply Z.eqb_neq; lia).
  cbn [Z.eqb Pos.eqb rev app map]. do 2 f_equal.
  change (Z.to_nat 1) with 1%nat. cbn [multi_indices seq flat_map].
  rewrite app_nil_r, map_map. cbn [map]. rewrite flat_map_singleton, map_map.
  transitivity (map (fun x => f x c)
                    (map (fun j => nth j row Fzero) (seq 0 (Z.to_nat k)))).
  2:{ rewrite <- Hrow, map_nth_seq. reflexivity. }
  rewrite map_map. apply map_ext_in. intros j Hj. apply in_seq in Hj.
  unfold boffset. cbn [length Nat.sub skipn combine fold_left fst snd Nat.eqb].
  replace (Z.to_nat k =? 1)%nat with false
    by (symmetry; apply Nat.eqb_neq; lia).
  reflexivity.
Qed.

(** Rows that have the right length on the members of a list may be
    assumed to have it everywhere. *)
Lemma rows_everywhere {A : Type} (k : nat) (es : list A) (row : A -> list F) :
  (forall e, In e es -> length (row e) = k) ->
  exists row', (forall e, length (row' e) = k)
               /\ (forall e, In e es -> row' e = row e).
Proof.
  intros Hrow. exists (fun e => firstn k (row e ++ repeat Fzero k)). split.
  - intros e. rewrite length_firstn, length_app, repeat_length. lia.
  - intros e He. rewrite firstn_app, (Hrow e He), Nat.sub_diag. cbn [firstn].
    rewrite app_nil_r. rewrite <- (Hrow e He). apply firstn_all.
Qed.

Lemma flat_map_ext_in {A B : Type} (f g : A -> list B) (l : list A) :
  (forall x, In x l -> f x = g x) -> flat_map f l = flat_map g l.
Proof.
  induction l as [|a l IH]; intros Hfg; [reflexivity|]. cbn [flat_map].
  rewrite (Hfg a) by now left. f_equal. apply IH. intros; apply Hfg; now right.
Qed.

Lemma broadcast_column_in {A : Type} (d : A) (f : F -> F -> F) (es : list A)
      (row : A -> list F) (c : A -> F) (k : Z) :
  0 <= k ->
  (forall e, In e es -> length (row e) = Z.to_nat k) ->
  broadcast f (mkTensor [Z.of_nat (length es); k] (flat_map row es))
              (mkTensor [Z.of_nat (length es); 1] (map c es))
  = Ok (mkTensor [Z.of_nat (length es); k]
          (flat_map (fun e => map (fun x => f x (c e)) (row e)) es)).
Proof.
  intros Hk Hrow.
  destruct (rows_everywhere _ es row Hrow) as (row' & Hlen & Heq).
  rewrite (flat_map_ext_in row row') by (intros; symmetry; now apply Heq).
  rewrite (broadcast_column d f es row' c k Hk Hlen). do 2 f_equal.
  apply flat_map_ext_in. intros e He. now rewrite Heq.
Qed.

Lemma bmm_rows_in {A : Type} (d : A) (es : list A) (ha wb : A -> list F) (I O : Z) :
  0 <= I -> 0 <= O ->
  (forall e, In e es -> length (ha e) = Z.to_nat I) ->
  (forall e, In e es -> length (wb e) = (Z.to_nat I * Z.to_nat O)%nat) ->
  bmm (mkTensor [Z.of_nat (length es); 1; I] (flat_map ha es))
      (mkTensor [Z.of_nat (length es); I; O] (flat_map wb es))
  = Ok (mkTensor [Z.of_nat (length es); 1; O]
          (flat_map (fun e => mat_mul 1 (Z.to_nat I) (Z.to_nat O) (ha e) (wb e)) es)).
Proof.
  intros HI HO Hha Hwb.
  destruct (rows_everywhere _ es ha Hha) as (ha' & Hlena & Heqa).
  destruct (rows_everywhere _ es wb Hwb) as (wb' & Hlenb & Heqb).
  rewrite (flat_map_ext_in ha ha') by (intros; symmetry; now apply Heqa).
  rewrite (flat_map_ext_in wb wb') by (intros; symmetry; now apply Heqb).
  rewrite (bmm_rows d es ha' wb' I O HI HO Hlena Hlenb). do 2 f_equal.
  apply flat_map_ext_in. intros e He. now rewrite Heqa, Heqb.
Qed.

Lemma rows_of_flat_map {A : Type} (d : A) (es : list A) (row : A -> list F) (k : nat) :
  (forall e, In e es -> length (row e) = k) ->
  rows_of k (length es) (flat_map row es) = map row es.
Proof.
  intros Hrow.
  destruct (rows_everywhere _ es row Hrow) as (row' & Hlen & Heq).
  rewrite (flat_map_ext_in row row') by (intros; symmetry; now apply Heq).
  rewrite <- (map_ext_in row' row) by assumption.
  unfold rows_of. apply (map_seq_nth d). intros i Hi.
  now apply slice_flat_map_const.
Qed.

End BatchFacts.

(** * The forward pass *)

Section TensorFacts.

Context {F : Type} `{Scalar F}.

Lemma view_plain (t : tensor F) (dims : list Z) :
  Forall (fun d => 0 <= d) dims -> numel t = prodZ dims ->
  view t dims = Ok (mkTensor dims (data t)).
Proof.
  intros Hpos Hn. unfold view.
  assert (Hex : existsb (fun d => d <? -1) dims = false).
  { destruct (existsb _ dims) eqn:E; [|reflexivity].
    apply existsb_exists in E as (d & Hd & Hneg). zbool.
    rewrite Forall_forall in Hpos. specialize (Hpos d Hd). lia. }
  assert (Hnone : filter (fun d => d =? -1) dims = []).
  { clear - Hpos. induction Hpos as [|d dims Hd _ IH]; cbn; [reflexivity|].
    destruct (d =? -1) eqn:E; zbool; [lia|assumption]. }
  assert (Hall : filter (fun d => negb (d =? -1)) dims = dims).
  { clear - Hpos. induction Hpos as [|d dims Hd _ IH]; cbn; [reflexivity|].
    destruct (d =? -1) eqn:E; zbool; [lia|]. cbn. now rewrite IH. }
  rewrite Hex, Hnone, Hall. cbn [length]. now rewrite Hn, Z.eqb_refl.
Qed.

Lemma view_rows (t : tensor F) (k o : Z) :
  0 < o -> numel t = k * o ->
  view t [-1; o] = Ok (mkTensor [k; o] (data t)).
Proof.
  intros Ho Hn. unfold view. cbn [existsb filter].
  replace (-1 <? -1) with false by reflexivity.
  replace (o <? -1) with false by (symmetry; apply Z.ltb_ge; lia).
  replace (-1 =? -1) with true by reflexivity.
  replace (o =? -1) with false by (symmetry; apply Z.eqb_neq; lia).
  cbn [negb orb length prodZ fold_right map].
  rewrite Z.mul_1_r, Hn, Z.mod_mul, Z.div_mul by lia.
  replace (0 <? o) with true by (symmetry; apply Z.ltb_lt; lia).
  replace (-1 =? -1) with true by reflexivity.
  replace (o =? -1) with false by (symmetry; apply Z.eqb_neq; lia).
  reflexivity.
Qed.

Lemma matmul_shape (a b : tensor F) (m k n p : Z) :
  shape a = [m; k] -> shape b = [n; k; p] -> 0 <= m -> 0 <= n -> 0 <= p ->
  exists t, matmul a b = Ok t /\ shape t = [n; m; p] /\ numel t = n * m * p.
Proof.
  intros Ha Hb Hm Hn Hp. unfold matmul. rewrite Ha, Hb, Z.eqb_refl.
  eexists. split; [reflexivity|]. cbn [shape]. split; [reflexivity|].
  unfold numel. cbn [data].
  rewrite (length_flat_map_const _ _ (Z.to_nat m * Z.to_nat p)%nat).
  - rewrite length_seq, !Nat2Z.inj_mul, !Z2Nat.id by lia. lia.
  - intros i. rewrite (length_flat_map_const _ _ (Z.to_nat p)).
    + now rewrite length_seq.
    + intros r. now rewrite length_map, length_seq.
Qed.

(** On a constructed layer the forward pass obtains a weight tensor of
    shape [num_rels x in_feat x out_feat], on either path. *)
Lemma forward_weight_constructed
      (v : torch_version) (a : layer_args F) (env : init_env F) (l : RGCNLayer F) :
  RGCNLayer_init v a env = Ok l ->
  0 < out_feat l /\
  exists w, forward_weight l = Ok w /\
            shape w = [num_rels l; in_feat l; out_feat l] /\ tensor_wf w.
Proof.
  intros Hl. apply RGCNLayer_init_inv in Hl. cbv zeta in Hl.
  destruct Hl as (Hin & Hout & Hrel & Hnb & _ & _ & (w0 & Hw0 & Hw1) & Hc & _).
  rewrite <- Hin, <- Hout, <- Hrel in *. clear Hin Hout Hrel.
  rewrite <- Hnb in Hw0, Hc.
  pose proof (torch_Tensor_shape _ _ _ Hw0) as (Hs0 & Hpos & Hn0).
  pose proof (xavier_uniform__shape _ _ _ _ Hw1) as (Hs1 & Hn1).
  rewrite Hs0 in Hs1. rewrite Hn0 in Hn1. cbn [prodZ fold_right] in Hn1.
  inversion Hpos as [|? ? Hnb0 Hpos1]; subst.
  inversion Hpos1 as [|? ? Hi Hpos2]; subst.
  inversion Hpos2 as [|? ? Ho _]; subst.
  assert (Hopos : 0 < out_feat l).
  { unfold xavier_uniform_ in Hw1. rewrite Hs0 in Hw1.
    unfold receptive_field_size in Hw1.
    destruct (Z.eq_dec (out_feat l) 0) as [E|]; [|lia]. exfalso.
    rewrite E in Hw1. cbn [prodZ fold_right] in Hw1.
    destruct v; [destruct (_ || _)%bool; [discriminate|]|];
      cbn [bind] in Hw1; rewrite !Z.mul_0_r in Hw1; discriminate. }
  split; [assumption|]. unfold forward_weight.
  destruct (num_bases l <? num_rels l) eqn:E.
  - destruct Hc as (c0 & c1 & Hc0 & Hc1 & Hwc). zbool.
    pose proof (torch_Tensor_shape _ _ _ Hc0) as (Hsc0 & _ & _).
    pose proof (xavier_uniform__shape _ _ _ _ Hc1) as (Hsc1 & _).
    rewrite Hsc0 in Hsc1.
    rewrite (view_plain (weight l) [in_feat l; num_bases l; out_feat l])
      by (repeat constructor; try assumption; rewrite Hn1; cbn; lia).
    cbn [bind]. rewrite Hwc.
    destruct (matmul_shape c1 (mkTensor [in_feat l; num_bases l; out_feat l]
                                        (data (weight l)))
                (num_rels l) (num_bases l) (in_feat l) (out_feat l)
                Hsc1 eq_refl ltac:(lia) Hi Ho) as (w2 & Hw2 & Hs2 & Hn2).
    cbn [bind]. rewrite Hw2. cbn [bind].
    rewrite (view_plain w2 [num_rels l; in_feat l; out_feat l])
      by (repeat constructor; try lia; rewrite Hn2; cbn; lia).
    eexists. split; [reflexivity|]. cbn [shape]. split; [reflexivity|].
    split; cbn [shape data]; [repeat constructor; lia|].
    unfold numel in *. cbn [data]. rewrite Hn2. cbn. lia.
  - zbool. assert (Hr : num_bases l = num_rels l).
    { destruct (Z.lt_ge_cases (num_rels l) 0) as [Hneg|Hge].
      - rewrite (clamp_bases_neg _ _ Hneg) in Hnb. lia.
      - pose proof (clamp_bases_le (a_num_bases a) _ Hge). lia. }
    exists (weight l). split; [reflexivity|]. rewrite <- Hr.
    split; [assumption|]. split; [rewrite Hs1; assumption|].
    rewrite Hs1, Hn1. cbn. lia.
Qed.

End TensorFacts.

Section Commutative.

Context {F : Type} `{Scalar F}.

Hypothesis Fadd_comm : forall x y : F, Fadd x y = Fadd y x.
Hypothesis Fadd_assoc : forall x y z : F, Fadd x (Fadd y z) = Fadd (Fadd x y) z.

Lemma vadd_swap (a x y : list F) :
  vadd (vadd a x) y = vadd (vadd a y) x.
Proof.
  revert x y. induction a as [|a0 a IH]; intros [|x0 x] [|y0 y]; cbn; try reflexivity.
  f_equal; [|apply IH].
  rewrite <- !Fadd_assoc. f_equal. apply Fadd_comm.
Qed.

Lemma fold_vadd_Permutation (ms ms' : list (list F)) :
  Permutation ms ms' ->
  forall acc, fold_left vadd ms acc = fold_left vadd ms' acc.
Proof.
  induction 1 as [|x l l' Hp IH|x y l|l l' l'' Hp1 IH1 Hp2 IH2]; intros acc; cbn.
  - reflexivity.
  - apply IH.
  - now rewrite vadd_swap.
  - now rewrite IH1.
Qed.

Lemma fn_sum_Permutation (width : nat) (mb mb' : list (Z * list F)) (v : Z) :
  Permutation mb mb' -> fn_sum width mb v = fn_sum width mb' v.
Proof.
  intros Hp. unfold fn_sum. apply fold_vadd_Permutation.
  apply Permutation_map. now apply filter_Permutation.
Qed.

End Commutative.

Section OneHot.

Context {F : Type} `{Scalar F}.

Hypothesis Fmul_0_l : forall x : F, Fmul Fzero x = Fzero.
Hypothesis Fmul_1_l : forall x : F, Fmul Fone x = x.
Hypothesis Fadd_0_l : forall x : F, Fadd Fzero x = x.
Hypothesis Fadd_0_r : forall x : F, Fadd x Fzero = x.

(** Terms with a zero coefficient leave the accumulator alone. *)
Lemma fold_dot_zero (a b : nat -> F) (js : list nat) (acc : F) :
  (forall j, In j js -> a j = Fzero) ->
  fold_left (fun acc j => Fadd acc (Fmul (a j) (b j))) js acc = acc.
Proof.
  revert acc. induction js as [|j js IH]; intros acc Hz; cbn; [reflexivity|].
  rewrite IH by (intros; apply Hz; now right).
  rewrite (Hz j) by now left. now rewrite Fmul_0_l, Fadd_0_r.
Qed.

Lemma dot_indicator (n i : nat) (a b : nat -> F) :
  (i < n)%nat -> a i = Fone -> (forall j, (j < n)%nat -> j <> i -> a j = Fzero) ->
  dot n a b = b i.
Proof.
  intros Hi Hone Hzero. unfold dot.
  replace n with (i + S (n - S i))%nat by lia.
  rewrite seq_app, fold_left_app. cbn [seq fold_left Nat.add].
  rewrite fold_dot_zero.
  2:{ intros j Hj. apply in_seq in Hj. apply Hzero; lia. }
  rewrite fold_dot_zero.
  2:{ intros j Hj. apply in_seq in Hj. apply Hzero; lia. }
  now rewrite Hone, Fmul_1_l, Fadd_0_l.
Qed.

Lemma getF_one_hot (n i : Z) (j : nat) :
  (j < Z.to_nat n)%nat ->
  getF (one_hot n i) j = if Z.of_nat j =? i then Fone else Fzero.
Proof.
  intros Hj. unfold getF, one_hot.
  rewrite (nth_indep _ Fzero ((fun j => if Z.of_nat j =? i then Fone else Fzero) O))
    by now rewrite length_map, length_seq.
  rewrite (map_nth (fun j => if Z.of_nat j =? i then Fone else Fzero)).
  now rewrite seq_nth.
Qed.

Lemma length_one_hot (n i : Z) : length (one_hot n i : list F) = Z.to_nat n.
Proof. unfold one_hot. now rewrite length_map, length_seq. Qed.


Lemma frame_create_features (n : nat) (i : Z) :
  0 <= i < Z.of_nat n -> frame (Some (create_features n)) i = Ok i.
Proof.
  intros Hi. unfold frame, create_features.
  replace (i <? 0) with false by (symmetry; apply Z.ltb_ge; lia).
  rewrite nth_error_map, nth_error_seq.
  destruct (Z.to_nat i <? n)%nat eqn:E; [|apply Nat.ltb_ge in E; lia].
  cbn. now rewrite Z2Nat.id by lia.
Qed.

End OneHot.

(** The direct path: without decomposition the forward pass uses the stored
    per-relation weights as they are. *)
Lemma forward_weight_direct {F : Type} `{Scalar F} (l : RGCNLayer F) :
  num_rels l <= num_bases l -> forward_weight l = Ok (weight l).
Proof.
  intros Hge. unfold forward_weight.
  now replace (num_bases l <? num_rels l) with false
    by (symmetry; apply Z.ltb_ge; lia).
Qed.

(** C1.  On [RGCNLayer(2, 1, 2, num_bases=1)] with basis matrix
    [[1], [2]] and coefficient rows [1] and [0], the weight the forward
    pass rebuilds is [[1], [0]] for relation 0 and [[2], [0]] for
    relation 1, whereas the combination of the stored basis with each
    relation's coefficient row is [[1], [2]] and [[0], [0]]. *)
Theorem forward_weight_basis_mismatch :
  exists (l : RGCNLayer Z) (c w : tensor Z),
    RGCNLayer_init Current ex_args_bases ex_env = Ok l /\
    num_bases l < num_rels l /\
    data (weight l) = [1; 2] /\
    w_comp l = Some c /\ data c = [1; 0] /\
    forward_weight l = Ok w /\
    w = mkTensor [2; 2; 1] [1; 0; 2; 0] /\
    basis_combination l c = mkTensor [2; 2; 1] [1; 2; 0; 0].
Proof.
  eexists. eexists. eexists.
  split; [reflexivity|]. cbn.
  split; [lia|]. repeat (split; [reflexivity|]). reflexivity.
Qed.


(** * The batched message functions, edge by edge *)

Section PerEdge.

Context {F : Type} `{Scalar F}.

Lemma length_vscale (c : F) (u : list F) : length (vscale c u) = length u.
Proof. unfold vscale. apply length_map. Qed.

Lemma length_vadd (u w : list F) :
  length u = length w -> length (vadd u w) = length u.
Proof.
  revert w. induction u as [|x u IH]; intros [|y w] Hlen; try discriminate;
    [reflexivity|]. cbn. f_equal. apply IH. now injection Hlen.
Qed.

Lemma length_fn_sum (width : nat) (mb : list (Z * list F)) (n : Z) :
  Forall (fun m => length (snd m) = width) mb ->
  length (fn_sum width mb n) = width.
Proof.
  intros Hall. unfold fn_sum.
  assert (Hgen : forall (ms : list (list F)) (acc : list F),
             Forall (fun m => length m = width) ms -> length acc = width ->
             length (fold_left vadd ms acc) = width).
  { induction ms as [|m ms IH]; intros acc Hms Hacc; [assumption|].
    inversion Hms as [|? ? Hm Hms']; subst. cbn [fold_left].
    apply IH; [assumption|]. rewrite length_vadd; congruence. }
  apply Hgen.
  - apply Forall_forall. intros m Hm. apply in_map_iff in Hm as (p & <- & Hp).
    apply filter_In in Hp as [Hp _]. rewrite Forall_forall in Hall. now apply Hall.
  - unfold zeros. apply repeat_length.
Qed.

Lemma edges_src_id_create_features (g : DGLGraph F) :
  ndata_id g = Some (create_features (number_of_nodes g)) ->
  (forall e, In e (edges g) -> 0 <= src e < Z.of_nat (number_of_nodes g)) ->
  edges_src_id g = Ok (map src (edges g)).
Proof.
  intros Hids Hsrc. unfold edges_src_id. rewrite Hids.
  rewrite <- (map_id (map src (edges g))) at 2.
  apply mapM_map_Ok. intros i Hi. apply in_map_iff in Hi as (e & <- & He).
  apply frame_create_features. now apply Hsrc.
Qed.

Lemma length_embedding_message (l : RGCNLayer F) (w : tensor F) (e : edge F) :
  shape w = [num_rels l; in_feat l; out_feat l] -> tensor_wf w ->
  0 <= rel_type e < num_rels l -> 0 <= src e < in_feat l ->
  length (embedding_message l w e) = Z.to_nat (out_feat l).
Proof.
  intros Hs [Hpos Hn] Hrel Hsrc. unfold embedding_message.
  rewrite length_vscale. apply length_slice.
  rewrite Hs in Hn, Hpos. cbn [prodZ fold_right] in Hn. unfold numel in Hn.
  inversion Hpos as [|? ? _ Hpos1]; subst.
  inversion Hpos1 as [|? ? _ Hpos2]; subst.
  inversion Hpos2 as [|? ? Ho _]; subst.
  apply Nat2Z.inj_le. rewrite Nat2Z.inj_add, Nat2Z.inj_mul, !Z2Nat.id by nia.
  assert (Hrow : rel_type e * in_feat l + src e + 1 <= num_rels l * in_feat l) by nia.
  nia.
Qed.

Lemma length_feature_message (l : RGCNLayer F) (w : tensor F) (x : list F) (e : edge F) :
  length (feature_message l w x e) = Z.to_nat (out_feat l).
Proof.
  unfold feature_message. cbv zeta. rewrite length_vscale, length_mat_mul. lia.
Qed.

(** On a graph whose norms are a column and whose row numbers do not
    wrap, the input layer's batch of messages consists of the embedding
    rows of the edges, each scaled by its edge's norm. *)
Lemma message_input_rows (l : RGCNLayer F) (w : tensor F) (g : DGLGraph F) :
  shape w = [num_rels l; in_feat l; out_feat l] -> tensor_wf w ->
  0 < out_feat l ->
  norm_layout g = NormColumn ->
  ndata_id g = Some (create_features (number_of_nodes g)) ->
  in_feat l = Z.of_nat (number_of_nodes g) ->
  num_rels l * in_feat l <= 2 ^ (int_bits (rel_dtype g) - 1) ->
  (forall e, In e (edges g) ->
     0 <= rel_type e < num_rels l /\ 0 <= src e < Z.of_nat (number_of_nodes g)) ->
  message_input l w g
  = Ok (mkFT (promote Float32 (norm_dtype g))
          (mkTensor [Z.of_nat (length (edges g)); out_feat l]
             (flat_map (embedding_message l w) (edges g)))).
Proof.
  intros Hs Hwf Ho Hcol Hids HN Hfit Hedges. unfold message_input.
  pose proof Hwf as [Hpos Hn]. rewrite Hs in Hn. cbn [prodZ fold_right] in Hn.
  rewrite (view_rows w (num_rels l * in_feat l) (out_feat l)) by lia.
  cbn [bind].
  rewrite (edges_src_id_create_features g Hids)
    by (intros e He; now apply Hedges).
  cbn [bind]. unfold edata_rel_type. rewrite combine_map_map, map_map.
  cbn [fst snd].
  pose proof (int_bits_le_64 (rel_dtype g)) as H64.
  rewrite (map_ext_in _ (fun e => rel_type e * in_feat l + src e)).
  2:{ intros e He. destruct (Hedges e He) as [Hrel Hsrc].
      rewrite (wrap_small (rel_dtype g)) by nia.
      apply wrap_small. nia. }
  rewrite (index_rows_in_range _ (num_rels l * in_feat l) [out_feat l]);
    [|reflexivity|].
  2:{ intros i Hi. apply in_map_iff in Hi as (e & <- & He).
      destruct (Hedges e He) as [Hrel Hsrc]. nia. }
  cbn [bind data]. rewrite length_map, flat_map_map.
  unfold edata_norm. rewrite Hcol.
  set (e0 := mkEdge 0 0 0 Fzero).
  rewrite (flat_map_ext_in _
             (fun e => slice (Z.to_nat (rel_type e * in_feat l + src e)
                              * Z.to_nat (out_feat l))
                             (Z.to_nat (out_feat l)) (data w))).
  2:{ intros e He. destruct (Hedges e He) as [Hrel Hsrc].
      replace (rel_type e * in_feat l + src e <? 0) with false
        by (symmetry; apply Z.ltb_ge; nia).
      cbn [prodZ fold_right]. now rewrite Z.mul_1_r. }
  rewrite (broadcast_column_in e0 Fmul (edges g) _ norm (out_feat l)).
  - reflexivity.
  - lia.
  - intros e He. destruct (Hedges e He) as [Hrel Hsrc].
    pose proof (length_embedding_message l w e Hs Hwf Hrel ltac:(lia)) as Hlen.
    unfold embedding_message in Hlen. now rewrite length_vscale in Hlen.
Qed.

(** On a graph whose norms are a column, with an index type the library
    accepts and single-precision feature rows, a layer whose [out_feat] is
    not 1 computes for every edge its source's row times the matrix of its
    relation, scaled by its norm. *)
Lemma message_hidden_rows (ir : index_rule) (l : RGCNLayer F) (w h : tensor F)
      (g : DGLGraph F) :
  shape w = [num_rels l; in_feat l; out_feat l] -> tensor_wf w ->
  out_feat l <> 1 ->
  norm_layout g = NormColumn ->
  index_dtype_ok ir (rel_dtype g) = true ->
  ndata_h g = Some (mkFT Float32 h) ->
  shape h = [Z.of_nat (number_of_nodes g); in_feat l] -> tensor_wf h ->
  (forall e, In e (edges g) ->
     0 <= rel_type e < num_rels l /\ 0 <= src e < Z.of_nat (number_of_nodes g)) ->
  message_hidden ir w g
  = Ok (mkFT (promote Float32 (norm_dtype g))
          (mkTensor [Z.of_nat (length (edges g)); out_feat l]
             (flat_map (hidden_message l w h) (edges g)))).
Proof.
  intros Hs Hwf Ho1 Hcol Hidx Hh Hsh Hwfh Hedges. unfold message_hidden.
  destruct Hwf as [Hpos Hn]. rewrite Hs in Hn, Hpos. cbn [prodZ fold_right] in Hn.
  inversion Hpos as [|? ? HR Hpos1]; subst.
  inversion Hpos1 as [|? ? HI Hpos2]; subst.
  inversion Hpos2 as [|? ? HO _]; subst.
  destruct Hwfh as [_ Hnh]. rewrite Hsh in Hnh. cbn [prodZ fold_right] in Hnh.
  unfold numel in Hn, Hnh.
  set (I := Z.to_nat (in_feat l)). set (O := Z.to_nat (out_feat l)).
  assert (HIO : Z.to_nat (prodZ [in_feat l; out_feat l]) = (I * O)%nat).
  { cbn [prodZ fold_right]. rewrite Z.mul_1_r. subst I O.
    now rewrite Z2Nat.inj_mul by lia. }
  assert (HI1 : Z.to_nat (prodZ [in_feat l]) = I).
  { cbn [prodZ fold_right]. now rewrite Z.mul_1_r. }
  rewrite Hidx. unfold edata_rel_type.
  rewrite (index_rows_in_range w (num_rels l) [in_feat l; out_feat l]);
    [|assumption|].
  2:{ intros i Hi. apply in_map_iff in Hi as (e & <- & He).
      destruct (Hedges e He) as [Hrel Hsrc]. lia. }
  cbn [bind]. unfold edges_src_h. rewrite Hh. cbn [ft ft_dtype].
  replace (existsb (fun i => i <? 0) (map src (edges g))) with false.
  2:{ symmetry. destruct (existsb _ (map src (edges g))) eqn:E; [|reflexivity].
      apply existsb_exists in E as (i & Hi & Hneg). zbool.
      apply in_map_iff in Hi as (e & <- & He).
      destruct (Hedges e He) as [_ Hsrc]. lia. }
  rewrite (index_rows_in_range h (Z.of_nat (number_of_nodes g)) [in_feat l]);
    [|assumption|].
  2:{ intros i Hi. apply in_map_iff in Hi as (e & <- & He).
      destruct (Hedges e He) as [Hrel Hsrc]. lia. }
  cbn [bind ft ft_dtype]. unfold unsqueeze1. cbn [shape data bind float_dtype_eqb].
  rewrite !length_map, !flat_map_map, HIO, HI1.
  set (e0 := mkEdge 0 0 0 Fzero).
  rewrite (bmm_rows_in e0 (edges g) _ _ (in_feat l) (out_feat l) HI HO).
  2:{ intros e He. destruct (Hedges e He) as [Hrel Hsrc].
      apply length_slice. replace (src e <? 0) with false
        by (symmetry; apply Z.ltb_ge; lia).
      fold I. apply Nat2Z.inj_le.
      rewrite Nat2Z.inj_add, Nat2Z.inj_mul, Z2Nat.id by lia.
      subst I. rewrite Z2Nat.id by lia. nia. }
  2:{ intros e He. destruct (Hedges e He) as [Hrel Hsrc].
      fold I O. apply length_slice. replace (rel_type e <? 0) with false
        by (symmetry; apply Z.ltb_ge; lia).
      apply Nat2Z.inj_le.
      rewrite Nat2Z.inj_add, !Nat2Z.inj_mul, Z2Nat.id by lia.
      subst I O. rewrite !Z2Nat.id by lia. nia. }
  cbn [bind]. fold I O.
  rewrite (flat_map_ext_in _
             (fun e => mat_mul 1 I O (slice (Z.to_nat (src e) * I) I (data h))
                         (slice (Z.to_nat (rel_type e) * (I * O)) (I * O) (data w)))).
  2:{ intros e He. destruct (Hedges e He) as [Hrel Hsrc].
      replace (src e <? 0) with false by (symmetry; apply Z.ltb_ge; lia).
      replace (rel_type e <? 0) with false by (symmetry; apply Z.ltb_ge; lia).
      reflexivity. }
  unfold squeeze. cbn [shape data filter Z.eqb negb].
  replace (out_feat l =? 1) with false by (symmetry; apply Z.eqb_neq; lia).
  cbn [negb]. unfold edata_norm. rewrite Hcol.
  destruct (Z.of_nat (length (edges g)) =? 1) eqn:E1.
  - apply Z.eqb_eq in E1. cbn [negb].
    destruct (edges g) as [|e1 [|e2 es]]; cbn [length] in E1; try lia.
    cbn [flat_map map length Z.of_nat Pos.of_succ_nat]. rewrite app_nil_r.
    rewrite (broadcast_vector_column Fmul _ (norm e1) (out_feat l) HO Ho1).
    + cbn [bind]. unfold hidden_message, feature_message, vscale. cbv zeta.
      fold I O. now rewrite app_nil_r.
    + rewrite length_mat_mul. lia.
  - cbn [negb].
    rewrite (broadcast_column_in e0 Fmul (edges g) _ norm (out_feat l) HO).
    + reflexivity.
    + intros e He. rewrite length_mat_mul. lia.
Qed.

(** The reduction of a batch that has one row of [k] entries per edge. *)
Lemma reduce_sum_rows (g : DGLGraph F) (dt : float_dtype) (m : edge F -> list F)
      (k : Z) :
  0 <= k ->
  (forall e, In e (edges g) -> length (m e) = Z.to_nat k) ->
  reduce_sum g (mkFT dt (mkTensor [Z.of_nat (length (edges g)); k]
                                   (flat_map m (edges g))))
  = Ok (mkFT dt (mkTensor [Z.of_nat (number_of_nodes g); k]
                          (concat (node_sums (Z.to_nat k) m g)))).
Proof.
  intros Hk Hm. unfold reduce_sum. cbn [ft ft_dtype shape data tl map prod_nat fold_right].
  rewrite Z.eqb_refl, orb_true_r, Nat.mul_1_r.
  rewrite (rows_of_flat_map (mkEdge 0 0 0 Fzero) (edges g) m _ Hm), combine_map_map.
  unfold node_sums. now rewrite flat_map_concat_map.
Qed.

Lemma node_sums_shape (width : nat) (m : edge F -> list F) (g : DGLGraph F) :
  (forall e, In e (edges g) -> length (m e) = width) ->
  length (node_sums width m g) = number_of_nodes g
  /\ Forall (fun row => length row = width) (node_sums width m g)
  /\ length (concat (node_sums width m g)) = (number_of_nodes g * width)%nat.
Proof.
  intros Hm.
  assert (Hrows : Forall (fun row => length row = width) (node_sums width m g)).
  { apply Forall_forall. intros row Hrow. unfold node_sums in Hrow.
    apply in_map_iff in Hrow as (v & <- & _). apply length_fn_sum.
    apply Forall_forall. intros p Hp. apply in_map_iff in Hp as (e & <- & He).
    cbn [snd]. now apply Hm. }
  split; [unfold node_sums; now rewrite length_map, length_seq|].
  split; [assumption|].
  assert (Hgen : forall rows : list (list F),
             Forall (fun row => length row = width) rows ->
             length (concat rows) = (length rows * width)%nat).
  { induction 1 as [|r rows Hr _ IH]; [reflexivity|].
    cbn [concat length]. rewrite length_app, Hr, IH. lia. }
  rewrite (Hgen _ Hrows). unfold node_sums. now rewrite length_map, length_seq.
Qed.

End PerEdge.

(** * One layer on a graph *)

Section LayerOnGraph.

Context {F : Type} `{Scalar F}.

(** Every layer the constructor returns applies only its activation in the
    update step: the bias is absent, or a single zero that is never added. *)
Lemma apply_func_constructed
      (v : torch_version) (a : layer_args F) (env : init_env F) (l : RGCNLayer F)
      (h : ftensor F) :
  RGCNLayer_init v a env = Ok l ->
  apply_func l h = match activation l with
                   | Some act => t <- act (ft h) ;; Ok (mkFT (ft_dtype h) t)
                   | None => Ok h
                   end.
Proof.
  intros Hl. destruct (a_bias a) eqn:Hb.
  - now apply (RGCNLayer_bias_never_added v a env).
  - apply RGCNLayer_init_inv in Hl. cbv zeta in Hl.
    destruct Hl as (_ & _ & _ & _ & _ & _ & _ & _ & Hbias).
    rewrite Hb in Hbias. unfold apply_func. now rewrite Hbias.
Qed.

Lemma spec_message_length (l : RGCNLayer F) (w : tensor F) (g : DGLGraph F)
      (h : tensor F) (e : edge F) :
  shape w = [num_rels l; in_feat l; out_feat l] -> tensor_wf w ->
  (is_input_layer l = true -> in_feat l = Z.of_nat (number_of_nodes g)) ->
  (is_input_layer l = false -> ndata_h g = Some (mkFT Float32 h)) ->
  0 <= rel_type e < num_rels l -> 0 <= src e < Z.of_nat (number_of_nodes g) ->
  length (spec_message l w g e) = Z.to_nat (out_feat l).
Proof.
  intros Hs Hwf Hin Hhid Hrel Hsrc. unfold spec_message.
  destruct (is_input_layer l).
  - apply length_embedding_message; try assumption. rewrite (Hin eq_refl). lia.
  - rewrite (Hhid eq_refl). apply length_feature_message.
Qed.

(** What a constructed layer computes on a graph that is ready for it:
    every node's sum of the messages of the specification on its incoming
    edges, as a matrix with one row of [out_feat] entries per node. *)
Lemma aggregate_per_edge
      (ir : index_rule) (v : torch_version) (a : layer_args F) (env : init_env F)
      (l : RGCNLayer F) (g : DGLGraph F) :
  RGCNLayer_init v a env = Ok l ->
  graph_ready ir l g ->
  exists w,
    forward_weight l = Ok w /\
    aggregate ir l w g
    = Ok (mkFT (promote Float32 (norm_dtype g))
            (mkTensor [Z.of_nat (number_of_nodes g); out_feat l]
               (concat (node_sums (Z.to_nat (out_feat l)) (spec_message l w g) g))))
    /\ (forall e, In e (edges g) ->
          length (spec_message l w g e) = Z.to_nat (out_feat l)).
Proof.
  intros Hl (Hcol & Hedges & Hmode).
  destruct (forward_weight_constructed v a env l Hl) as (Ho & w & Hw & Hs & Hwf).
  exists w. split; [exact Hw|].
  unfold aggregate, message_func, spec_message.
  destruct (is_input_layer l) eqn:Emode.
  - destruct Hmode as (Hids & HN & Hfit).
    rewrite (message_input_rows l w g) by assumption. cbn [bind].
    assert (Hlen : forall e, In e (edges g) ->
                     length (embedding_message l w e) = Z.to_nat (out_feat l)).
    { intros e He. destruct (Hedges e He) as [Hrel Hsrc].
      apply length_embedding_message; try assumption. lia. }
    split; [|exact Hlen]. apply reduce_sum_rows; [lia|exact Hlen].
  - destruct Hmode as (Hidx & Ho1 & h & Hh & Hsh & Hwfh).
    rewrite (message_hidden_rows ir l w h g) by assumption. cbn [bind].
    rewrite Hh. cbn [ft].
    assert (Hlen : forall e, In e (edges g) ->
                     length (hidden_message l w h e) = Z.to_nat (out_feat l)).
    { intros e _. apply length_feature_message. }
    split; [|exact Hlen]. apply reduce_sum_rows; [lia|exact Hlen].
Qed.

(** On a graph that is ready for a constructed layer, the layer's per-node
    sums are the ones of the specification: the messages of the edges into
    a node, added up, each message being the embedding row of the edge (in
    an input layer) or its source's features times the matrix of its
    relation (in any other layer), scaled by the edge's norm. *)
Theorem aggregate_computes_node_sums
      (ir : index_rule) (v : torch_version) (a : layer_args F) (env : init_env F)
      (l : RGCNLayer F) (g : DGLGraph F) :
  RGCNLayer_init v a env = Ok l ->
  graph_ready ir l g ->
  exists w,
    forward_weight l = Ok w /\
    aggregate ir l w g
    = Ok (mkFT (promote Float32 (norm_dtype g))
            (mkTensor [Z.of_nat (number_of_nodes g); out_feat l]
               (concat (node_sums (Z.to_nat (out_feat l)) (spec_message l w g) g))))
    /\ (forall e, In e (edges g) ->
          length (spec_message l w g e) = Z.to_nat (out_feat l)).
Proof.
  intros Hl Hready. exact (aggregate_per_edge ir v a env l g Hl Hready).
Qed.

Lemma graph_ready_Permutation (ir : index_rule) (l : RGCNLayer F) (g : DGLGraph F)
      (es' : list (edge F)) :
  Permutation (edges g) es' -> graph_ready ir l g ->
  graph_ready ir l (with_edges g es').
Proof.
  intros Hp (Hcol & Hedges & Hmode). split; [exact Hcol|]. split.
  - intros e He. cbn [with_edges edges number_of_nodes] in He |- *.
    apply Hedges. eapply Permutation_in; [symmetry; exact Hp|exact He].
  - exact Hmode.
Qed.

End LayerOnGraph.

Section OrderIndependence.

Context {F : Type} `{Scalar F}.

Hypothesis Fadd_comm : forall x y : F, Fadd x y = Fadd y x.
Hypothesis Fadd_assoc : forall x y z : F, Fadd x (Fadd y z) = Fadd (Fadd x y) z.

Lemma node_sums_Permutation (width : nat) (msg : edge F -> list F)
      (g : DGLGraph F) (es' : list (edge F)) :
  Permutation (edges g) es' ->
  node_sums width msg (with_edges g es') = node_sums width msg g.
Proof.
  intros Hp. unfold node_sums. cbn [with_edges edges number_of_nodes].
  apply map_ext. intros n. symmetry.
  apply (fn_sum_Permutation Fadd_comm Fadd_assoc). now apply Permutation_map.
Qed.

(** On a graph that is ready for the layer, the per-node sums and the
    output features do not depend on the order of the edge list, for an
    addition of scalars that is associative and commutative. *)
Theorem aggregate_permutation_invariant
      (ir : index_rule) (v : torch_version) (a : layer_args F) (env : init_env F)
      (l : RGCNLayer F) (g : DGLGraph F) (es' : list (edge F)) :
  RGCNLayer_init v a env = Ok l ->
  graph_ready ir l g ->
  Permutation (edges g) es' ->
  exists w sums,
    forward_weight l = Ok w /\
    aggregate ir l w g = Ok sums /\
    aggregate ir l w (with_edges g es') = Ok sums.
Proof.
  intros Hl Hready Hp.
  destruct (aggregate_per_edge ir v a env l g Hl Hready) as (w & Hw & Hagg & _).
  destruct (aggregate_per_edge ir v a env l (with_edges g es') Hl
              (graph_ready_Permutation ir l g es' Hp Hready))
    as (w' & Hw' & Hagg' & _).
  assert (w' = w) by congruence. subst w'.
  exists w. eexists. split; [exact Hw|]. split; [exact Hagg|].
  rewrite Hagg'. cbn [with_edges number_of_nodes norm_dtype].
  do 4 f_equal.
  change (spec_message l w (with_edges g es')) with (spec_message l w g).
  now apply node_sums_Permutation.
Qed.

End OrderIndependence.

Section OneHotLookup.

Context {F : Type} `{Scalar F}.

Hypothesis Fmul_0_l : forall x : F, Fmul Fzero x = Fzero.
Hypothesis Fmul_1_l : forall x : F, Fmul Fone x = x.
Hypothesis Fadd_0_l : forall x : F, Fadd Fzero x = x.
Hypothesis Fadd_0_r : forall x : F, Fadd x Fzero = x.

(** The two messages of the specification agree: row
    [rel_id * in_dim + src_id] of the embedding table is the one-hot
    vector of the source id times [Weight[rel_id]]. *)
Lemma embedding_message_one_hot (l : RGCNLayer F) (w : tensor F) (e : edge F) :
  shape w = [num_rels l; in_feat l; out_feat l] -> tensor_wf w ->
  0 <= rel_type e < num_rels l -> 0 <= src e < in_feat l ->
  embedding_message l w e = one_hot_message l w e.
Proof.
  intros Hs [Hpos Hn] Hrel Hid.
  unfold embedding_message, one_hot_message, feature_message. cbv zeta.
  rewrite Hs in Hn, Hpos. cbn [prodZ fold_right] in Hn.
  inversion Hpos as [|? ? _ Hpos1]; subst.
  inversion Hpos1 as [|? ? _ Hpos2]; subst.
  inversion Hpos2 as [|? ? Ho _]; subst.
  f_equal.
  set (O := Z.to_nat (out_feat l)). set (I := Z.to_nat (in_feat l)).
  set (r := Z.to_nat (rel_type e)). set (i := Z.to_nat (src e)).
  assert (Hlen : length (data w) = (Z.to_nat (num_rels l) * I * O)%nat).
  { unfold numel in Hn. subst I O. apply Nat2Z.inj. rewrite Hn.
    rewrite !Nat2Z.inj_mul, !Z2Nat.id by lia. lia. }
  assert (Hr : (r < Z.to_nat (num_rels l))%nat) by (subst r; lia).
  assert (Hi : (i < I)%nat) by (subst i I; lia).
  assert (Hidx : Z.to_nat (rel_type e * in_feat l + src e) = (r * I + i)%nat).
  { subst r I i. apply Nat2Z.inj.
    rewrite Nat2Z.inj_add, Nat2Z.inj_mul, !Z2Nat.id by nia. reflexivity. }
  rewrite Hidx. unfold mat_mul. cbn [seq flat_map]. rewrite app_nil_r.
  assert (Hrow : (r * I + i + 1 <= Z.to_nat (num_rels l) * I)%nat) by nia.
  assert (Hfits : ((r * I + i) * O + O <= length (data w))%nat)
    by (rewrite Hlen; nia).
  apply (list_eq_nth Fzero).
  - rewrite length_slice by assumption.
    now rewrite length_map, length_seq.
  - rewrite length_slice by assumption. intros c Hc.
    rewrite nth_slice by assumption.
    rewrite nth_map_seq by assumption. cbn [Nat.mul Nat.add].
    rewrite (dot_indicator Fmul_0_l Fmul_1_l Fadd_0_l Fadd_0_r I i).
    + unfold getF. rewrite nth_slice by nia. f_equal. lia.
    + assumption.
    + rewrite getF_one_hot by assumption. subst i.
      rewrite Z2Nat.id, Z.eqb_refl by lia. reflexivity.
    + intros j Hj Hne. rewrite getF_one_hot by assumption.
      destruct (Z.of_nat j =? src e) eqn:E; [|reflexivity]. zbool. subst i. lia.
Qed.

(** On a graph that is ready for a constructed input layer, the embedding
    lookup delivers for every edge the message of the matrix path on the
    one-hot vector of the edge's source. *)
Theorem message_input_matches_one_hot
      (ir : index_rule) (v : torch_version) (a : layer_args F) (env : init_env F)
      (l : RGCNLayer F) (g : DGLGraph F) :
  RGCNLayer_init v a env = Ok l ->
  is_input_layer l = true ->
  graph_ready ir l g ->
  exists w,
    forward_weight l = Ok w /\
    message_func ir l w g
    = Ok (mkFT (promote Float32 (norm_dtype g))
            (mkTensor [Z.of_nat (length (edges g)); out_feat l]
               (flat_map (one_hot_message l w) (edges g)))).
Proof.
  intros Hl Hmode (Hcol & Hedges & Hready). rewrite Hmode in Hready.
  destruct Hready as (Hids & HN & Hfit).
  destruct (forward_weight_constructed v a env l Hl) as (Ho & w & Hw & Hs & Hwf).
  exists w. split; [exact Hw|]. unfold message_func. rewrite Hmode.
  rewrite (message_input_rows l w g) by assumption. do 3 f_equal.
  apply flat_map_ext_in. intros e He. destruct (Hedges e He) as [Hrel Hsrc].
  apply embedding_message_one_hot; try assumption. lia.
Qed.

End OneHotLookup.

(** C3.  The aggregated features depend on the order of the edge list in a
    layer with a single output feature.  On [RGCNLayer(2, 1, 2)] with
    weights [[1], [2]] and [[3], [4]], feature rows [[1, 0]] and [[2, 5]],
    and the edges 0->1 (relation 0, norm 2), 1->0 (relation 1, norm 1),
    1->1 (relation 0, norm 5), the products of the edges are 1, 26 and 12;
    [squeeze()] makes them a vector, which the multiplication by the column
    of norms broadcasts to a 3 x 3 batch, so every node gets three sums, in
    the order of the edge list: 1, 26, 12 and 7, 182, 84.  With the edge
    list reversed they are 12, 26, 1 and 84, 182, 7.  The sums of the
    per-edge messages are 26 and 62 for either order. *)
Theorem aggregation_depends_on_edge_order (ir : index_rule) :
  exists (l : RGCNLayer Z) (w : tensor Z),
    RGCNLayer_init Current ex_args_out1 ex_env = Ok l /\
    forward_weight l = Ok w /\
    Permutation (edges ex_graph_h) (rev ex_edges) /\
    aggregate ir l w ex_graph_h
    = Ok (mkFT Float32 (mkTensor [2; 3] [1; 26; 12; 7; 182; 84])) /\
    aggregate ir l w (with_edges ex_graph_h (rev ex_edges))
    = Ok (mkFT Float32 (mkTensor [2; 3] [12; 26; 1; 84; 182; 7])) /\
    node_sums 1 (spec_message l w ex_graph_h) ex_graph_h = [[26]; [62]] /\
    node_sums 1 (spec_message l w ex_graph_h) (with_edges ex_graph_h (rev ex_edges))
    = [[26]; [62]].
Proof.
  eexists. eexists. split; [reflexivity|]. split; [reflexivity|].
  split; [apply Permutation_rev|].
  destruct ir; repeat split; reflexivity.
Qed.

(** The same dependence in the layout the notebook stores: with the norms
    a vector, the input layer's lookup is multiplied column by column, so
    column [j] of every message is scaled by the norm of edge [j], and the
    width of the layer must be the number of edges (or 1). *)
Example aggregation_vector_norm :
  let l := mkLayer 2 2 1 1 (BiasArg false) None true
                   (mkTensor [1; 2; 2] [1; 10; 100; 1000]) None in
  let g := fun es => mkGraph 2 es Int8 NormVector Float64
                             (Some (create_features 2)) None in
  aggregate LongOnly l (weight l) (g [mkEdge 0 1 0 2; mkEdge 1 1 0 3])
  = Ok (mkFT Float64 (mkTensor [2; 2] [0; 0; 202; 3030])) /\
  aggregate LongOnly l (weight l) (g [mkEdge 1 1 0 3; mkEdge 0 1 0 2])
  = Ok (mkFT Float64 (mkTensor [2; 2] [0; 0; 303; 2020])) /\
  aggregate LongOnly l (weight l)
            (g [mkEdge 0 1 0 2; mkEdge 1 1 0 3; mkEdge 0 0 0 1])
  = Raise RuntimeError.
Proof. repeat split; reflexivity. Qed.

(** C2.  The embedding lookup does not read the row of the matrix path
    when the relation ids are stored as 8-bit integers.  On
    [RGCNLayer(200, 2, 2, is_input_layer=True)], whose weight buffer holds
    1, 2, ..., 800, the edge from node 0 with relation 1 asks for row
    [1 * 200 + 0]; the product wraps to -56 in 8 bits and the lookup reads
    row 344, the entries 689 and 690, where the one-hot vector of node 0
    times [weight[1]] is row 200, the entries 401 and 402.  The edge with
    relation 0 reads its own row. *)
Theorem message_input_wraps_rel_type (ir : index_rule) :
  exists (l : RGCNLayer Z) (w : tensor Z),
    RGCNLayer_init Current ex_args_wide ex_env = Ok l /\
    is_input_layer l = true /\
    in_feat l = Z.of_nat (number_of_nodes ex_graph_int8) /\
    forward_weight l = Ok w /\
    Forall (fun e => 0 <= rel_type e < num_rels l /\ 0 <= src e < in_feat l)
           (edges ex_graph_int8) /\
    message_func ir l w ex_graph_int8
    = Ok (mkFT Float32 (mkTensor [2; 2] [689; 690; 7; 8])) /\
    map (one_hot_message l w) (edges ex_graph_int8) = [[401; 402]; [7; 8]] /\
    map (embedding_message l w) (edges ex_graph_int8) = [[401; 402]; [7; 8]].
Proof.
  eexists. eexists. split; [vm_compute; reflexivity|].
  split; [reflexivity|]. split; [reflexivity|]. split; [reflexivity|].
  split; [repeat constructor; cbn; lia|].
  destruct ir; repeat split; vm_compute; reflexivity.
Qed.

(** * The preprocessing cells *)

(** ** Order of strings *)

Lemma slt_trans (x y z : string) : slt x y -> slt y z -> slt x z.
Proof.
  unfold slt. intros Hxy Hyz.
  apply String_as_OT.cmp_lt in Hxy. apply String_as_OT.cmp_lt in Hyz.
  apply String_as_OT.cmp_lt. eapply String_as_OT.lt_trans; eassumption.
Qed.

Lemma compare_refl (x : string) : String.compare x x = Eq.
Proof. now apply String_as_OT.cmp_eq. Qed.

Lemma slt_irrefl (x : string) : ~ slt x x.
Proof. unfold slt. now rewrite compare_refl. Qed.

Lemma compare_Gt_slt (x y : string) : String.compare x y = Gt -> slt y x.
Proof.
  unfold slt. intros Hgt. rewrite String.compare_antisym, Hgt. reflexivity.
Qed.

Lemma slt_asym (x y : string) : slt x y -> ~ slt y x.
Proof. intros Hxy Hyx. apply (slt_irrefl x). eapply slt_trans; eassumption. Qed.

Lemma ltb_slt (x y : string) : String.ltb x y = true <-> slt x y.
Proof.
  unfold String.ltb, slt. destruct (String.compare x y); split; congruence.
Qed.

Lemma slt_total (x y : string) : slt x y \/ x = y \/ slt y x.
Proof.
  destruct (String.compare x y) eqn:E.
  - right; left. now apply String.compare_eq_iff.
  - now left.
  - right; right. now apply compare_Gt_slt.
Qed.

(** ** Categories are the distinct values in increasing order *)

Lemma insert_category_In (x z : string) (cats : list string) :
  In z (insert_category x cats) <-> z = x \/ In z cats.
Proof.
  induction cats as [|y cats IH]; cbn.
  - intuition congruence.
  - destruct (String.compare x y) eqn:E; cbn.
    + apply String.compare_eq_iff in E. subst. intuition congruence.
    + intuition congruence.
    + rewrite IH. intuition congruence.
Qed.

Lemma insert_category_sorted (x : string) (cats : list string) :
  StronglySorted slt cats -> StronglySorted slt (insert_category x cats).
Proof.
  induction 1 as [|y cats Hs IH Hall]; cbn.
  - repeat constructor.
  - destruct (String.compare x y) eqn:E.
    + now constructor.
    + constructor; [now constructor|]. constructor; [assumption|].
      rewrite Forall_forall in *. intros z Hz.
      eapply slt_trans; [exact E|]. now apply Hall.
    + constructor; [assumption|].
      rewrite Forall_forall in *. intros z Hz.
      apply insert_category_In in Hz as [->|Hz]; [|now apply Hall].
      now apply compare_Gt_slt.
Qed.

Lemma fold_insert_category (col acc : list string) :
  StronglySorted slt acc ->
  StronglySorted slt (fold_left (fun cats x => insert_category x cats) col acc)
  /\ (forall z, In z (fold_left (fun cats x => insert_category x cats) col acc)
                <-> In z acc \/ In z col).
Proof.
  revert acc. induction col as [|x col IH]; intros acc Hs; cbn [fold_left].
  - split; [assumption|]. cbn. intuition.
  - destruct (IH (insert_category x acc) (insert_category_sorted x acc Hs))
      as [Hsorted Hin].
    split; [assumption|]. intros z. rewrite Hin, insert_category_In. cbn.
    intuition congruence.
Qed.

Lemma categories_sorted (col : list string) : StronglySorted slt (categories col).
Proof. apply fold_insert_category. constructor. Qed.

Lemma categories_In (col : list string) (z : string) :
  In z (categories col) <-> In z col.
Proof.
  unfold categories.
  destruct (fold_insert_category col [] (SSorted_nil _)) as [_ Hin].
  rewrite Hin. cbn. intuition.
Qed.

Lemma sorted_NoDup (l : list string) : StronglySorted slt l -> NoDup l.
Proof.
  induction 1 as [|y l Hs IH Hall]; constructor; [|assumption].
  intros Hy. rewrite Forall_forall in Hall. exact (slt_irrefl y (Hall y Hy)).
Qed.

(** In an increasing list a member sits at the position given by the
    number of members before it in the order. *)
Lemma index_of_sorted (x : string) (l : list string) :
  StronglySorted slt l -> In x l ->
  index_of x l = Some (length (filter (fun y => String.ltb y x) l)).
Proof.
  induction 1 as [|y l Hs IH Hall]; intros Hx; [easy|].
  rewrite Forall_forall in Hall. cbn [index_of filter].
  destruct (String.eqb_spec x y) as [->|Hne].
  - assert (Hltb : String.ltb y y = false).
    { destruct (String.ltb y y) eqn:E; [|reflexivity].
      apply ltb_slt in E. now apply slt_irrefl in E. }
    rewrite Hltb.
    assert (Hnone : filter (fun z => String.ltb z y) l = []).
    { clear - Hall. induction l as [|z l IH]; cbn; [reflexivity|].
      destruct (String.ltb z y) eqn:E.
      - apply ltb_slt in E. exfalso.
        apply (slt_asym _ _ E). apply Hall. now left.
      - apply IH. intros u Hu. apply Hall. now right. }
    now rewrite Hnone.
  - destruct Hx as [Hx|Hx]; [congruence|].
    rewrite (proj2 (ltb_slt y x) (Hall x Hx)). rewrite (IH Hx). reflexivity.
Qed.

Lemma categories_nodup_Permutation (col : list string) :
  Permutation (nodup string_dec col) (categories col).
Proof.
  apply NoDup_Permutation.
  - apply NoDup_nodup.
  - apply sorted_NoDup, categories_sorted.
  - intros z. rewrite nodup_In, categories_In. reflexivity.
Qed.

(** The code of a value of the column is its sorted rank. *)
Lemma code_of_rank (col : list string) (x : string) :
  In x col -> code_of (categories col) x = sorted_rank col x.
Proof.
  intros Hx. unfold code_of, sorted_rank.
  rewrite (index_of_sorted x (categories col) (categories_sorted col))
    by now apply categories_In.
  f_equal. apply Permutation_length, filter_Permutation.
  symmetry. apply categories_nodup_Permutation.
Qed.

Lemma cat_codes_nth (col : list string) (i : nat) (x : string) :
  nth_error col i = Some x ->
  nth_error (cat_codes col) i = Some (sorted_rank col x).
Proof.
  intros Hx. unfold cat_codes. rewrite nth_error_map, Hx. cbn.
  f_equal. apply code_of_rank. eapply nth_error_In; eassumption.
Qed.

Lemma filter_length_lt {A : Type} (p q : A -> bool) (l : list A) (x : A) :
  (forall z, In z l -> p z = true -> q z = true) ->
  In x l -> p x = false -> q x = true ->
  (length (filter p l) < length (filter q l))%nat.
Proof.
  intros Hpq Hx Hpx Hqx.
  assert (Hle : forall l', (forall z, In z l' -> p z = true -> q z = true) ->
                           (length (filter p l') <= length (filter q l'))%nat).
  { induction l' as [|z l' IH]; intros Hsub; cbn; [lia|].
    assert (IH' := IH (fun u Hu => Hsub u (or_intror Hu))).
    destruct (p z) eqn:Ep.
    - rewrite (Hsub z (or_introl eq_refl) Ep). cbn. lia.
    - destruct (q z); cbn; lia. }
  induction l as [|z l IH]; [easy|]. cbn.
  destruct Hx as [->|Hx].
  - rewrite Hpx, Hqx. cbn.
    specialize (Hle l (fun u Hu => Hpq u (or_intror Hu))). lia.
  - specialize (IH (fun u Hu => Hpq u (or_intror Hu)) Hx).
    destruct (p z) eqn:Ep.
    + rewrite (Hpq z (or_introl eq_refl) Ep). cbn. lia.
    + destruct (q z); cbn; lia.
Qed.

Lemma sorted_rank_lt (col : list string) (x y : string) :
  In x col -> slt x y -> sorted_rank col x < sorted_rank col y.
Proof.
  intros Hx Hxy. unfold sorted_rank. apply inj_lt.
  apply (filter_length_lt _ _ _ x).
  - intros z _ Hz. apply ltb_slt in Hz. apply ltb_slt.
    eapply slt_trans; eassumption.
  - now apply nodup_In.
  - destruct (String.ltb x x) eqn:E; [|reflexivity].
    apply ltb_slt in E. now apply slt_irrefl in E.
  - now apply ltb_slt.
Qed.

(** Codes follow the order of the labels. *)
Lemma sorted_rank_order (col : list string) (x y : string) :
  In x col -> In y col ->
  (sorted_rank col x < sorted_rank col y <-> String.ltb x y = true)
  /\ (sorted_rank col x = sorted_rank col y <-> x = y).
Proof.
  intros Hx Hy. rewrite ltb_slt.
  destruct (slt_total x y) as [Hlt|[->|Hgt]].
  - pose proof (sorted_rank_lt col x y Hx Hlt).
    split; split; intros; try assumption; try lia.
    subst. now apply slt_irrefl in Hlt.
  - split; split; intros; try reflexivity; try lia.
    now apply slt_irrefl in H.
  - pose proof (sorted_rank_lt col y x Hy Hgt).
    split; split; intros; try lia.
    + now apply slt_asym in Hgt.
    + subst. now apply slt_irrefl in Hgt.
Qed.

Lemma sorted_rank_bounds (col : list string) (x : string) :
  In x col ->
  0 <= sorted_rank col x < Z.of_nat (length (nodup string_dec col)).
Proof.
  intros Hx. unfold sorted_rank. split; [lia|]. apply inj_lt.
  assert (Hall : forall l : list string, filter (fun _ => true) l = l)
    by (induction l as [|z l IH]; cbn; congruence).
  rewrite <- (Hall (nodup string_dec col)) at 2.
  apply (filter_length_lt _ _ _ x).
  - reflexivity.
  - now apply nodup_In.
  - destruct (String.ltb x x) eqn:E; [|reflexivity].
    apply ltb_slt in E. now apply slt_irrefl in E.
  - reflexivity.
Qed.

(** ** Relation and node ids *)

(** C4, as the code has it.  The id of a relation label is its rank in the
    sorted order of the distinct labels of the column, whatever the order
    of appearance. *)
Theorem relation_category_sorted_rank (rows : list triple) (i : nat) (t : triple) :
  nth_error rows i = Some t ->
  nth_error (relation_category rows) i
  = Some (sorted_rank (map stmt_type rows) (stmt_type t)).
Proof.
  intros Ht. unfold relation_category. apply cat_codes_nth.
  now rewrite nth_error_map, Ht.
Qed.

(** The codes of the dataset's relation labels are those the notebook
    prints in [edge_relation_lookup]: 2 for Complex, 1 for Activation, 16 for
    IncreaseAmount, ... *)
Example cat_codes_notebook_output :
  cat_codes ex_relation_labels
  = [2; 1; 16; 17; 13; 21; 23; 5; 7; 12; 3; 18; 10; 15; 22; 0; 9; 4; 14; 11;
     6; 19; 8; 20].
Proof. vm_compute. reflexivity. Qed.

(** C4 on the labels Complex, Activation, Complex: the codes are 1, 0, 1,
    Activation before Complex, and not the first-appearance codes 0, 1, 0. *)
Lemma relation_category_not_first_appearance :
  map stmt_type ex_triples = ["Complex"; "Activation"; "Complex"]%string /\
  relation_category ex_triples = [1; 0; 1] /\
  first_appearance_codes (map stmt_type ex_triples) = [0; 1; 0] /\
  relation_category ex_triples <> first_appearance_codes (map stmt_type ex_triples).
Proof.
  repeat (split; [reflexivity|]). discriminate.
Qed.

Lemma relation_category_sorted_rank_witness :
  nth_error ex_triples 0 = Some (mkTriple "A" "B" "Complex") /\
  nth_error (relation_category ex_triples) 0 = Some 1 /\
  nth_error (relation_category ex_triples) 1 = Some 0.
Proof.
  split; [reflexivity|]. split.
  - exact (relation_category_sorted_rank ex_triples 0 _ eq_refl).
  - exact (relation_category_sorted_rank ex_triples 1 _ eq_refl).
Defined.

(** C5, as the code has it.  Source ids and destination ids are sorted
    ranks: among the emitted source ids, and among the emitted destination
    ids, the row whose label sorts first gets the smaller id and equal
    labels get equal ids; ids start at zero. *)
Theorem edge_ids_sorted_order (rows : list triple) (i j : nat) (ti tj : triple) :
  nth_error rows i = Some ti ->
  nth_error rows j = Some tj ->
  exists si sj di dj,
    nth_error (edge_src rows) i = Some si /\
    nth_error (edge_src rows) j = Some sj /\
    nth_error (edge_dst rows) i = Some di /\
    nth_error (edge_dst rows) j = Some dj /\
    0 <= si /\ 0 <= di /\
    (si < sj <-> String.ltb (agent_A ti) (agent_A tj) = true) /\
    (si = sj <-> agent_A ti = agent_A tj) /\
    (di < dj <-> String.ltb (agent_B ti) (agent_B tj) = true) /\
    (di = dj <-> agent_B ti = agent_B tj).
Proof.
  intros Hi Hj.
  assert (HAi : nth_error (map agent_A rows) i = Some (agent_A ti))
    by now rewrite nth_error_map, Hi.
  assert (HAj : nth_error (map agent_A rows) j = Some (agent_A tj))
    by now rewrite nth_error_map, Hj.
  assert (HBi : nth_error (map agent_B rows) i = Some (agent_B ti))
    by now rewrite nth_error_map, Hi.
  assert (HBj : nth_error (map agent_B rows) j = Some (agent_B tj))
    by now rewrite nth_error_map, Hj.
  pose proof (nth_error_In _ _ HAi) as InAi.
  pose proof (nth_error_In _ _ HAj) as InAj.
  pose proof (nth_error_In _ _ HBi) as InBi.
  pose proof (nth_error_In _ _ HBj) as InBj.
  exists (sorted_rank (map agent_A rows) (agent_A ti)),
         (sorted_rank (map agent_A rows) (agent_A tj)),
         (sorted_rank (map agent_B rows) (agent_B ti)),
         (sorted_rank (map agent_B rows) (agent_B tj)).
  unfold edge_src, edge_dst.
  repeat (split; [now apply cat_codes_nth|]).
  split; [apply (sorted_rank_bounds _ _ InAi)|].
  split; [apply (sorted_rank_bounds _ _ InBi)|].
  destruct (sorted_rank_order _ _ _ InAi InAj) as [HA1 HA2].
  destruct (sorted_rank_order _ _ _ InBi InBj) as [HB1 HB2].
  repeat split; try apply HA1; try apply HA2; try apply HB1; try apply HB2.
Qed.

(** C5 on the rows (B, C), (A, B): both id lists are 1, 0, so no mapping
    of labels to ids yields them, let alone the first-appearance one: B
    would be 1 as a subject and 0 as an object. *)
Lemma edge_ids_no_single_mapping :
  edge_src ex_rows_shared = [1; 0] /\
  edge_dst ex_rows_shared = [1; 0] /\
  ~ exists f : string -> Z,
      edge_src ex_rows_shared = map f (map agent_A ex_rows_shared) /\
      edge_dst ex_rows_shared = map f (map agent_B ex_rows_shared).
Proof.
  split; [reflexivity|]. split; [reflexivity|].
  intros (f & Hs & Hd).
  change (edge_src ex_rows_shared) with [1; 0] in Hs.
  change (edge_dst ex_rows_shared) with [1; 0] in Hd.
  cbn in Hs, Hd. injection Hs as HB _. injection Hd as _ HB'.
  rewrite <- HB in HB'. discriminate HB'.
Qed.

Lemma edge_ids_sorted_order_witness :
  exists si sj di dj,
    nth_error (edge_src ex_triples) 0 = Some si /\
    nth_error (edge_src ex_triples) 1 = Some sj /\
    nth_error (edge_dst ex_triples) 0 = Some di /\
    nth_error (edge_dst ex_triples) 1 = Some dj /\
    si < sj /\ dj < di.
Proof.
  destruct (edge_ids_sorted_order ex_triples 0 1 _ _ eq_refl eq_refl)
    as (si & sj & di & dj & Hsi & Hsj & Hdi & Hdj & _ & _ & Hs & _ & _ & _).
  exists si, sj, di, dj. repeat (split; [assumption|]).
  split; [now apply Hs|].
  cbn in Hdi, Hdj. injection Hdi as <-. injection Hdj as <-. reflexivity.
Defined.

(** ** Centrality and edge norms *)

Lemma SFmul_comm (prec emax : Z) (x y : spec_float) :
  SFmul prec emax x y = SFmul prec emax y x.
Proof.
  destruct x as [sx|sx| |sx mx ex], y as [sy|sy| |sy my ey]; cbn;
    try reflexivity; rewrite ?(xorb_comm sx sy); try reflexivity.
  now rewrite (Pos.mul_comm mx my), (Z.add_comm ex ey).
Qed.

(** Multiplication of binary64 floats is commutative. *)
Lemma float_mul_comm (x y : float) : (x * y = y * x)%float.
Proof.
  apply Prim2SF_inj. rewrite !FloatAxioms.mul_spec. apply SFmul_comm.
Qed.

Lemma add_node_nodes (G : DiGraph) (n z : string) :
  In z (nodes (add_node G n)) <-> z = n \/ In z (nodes G).
Proof.
  unfold add_node, has_node. destruct (existsb _ (nodes G)) eqn:E.
  - apply existsb_exists in E as (y & Hy & Heq).
    apply String.eqb_eq in Heq. subst y. intuition congruence.
  - cbn [nodes]. rewrite in_app_iff. cbn. intuition congruence.
Qed.

Lemma add_edge_nodes (G : DiGraph) (u v z : string) :
  In z (nodes (add_edge G u v)) <-> z = u \/ z = v \/ In z (nodes G).
Proof.
  unfold add_edge. destruct (has_arc _ u v); cbn [nodes];
    rewrite !add_node_nodes; intuition.
Qed.

Lemma from_pandas_edgelist_nodes (rows : list triple) (G : DiGraph) (z : string) :
  In z (nodes (fold_left (fun G t => add_edge G (agent_A t) (agent_B t)) rows G))
  <-> In z (nodes G) \/ In z (node_labels rows).
Proof.
  revert G. induction rows as [|t rows IH]; intros G; cbn [fold_left node_labels flat_map].
  - cbn. intuition.
  - rewrite IH, add_edge_nodes. cbn [app In]. unfold node_labels. intuition.
Qed.

Lemma dict_get_map (f : string -> float) (ns : list string) (n : string) :
  In n ns -> dict_get (map (fun n => (n, f n)) ns) n = Ok (f n).
Proof.
  induction ns as [|m ns IH]; intros Hn; [easy|]. cbn.
  destruct (String.eqb_spec n m) as [->|Hne]; [reflexivity|].
  destruct Hn as [Hn|Hn]; [congruence|]. now apply IH.
Qed.

Lemma degree_centrality_get (G : DiGraph) (n : string) :
  In n (nodes G) -> exists c, dict_get (degree_centrality G) n = Ok c.
Proof.
  intros Hn. unfold degree_centrality.
  destruct (length (nodes G) <=? 1)%nat; eexists; now apply dict_get_map.
Qed.

(** C10.  For labels [X] and [Y] that occur in the triples, the norm of a
    row from [X] to [Y] is computed, and it is the norm of a row from [Y]
    to [X]. *)
Theorem edge_norm_symmetric (rows : list triple) (X Y r1 r2 : string) :
  In X (node_labels rows) -> In Y (node_labels rows) ->
  exists n,
    edge_norm_row (degree_centrality (from_pandas_edgelist rows)) (mkTriple X Y r1)
    = Ok n /\
    edge_norm_row (degree_centrality (from_pandas_edgelist rows)) (mkTriple Y X r2)
    = Ok n.
Proof.
  intros HX HY. unfold edge_norm_row. cbn [agent_A agent_B].
  destruct (degree_centrality_get (from_pandas_edgelist rows) X) as [a Ha].
  { apply from_pandas_edgelist_nodes. now right. }
  destruct (degree_centrality_get (from_pandas_edgelist rows) Y) as [b Hb].
  { apply from_pandas_edgelist_nodes. now right. }
  rewrite Ha, Hb. cbn [bind]. exists (PrimFloat.sqrt (a * b)).
  split; [reflexivity|]. now rewrite (float_mul_comm b a).
Qed.

Lemma edge_norm_symmetric_witness :
  exists n,
    edge_norm_row (degree_centrality (from_pandas_edgelist ex_triples))
                  (mkTriple "A" "C" "Complex") = Ok n /\
    edge_norm_row (degree_centrality (from_pandas_edgelist ex_triples))
                  (mkTriple "C" "A" "Complex") = Ok n.
Proof.
  apply (edge_norm_symmetric ex_triples "A" "C" "Complex" "Complex").
  - cbn. left. reflexivity.
  - cbn. do 5 right. left. reflexivity.
Defined.

(** C6, as the code has it.  On the triples A->B, B->A, B->C the graph
    has three nodes, the degrees (arcs out plus arcs in) are 2, 3 and 1,
    the centralities are 1, 1.5 and 0.5, and the norms are
    [sqrt (1 * 1.5)] for A->B and for B->A and [sqrt (1.5 * 0.5)] for
    B->C. *)
Theorem degree_centrality_example :
  let G := from_pandas_edgelist ex_triples in
  nodes G = ["A"; "B"; "C"]%string /\
  (degree G "A", degree G "B", degree G "C") = (2, 3, 1)%nat /\
  degree_centrality G = [("A", 1); ("B", 1.5); ("C", 0.5)]%string%float /\
  edge_norm ex_triples
  = Ok [PrimFloat.sqrt (1 * 1.5); PrimFloat.sqrt (1.5 * 1);
        PrimFloat.sqrt (1.5 * 0.5)]%float /\
  (PrimFloat.sqrt (1 * 1.5) = PrimFloat.sqrt (1.5 * 1))%float.
Proof.
  cbv zeta. repeat split; vm_compute; reflexivity.
Qed.

(** C6 as claimed: centralities 1/2, 1 and 0 with norms [sqrt (0.5 * 1)],
    the same, and 0.  The computed centrality of A is 1. *)
Lemma degree_centrality_not_out_degree :
  let c := degree_centrality (from_pandas_edgelist ex_triples) in
  ~ (dict_get c "A" = Ok 0.5%float /\
     dict_get c "B" = Ok 1%float /\
     dict_get c "C" = Ok 0%float /\
     edge_norm ex_triples
     = Ok [PrimFloat.sqrt (0.5 * 1); PrimFloat.sqrt (1 * 0.5); 0]%float).
Proof.
  cbv zeta. intros (HA & _).
  apply (f_equal (fun r => match r with
                          | Ok x => PrimFloat.ltb 0.5 x
                          | Raise _ => false
                          end)) in HA.
  vm_compute in HA. discriminate HA.
Qed.

(** * Further properties of the layer *)

Section LayerExtras.

Context {F : Type} `{Scalar F}.

(** With [0 < num_bases < num_rels] the constructor keeps the configured
    number of bases and stores that many [in_feat x out_feat] matrices plus
    a [num_rels x num_bases] coefficient matrix; it does return a layer when
    the dimensions are positive and no bias is asked for. *)
Theorem RGCNLayer_init_decomposed
        (v : torch_version) (a : layer_args F) (env : init_env F) :
  0 < a_num_bases a < a_num_rels a ->
  (forall l, RGCNLayer_init v a env = Ok l ->
     num_bases l = a_num_bases a /\
     shape (weight l) = [a_num_bases a; a_in_feat a; a_out_feat a] /\
     numel (weight l) = a_num_bases a * a_in_feat a * a_out_feat a /\
     exists c, w_comp l = Some c /\
               shape c = [a_num_rels a; a_num_bases a] /\
               numel c = a_num_rels a * a_num_bases a)
  /\ (0 < a_in_feat a -> 0 < a_out_feat a -> a_bias a = false ->
      exists l, RGCNLayer_init v a env = Ok l).
Proof.
  intros HB.
  assert (Hclamp : clamp_bases (a_num_bases a) (a_num_rels a) = a_num_bases a).
  { unfold clamp_bases.
    destruct ((a_num_bases a <=? 0) || (a_num_bases a >? a_num_rels a))%bool eqn:E;
      [|reflexivity].
    zbool. lia. }
  split.
  - intros l Hl. apply RGCNLayer_init_inv in Hl. cbv zeta in Hl.
    rewrite Hclamp in Hl.
    destruct Hl as (_ & _ & _ & Hnb & _ & _ & (w0 & Hw0 & Hw1) & Hc & _).
    replace (a_num_bases a <? a_num_rels a) with true in Hc
      by (symmetry; apply Z.ltb_lt; lia).
    destruct Hc as (c0 & c1 & Hc0 & Hc1 & Hwc).
    apply torch_Tensor_shape in Hw0 as (Hs0 & _ & Hn0).
    apply xavier_uniform__shape in Hw1 as (Hs1 & Hn1).
    apply torch_Tensor_shape in Hc0 as (Hsc0 & _ & Hnc0).
    apply xavier_uniform__shape in Hc1 as (Hsc1 & Hnc1).
    split; [assumption|]. split; [congruence|].
    split; [rewrite Hn1, Hn0; cbn; lia|].
    exists c1. split; [assumption|]. split; [congruence|].
    rewrite Hnc1, Hnc0. cbn. lia.
  - intros. apply RGCNLayer_init_ok; try assumption. lia.
Qed.

(** What the decomposed forward pass computes.  Entry [(r, i, o)] of the
    rebuilt weight is a combination of basis entries, but with the flat row
    number [k = r * in_feat + i] split the other way round: the coefficient
    row is [k mod num_rels] and the basis row is [k / num_rels]. *)
Theorem forward_weight_decomposed_entries
        (v : torch_version) (a : layer_args F) (env : init_env F)
        (l : RGCNLayer F) (c : tensor F) (r i o : nat) :
  RGCNLayer_init v a env = Ok l ->
  num_bases l < num_rels l ->
  w_comp l = Some c ->
  (r < Z.to_nat (num_rels l))%nat ->
  (i < Z.to_nat (in_feat l))%nat ->
  (o < Z.to_nat (out_feat l))%nat ->
  exists w,
    forward_weight l = Ok w /\
    shape w = [num_rels l; in_feat l; out_feat l] /\
    let R := Z.to_nat (num_rels l) in
    let B := Z.to_nat (num_bases l) in
    let I := Z.to_nat (in_feat l) in
    let O := Z.to_nat (out_feat l) in
    let k := (r * I + i)%nat in
    getF (data w) (k * O + o)
    = dot B (fun b => getF (data c) ((k mod R) * B + b)%nat)
            (fun b => getF (data (weight l)) (((k / R) * B + b) * O + o)%nat).
Proof.
  intros Hl HB Hc Hr Hi Ho.
  pose proof (RGCNLayer_init_inv v a env l Hl) as Hinv. cbv zeta in Hinv.
  destruct Hinv as (Hin & Hout & Hrel & Hnb & _ & _ & (w0 & Hw0 & Hw1) & Hcc & _).
  rewrite <- Hin, <- Hout, <- Hrel in *. rewrite <- Hnb in Hw0, Hcc.
  replace (num_bases l <? num_rels l) with true in Hcc
    by (symmetry; apply Z.ltb_lt; lia).
  destruct Hcc as (c0 & c1 & Hc0 & Hc1 & Hwc).
  assert (c1 = c) by congruence. subst c1.
  pose proof (torch_Tensor_shape _ _ _ Hw0) as (Hs0 & Hpos & Hn0).
  pose proof (xavier_uniform__shape _ _ _ _ Hw1) as (Hs1 & Hn1).
  rewrite Hs0 in Hs1. rewrite Hn0 in Hn1. cbn [prodZ fold_right] in Hn1.
  inversion Hpos as [|? ? Hnb0 Hpos1]; subst.
  inversion Hpos1 as [|? ? Hi0 Hpos2]; subst.
  inversion Hpos2 as [|? ? Ho0 _]; subst.
  pose proof (torch_Tensor_shape _ _ _ Hc0) as (Hsc0 & _ & _).
  pose proof (xavier_uniform__shape _ _ _ _ Hc1) as (Hsc1 & _).
  rewrite Hsc0 in Hsc1.
  unfold forward_weight.
  replace (num_bases l <? num_rels l) with true by (symmetry; apply Z.ltb_lt; lia).
  rewrite (view_plain (weight l) [in_feat l; num_bases l; out_feat l])
    by (repeat constructor; try assumption; rewrite Hn1; cbn; lia).
  cbn [bind]. rewrite Hc.
  cbn [bind]. unfold matmul at 1. cbn [shape data]. rewrite Hsc1, Z.eqb_refl.
  cbn [bind].
  match goal with |- context [view ?t _] => set (w2 := t) end.
  assert (Hn2 : numel w2 = in_feat l * num_rels l * out_feat l).
  { destruct (matmul_shape c (mkTensor [in_feat l; num_bases l; out_feat l]
                                        (data (weight l)))
                (num_rels l) (num_bases l) (in_feat l) (out_feat l)
                Hsc1 eq_refl ltac:(lia) Hi0 Ho0) as (w2' & Hw2 & _ & Hn2).
    unfold matmul in Hw2. cbn [shape data] in Hw2.
    rewrite Hsc1, Z.eqb_refl in Hw2. injection Hw2 as <-. exact Hn2. }
  rewrite (view_plain w2 [num_rels l; in_feat l; out_feat l])
    by (repeat constructor; try lia; rewrite Hn2; cbn; lia).
  eexists. split; [reflexivity|]. split; [reflexivity|].
  cbv zeta. cbn [data]. subst w2. cbn [data].
  set (R := Z.to_nat (num_rels l)) in *. set (B := Z.to_nat (num_bases l)) in *.
  set (I := Z.to_nat (in_feat l)) in *. set (O := Z.to_nat (out_feat l)) in *.
  set (k := (r * I + i)%nat).
  assert (HR : (0 < R)%nat) by lia.
  assert (Hk : (k < R * I)%nat) by (subst k; nia).
  assert (Hdiv : (k / R < I)%nat) by (apply Nat.Div0.div_lt_upper_bound; lia).
  assert (Hmod : (k mod R < R)%nat) by (apply Nat.mod_upper_bound; lia).
  assert (Hsplit : (k * O + o = (k / R) * (R * O) + ((k mod R) * O + o))%nat).
  { pose proof (Nat.div_mod_eq k R). nia. }
  rewrite Hsplit. unfold getF at 1.
  rewrite (nth_flat_map_const _ _ (R * O) (k / R) _ Fzero O);
    [| intros x; rewrite (length_flat_map_const _ _ O);
       [now rewrite length_seq | intros; now rewrite length_map, length_seq]
     | now rewrite length_seq | nia].
  rewrite seq_nth by assumption. cbn [Nat.add].
  rewrite (nth_flat_map_const _ _ O (k mod R) _ Fzero O);
    [| intros; now rewrite length_map, length_seq
     | now rewrite length_seq | assumption].
  rewrite seq_nth by assumption. cbn [Nat.add].
  now rewrite nth_map_seq by assumption.
Qed.


(** Success and shape of one layer's forward pass. *)
Lemma forward_ok
        (ir : index_rule) (v : torch_version) (a : layer_args F) (env : init_env F)
        (l : RGCNLayer F) (g : DGLGraph F) :
  RGCNLayer_init v a env = Ok l ->
  graph_ready ir l g ->
  (forall act, activation l = Some act -> keeps_matrices act) ->
  exists h,
    forward ir l g
    = Ok (mkGraph (number_of_nodes g) (edges g) (rel_dtype g) (norm_layout g)
                  (norm_dtype g) (ndata_id g)
                  (Some (mkFT (promote Float32 (norm_dtype g)) h)))
    /\ shape h = [Z.of_nat (number_of_nodes g); out_feat l]
    /\ tensor_wf h.
Proof.
  intros Hl Hready Hact.
  destruct (forward_weight_constructed v a env l Hl) as (Ho & _).
  destruct (aggregate_per_edge ir v a env l g Hl Hready) as (w & Hw & Hagg & Hlen).
  destruct (node_sums_shape _ _ g Hlen) as (_ & _ & Hcat).
  set (t0 := mkTensor [Z.of_nat (number_of_nodes g); out_feat l]
               (concat (node_sums (Z.to_nat (out_feat l)) (spec_message l w g) g)))
    in *.
  assert (Hwf0 : tensor_wf t0).
  { split; [repeat constructor; lia|]. unfold numel. cbn [t0 data shape].
    rewrite Hcat. cbn [prodZ fold_right]. rewrite Nat2Z.inj_mul, Z2Nat.id by lia.
    lia. }
  assert (Happ : exists h, apply_func l (mkFT (promote Float32 (norm_dtype g)) t0)
                           = Ok (mkFT (promote Float32 (norm_dtype g)) h)
                           /\ shape h = [Z.of_nat (number_of_nodes g); out_feat l]
                           /\ tensor_wf h).
  { rewrite (apply_func_constructed v a env l _ Hl). cbn [ft ft_dtype].
    destruct (activation l) as [act|] eqn:Ea.
    - destruct (Hact act eq_refl t0 _ _ eq_refl Hwf0) as (t' & Ht' & Hs' & Hwf').
      exists t'. rewrite Ht'. cbn [bind].
      split; [reflexivity|]. split; [exact Hs'|exact Hwf'].
    - exists t0. split; [reflexivity|]. split; [reflexivity|exact Hwf0]. }
  destruct Happ as (h & Happ & Hsh & Hwfh).
  exists h. unfold forward. rewrite Hw. cbn [bind]. rewrite Hagg. cbn [bind].
  rewrite Happ. cbn [bind]. unfold set_ndata_h. cbn [ft]. rewrite Hsh, Z.eqb_refl.
  split; [reflexivity|]. split; [reflexivity|exact Hwfh].
Qed.

(** The forward pass of a constructed layer succeeds on every graph that
    is ready for it: norms stored as a column, relation ids in
    [[0, num_rels)] and sources in [[0, N)]; for an input layer the ids
    [0 .. N-1], [in_feat = N] and [num_rels * in_feat] at most the largest
    value of the type of [rel_type] plus one; for any other layer an index
    type the library accepts, a single-precision ['h'] frame of shape
    [N x in_feat], and [out_feat] other than 1.  Nodes, edges and ids stay
    as they are and the new ['h'] frame has shape [N x out_feat], provided
    the activation maps a matrix to a matrix of the same shape. *)
Theorem forward_total
        (ir : index_rule) (v : torch_version) (a : layer_args F) (env : init_env F)
        (l : RGCNLayer F) (g : DGLGraph F) :
  RGCNLayer_init v a env = Ok l ->
  graph_ready ir l g ->
  (forall act, activation l = Some act -> keeps_matrices act) ->
  exists h,
    forward ir l g
    = Ok (mkGraph (number_of_nodes g) (edges g) (rel_dtype g) (norm_layout g)
                  (norm_dtype g) (ndata_id g)
                  (Some (mkFT (promote Float32 (norm_dtype g)) h)))
    /\ shape h = [Z.of_nat (number_of_nodes g); out_feat l]
    /\ tensor_wf h.
Proof.
  intros Hl Hready Hact. now apply (forward_ok ir v a env).
Qed.

Lemma frame_create_features_inv (n : nat) (i x : Z) :
  frame (Some (create_features n)) i = Ok x -> x = i /\ 0 <= i < Z.of_nat n.
Proof.
  unfold frame, create_features. intros Hf.
  destruct (i <? 0) eqn:E; [discriminate|]. apply Z.ltb_ge in E.
  rewrite nth_error_map, nth_error_seq in Hf.
  destruct (Z.to_nat i <? n)%nat eqn:En; [|discriminate].
  apply Nat.ltb_lt in En. cbn in Hf. injection Hf as <-. lia.
Qed.

(** A relation id of [num_rels] or more makes the forward pass raise, in a
    layer other than the input layer whatever the graph holds, and in an
    input layer run on the ids [0 .. N-1] when the row number the edge asks
    for does not wrap in the type of [rel_type]. *)
Theorem forward_rejects_large_relation
        (ir : index_rule) (v : torch_version) (a : layer_args F) (env : init_env F)
        (l : RGCNLayer F) (g : DGLGraph F) (e : edge F) :
  RGCNLayer_init v a env = Ok l ->
  In e (edges g) ->
  num_rels l <= rel_type e ->
  (is_input_layer l = true ->
   ndata_id g = Some (create_features (number_of_nodes g))
   /\ rel_type e * in_feat l + Z.of_nat (number_of_nodes g)
      <= 2 ^ (int_bits (rel_dtype g) - 1)) ->
  raises (forward ir l g).
Proof.
  intros Hl He Hrel Hin.
  destruct (forward_weight_constructed v a env l Hl) as (Ho & w & Hw & Hs & Hwf).
  destruct Hwf as [Hpos Hn]. rewrite Hs in Hpos, Hn.
  inversion Hpos as [|? ? HR Hpos1]; subst.
  inversion Hpos1 as [|? ? HI _]; subst.
  cbn [prodZ fold_right] in Hn.
  unfold forward. rewrite Hw. cbn [bind]. unfold aggregate, message_func.
  destruct (is_input_layer l) eqn:Hmode.
  - destruct (Hin eq_refl) as [Hids Hfit]. unfold message_input.
    rewrite (view_rows w (num_rels l * in_feat l) (out_feat l)) by lia.
    cbn [bind]. destruct (edges_src_id g) as [ids|x] eqn:Eids; [|now exists x].
    cbn [bind]. unfold edges_src_id in Eids. rewrite Hids in Eids.
    assert (Hpair : In (rel_type e, src e)
                       (combine (edata_rel_type g) (map src (edges g)))).
    { unfold edata_rel_type. rewrite combine_map_map.
      apply in_map_iff. exists e. split; [reflexivity|assumption]. }
    destruct (mapM_combine_In _ _ _ _ _ _ Eids Hpair) as (id & Hid & Hin').
    apply frame_create_features_inv in Hid as [-> Hsrc].
    pose proof (int_bits_le_64 (rel_dtype g)) as H64.
    rewrite (index_rows_out_of_range _ (num_rels l * in_feat l) [out_feat l] _
               (rel_type e * in_feat l + src e)).
    + now exists IndexError.
    + reflexivity.
    + apply in_map_iff. exists (rel_type e, src e). split; [|assumption].
      cbn [fst snd]. rewrite (wrap_small (rel_dtype g)) by nia.
      apply wrap_small. nia.
    + nia.
  - unfold message_hidden.
    destruct (index_dtype_ok ir (rel_dtype g)); [|now exists IndexError].
    rewrite (index_rows_out_of_range w (num_rels l) [in_feat l; out_feat l] _
               (rel_type e)).
    + now exists IndexError.
    + assumption.
    + unfold edata_rel_type. now apply in_map.
    + lia.
Qed.

(** Relation ids in [[-num_rels, 0)] are not rejected: indexing counts
    them from the end, so the batch of messages is the one of the graph in
    which every relation id [r] is replaced by [r mod num_rels].  For an
    input layer the graph carries the ids [0 .. N-1], [in_feat] is the node
    count and [num_rels * in_feat] does not exceed the largest value of the
    type of [rel_type] plus one. *)
Theorem message_func_negative_relation
        (ir : index_rule) (v : torch_version) (a : layer_args F) (env : init_env F)
        (l : RGCNLayer F) (w : tensor F) (g : DGLGraph F) :
  RGCNLayer_init v a env = Ok l ->
  forward_weight l = Ok w ->
  (forall e, In e (edges g) -> - num_rels l <= rel_type e < num_rels l) ->
  (is_input_layer l = true ->
   ndata_id g = Some (create_features (number_of_nodes g))
   /\ in_feat l = Z.of_nat (number_of_nodes g)
   /\ (forall e, In e (edges g) -> 0 <= src e < Z.of_nat (number_of_nodes g))
   /\ num_rels l * in_feat l <= 2 ^ (int_bits (rel_dtype g) - 1)) ->
  message_func ir l w g
  = message_func ir l w
      (with_edges g
         (map (fun e => mkEdge (src e) (dst e) (rel_type e mod num_rels l) (norm e))
              (edges g))).
Proof.
  intros Hl Hw Hrel Hin.
  destruct (forward_weight_constructed v a env l Hl) as (Ho & w' & Hw' & Hs & Hwf).
  assert (w' = w) by congruence. subst w'.
  destruct Hwf as [Hpos Hn]. rewrite Hs in Hpos, Hn.
  inversion Hpos as [|? ? HR Hpos1]; subst.
  inversion Hpos1 as [|? ? HI _]; subst.
  cbn [prodZ fold_right] in Hn.
  assert (Hmod : forall e, In e (edges g) ->
            rel_type e mod num_rels l
            = if rel_type e <? 0 then rel_type e + num_rels l else rel_type e).
  { intros e He. specialize (Hrel e He).
    destruct (rel_type e <? 0) eqn:E; zbool.
    - symmetry. apply (Z.mod_unique _ _ (-1)); lia.
    - apply Z.mod_small. lia. }
  assert (Hmodpos : forall e, In e (edges g) ->
            0 <= rel_type e mod num_rels l < num_rels l).
  { intros e He. specialize (Hrel e He). apply Z.mod_pos_bound. lia. }
  set (g' := with_edges g _).
  assert (Hsrc' : map src (edges g') = map src (edges g)).
  { unfold g'. cbn [with_edges edges]. rewrite map_map. reflexivity. }
  assert (Hnorm' : edata_norm g' = edata_norm g).
  { unfold edata_norm, g'. cbn [with_edges edges norm_layout].
    rewrite length_map, map_map. reflexivity. }
  assert (Hrel' : edata_rel_type g'
                  = map (fun e => rel_type e mod num_rels l) (edges g)).
  { unfold edata_rel_type, g'. cbn [with_edges edges]. rewrite map_map.
    reflexivity. }
  unfold message_func. destruct (is_input_layer l) eqn:Hmode.
  - destruct (Hin eq_refl) as (Hids & HN & Hsrc & Hfit).
    unfold message_input. rewrite Hnorm', Hrel'.
    change (rel_dtype g') with (rel_dtype g).
    change (norm_dtype g') with (norm_dtype g).
    rewrite (view_rows w (num_rels l * in_feat l) (out_feat l)) by lia.
    cbn [bind]. unfold edges_src_id. rewrite Hsrc'.
    change (ndata_id g') with (ndata_id g).
    fold (edges_src_id g). rewrite (edges_src_id_create_features g Hids Hsrc).
    cbn [bind]. unfold edata_rel_type. rewrite !combine_map_map, !map_map.
    cbn [fst snd].
    pose proof (int_bits_le_64 (rel_dtype g)) as H64.
    rewrite (map_ext_in _ (fun e => rel_type e * in_feat l + src e)).
    2:{ intros e He. specialize (Hrel e He). specialize (Hsrc e He).
        rewrite (wrap_small (rel_dtype g)) by nia. apply wrap_small. nia. }
    rewrite (map_ext_in
               (fun e => wrap Int64 (wrap (rel_dtype g)
                                       (rel_type e mod num_rels l * in_feat l) + src e))
               (fun e => rel_type e mod num_rels l * in_feat l + src e)).
    2:{ intros e He. specialize (Hmodpos e He). specialize (Hsrc e He).
        rewrite (wrap_small (rel_dtype g)) by nia. apply wrap_small. nia. }
    rewrite !(index_rows_in_range _ (num_rels l * in_feat l) [out_feat l]);
      try reflexivity.
    2:{ intros i Hi. apply in_map_iff in Hi as (e & <- & He).
        specialize (Hmodpos e He). specialize (Hsrc e He). nia. }
    2:{ intros i Hi. apply in_map_iff in Hi as (e & <- & He).
        specialize (Hrel e He). specialize (Hsrc e He). nia. }
    cbn [bind]. rewrite !length_map, !flat_map_map.
    rewrite (flat_map_ext_in _
               (fun e => slice (Z.to_nat (rel_type e mod num_rels l * in_feat l + src e)
                                * Z.to_nat (prodZ [out_feat l]))
                               (Z.to_nat (prodZ [out_feat l])) (data w))).
    + rewrite (flat_map_ext_in
                 (fun e => slice (Z.to_nat
                                    (if rel_type e mod num_rels l * in_feat l + src e <? 0
                                     then rel_type e mod num_rels l * in_feat l + src e
                                          + num_rels l * in_feat l
                                     else rel_type e mod num_rels l * in_feat l + src e)
                                  * Z.to_nat (prodZ [out_feat l]))
                                 (Z.to_nat (prodZ [out_feat l])) (data w))
                 (fun e => slice (Z.to_nat (rel_type e mod num_rels l * in_feat l + src e)
                                  * Z.to_nat (prodZ [out_feat l]))
                                 (Z.to_nat (prodZ [out_feat l])) (data w))).
      * reflexivity.
      * intros e He. specialize (Hmodpos e He). specialize (Hsrc e He).
        replace (rel_type e mod num_rels l * in_feat l + src e <? 0) with false
          by (symmetry; apply Z.ltb_ge; nia).
        reflexivity.
    + intros e He. cbn [data]. rewrite (Hmod e He).
      specialize (Hrel e He). specialize (Hsrc e He).
      destruct (rel_type e <? 0) eqn:E; zbool.
      * replace (rel_type e * in_feat l + src e <? 0) with true
          by (symmetry; apply Z.ltb_lt; nia).
        do 3 f_equal. lia.
      * replace (rel_type e * in_feat l + src e <? 0) with false
          by (symmetry; apply Z.ltb_ge; nia).
        reflexivity.
  - unfold message_hidden. rewrite Hnorm', Hrel'.
    change (rel_dtype g') with (rel_dtype g).
    change (norm_dtype g') with (norm_dtype g).
    unfold edges_src_h. rewrite Hsrc'. change (ndata_h g') with (ndata_h g).
    destruct (index_dtype_ok ir (rel_dtype g)); [|reflexivity].
    unfold edata_rel_type.
    rewrite !(index_rows_in_range w (num_rels l) [in_feat l; out_feat l]);
      try assumption.
    2:{ intros i Hi. apply in_map_iff in Hi as (e & <- & He).
        specialize (Hmodpos e He). lia. }
    2:{ intros i Hi. apply in_map_iff in Hi as (e & <- & He).
        specialize (Hrel e He). lia. }
    rewrite !length_map, !flat_map_map.
    rewrite (flat_map_ext_in
               (fun e => slice (Z.to_nat
                                  (if rel_type e mod num_rels l <? 0
                                   then rel_type e mod num_rels l + num_rels l
                                   else rel_type e mod num_rels l)
                                * Z.to_nat (prodZ [in_feat l; out_feat l]))
                               (Z.to_nat (prodZ [in_feat l; out_feat l])) (data w))
               (fun e => slice (Z.to_nat
                                  (if rel_type e <? 0 then rel_type e + num_rels l
                                   else rel_type e)
                                * Z.to_nat (prodZ [in_feat l; out_feat l]))
                               (Z.to_nat (prodZ [in_feat l; out_feat l])) (data w))).
    + reflexivity.
    + intros e He. specialize (Hmodpos e He).
      replace (rel_type e mod num_rels l <? 0) with false
        by (symmetry; apply Z.ltb_ge; lia).
      now rewrite (Hmod e He).
Qed.

(** In every layout of the edge data: when the layer computes the per-node
    sums, they form a tensor with one block per node, and the block of a
    node that no edge points to is all zeros. *)
Theorem aggregate_no_incoming_edge
        (ir : index_rule) (l : RGCNLayer F) (w : tensor F) (g : DGLGraph F)
        (sums : ftensor F) (n : nat) :
  aggregate ir l w g = Ok sums ->
  (n < number_of_nodes g)%nat ->
  (forall e, In e (edges g) -> dst e <> Z.of_nat n) ->
  exists tail,
    shape (ft sums) = Z.of_nat (number_of_nodes g) :: tail /\
    let width := prod_nat (map Z.to_nat tail) in
    length (data (ft sums)) = (number_of_nodes g * width)%nat /\
    slice (n * width) width (data (ft sums)) = zeros width.
Proof.
  intros Hagg Hn Hdst. unfold aggregate in Hagg.
  apply bind_Ok in Hagg as (msg & Hmsg & Hred).
  assert (Hwf : length (data (ft msg)) = prod_nat (map Z.to_nat (shape (ft msg)))).
  { unfold message_func in Hmsg. destruct (is_input_layer l).
    - unfold message_input in Hmsg.
      apply bind_Ok in Hmsg as (embed & _ & Hmsg).
      apply bind_Ok in Hmsg as (ids & _ & Hmsg).
      apply bind_Ok in Hmsg as (rows & _ & Hmsg).
      apply bind_Ok in Hmsg as (m & Hm & [= <-]).
      cbn [ft]. exact (broadcast_length _ _ _ _ Hm).
    - unfold message_hidden in Hmsg.
      apply bind_Ok in Hmsg as (wr & _ & Hmsg).
      apply bind_Ok in Hmsg as (h & _ & Hmsg).
      apply bind_Ok in Hmsg as (h1 & _ & Hmsg).
      apply bind_Ok in Hmsg as (m0 & _ & Hmsg).
      apply bind_Ok in Hmsg as (m & Hm & [= <-]).
      cbn [ft]. exact (broadcast_length _ _ _ _ Hm). }
  unfold reduce_sum in Hred. cbv zeta in Hred.
  set (tail := tl (shape (ft msg))) in *.
  set (width := prod_nat (map Z.to_nat tail)) in *.
  set (mailbox := combine (map dst (edges g))
                          (rows_of width (length (edges g)) (data (ft msg)))) in *.
  destruct ((length (edges g) =? 0)%nat
            || match shape (ft msg) with
               | d0 :: _ => d0 =? Z.of_nat (length (edges g))
               | [] => false
               end)%bool eqn:Eok; [|discriminate].
  injection Hred as <-. cbn [ft shape data].
  exists tail. split; [reflexivity|]. cbv zeta. fold width.
  assert (Hrows : Forall (fun m => length (snd m) = width) mailbox).
  { apply Forall_forall. intros [d r] Hp. cbn [snd].
    apply in_combine_r in Hp. unfold rows_of in Hp.
    apply in_map_iff in Hp as (i & <- & Hi). apply in_seq in Hi.
    apply length_slice.
    destruct (length (edges g)) as [|E'] eqn:EE; [lia|].
    cbn [Nat.eqb orb] in Eok.
    destruct (shape (ft msg)) as [|d0 rest] eqn:Esh; [discriminate|].
    apply Z.eqb_eq in Eok. rewrite Hwf. cbn [map prod_nat fold_right].
    subst d0. rewrite Nat2Z.id. subst width tail. cbn [tl]. unfold prod_nat.
    nia. }
  assert (Hlen : forall v, length (fn_sum width mailbox (Z.of_nat v)) = width).
  { intros v. now apply length_fn_sum. }
  split.
  - rewrite (length_flat_map_const _ _ width) by exact Hlen.
    now rewrite length_seq.
  - rewrite (slice_flat_map_const _ _ width n O Hlen)
      by now rewrite length_seq.
    rewrite seq_nth by assumption. cbn [Nat.add]. unfold fn_sum.
    replace (filter (fun m => fst m =? Z.of_nat n) mailbox) with (@nil (Z * list F));
      [reflexivity|].
    symmetry. destruct (filter _ mailbox) as [|p ps] eqn:Ef; [reflexivity|]. exfalso.
    assert (Hp : In p (filter (fun m => fst m =? Z.of_nat n) mailbox))
      by (rewrite Ef; now left).
    apply filter_In in Hp as [Hp Heq]. apply Z.eqb_eq in Heq.
    destruct p as [d r]. cbn [fst] in Heq. apply in_combine_l in Hp.
    apply in_map_iff in Hp as (e & <- & He). exact (Hdst e He Heq).
Qed.

End LayerExtras.
(** * The activations *)

Lemma F_relu_keeps_matrices {F : Type} `{Scalar F} (relu1 : F -> F) :
  keeps_matrices (F_relu relu1).
Proof.
  intros t n k Hs [Hpos Hn]. eexists. split; [reflexivity|]. cbn [shape].
  split; [assumption|]. split; cbn [shape data]; [assumption|].
  unfold numel in *. cbn [data]. now rewrite length_map.
Qed.

Lemma F_softmax_keeps_matrices {F : Type} `{Scalar F} (softmax1 : list F -> list F) :
  keeps_matrices (F_softmax softmax1).
Proof.
  intros t n k Hs [Hpos Hn]. unfold F_softmax. rewrite Hs.
  eexists. split; [reflexivity|]. cbn [shape]. split; [reflexivity|].
  rewrite Hs in Hpos, Hn. split; cbn [shape data]; [assumption|].
  inversion Hpos as [|? ? Hn0 Hpos1]; subst.
  inversion Hpos1 as [|? ? Hk0 _]; subst.
  unfold numel in *. cbn [data map prod_nat fold_right].
  rewrite (length_flat_map_const _ _ (Z.to_nat k)).
  - rewrite length_seq, Nat2Z.inj_mul, !Z2Nat.id by lia. cbn [prodZ fold_right]. lia.
  - intros i. rewrite (length_flat_map_const _ _ 1%nat).
    + rewrite length_seq. lia.
    + intros j. now rewrite length_map, length_seq.
Qed.

(** * The model *)

Section ModelFacts.

Context {F : Type} `{Scalar F}.

Variable relu : tensor F -> result (tensor F).
Variable softmax : tensor F -> result (tensor F).

Lemma run_layers_app (ir : index_rule) (ls1 ls2 : list (RGCNLayer F))
      (g : DGLGraph F) :
  run_layers ir (ls1 ++ ls2) g
  = (g' <- run_layers ir ls1 g ;; run_layers ir ls2 g').
Proof.
  revert g. induction ls1 as [|l ls1 IH]; intros g; cbn [app run_layers bind].
  - reflexivity.
  - destruct (forward ir l g) as [g'|e]; cbn [bind]; [apply IH|reflexivity].
Qed.

(** What a constructed model consists of. *)
Lemma Model_init_inv
        (v : torch_version) (a : model_args) (env : model_env F) (m : Model F) :
  Model_init relu softmax v a env = Ok m ->
  exists i2h h2hs h2o,
    layers m = i2h :: h2hs ++ [h2o] /\
    length h2hs = Z.to_nat (ma_num_hidden_layers a) /\
    (is_input_layer i2h = true /\ in_feat i2h = ma_num_nodes a
     /\ out_feat i2h = ma_h_dim a /\ activation i2h = Some relu) /\
    Forall (fun l => is_input_layer l = false /\ in_feat l = ma_h_dim a
                     /\ out_feat l = ma_h_dim a /\ activation l = Some relu) h2hs /\
    (is_input_layer h2o = false /\ in_feat h2o = ma_h_dim a
     /\ out_feat h2o = ma_out_dim a /\ activation h2o = Some softmax) /\
    Forall (fun l => num_rels l = ma_num_rels a
                     /\ exists a' env', RGCNLayer_init v a' env' = Ok l)
           (layers m) /\
    0 <= ma_num_nodes a /\
    features m = create_features (Z.to_nat (ma_num_nodes a)).
Proof.
  unfold Model_init, build_model. intros Hm.
  apply bind_Ok in Hm as (ls & Hls & Hm).
  apply bind_Ok in Hm as (fs & Hfs & [= <-]).
  apply bind_Ok in Hls as (i2h & Hi & Hls).
  apply bind_Ok in Hls as (h2hs & Hh & Hls).
  apply bind_Ok in Hls as (h2o & Ho & [= <-]).
  cbn [layers features].
  unfold Model_create_features in Hfs.
  destruct (ma_num_nodes a <? 0) eqn:EN; [discriminate|]. injection Hfs as <-.
  apply Z.ltb_ge in EN.
  destruct (mapM_length _ _ _ Hh) as [Hlen Hin]. rewrite length_seq in Hlen.
  exists i2h, h2hs, h2o. split; [reflexivity|]. split; [assumption|].
  pose proof (RGCNLayer_init_inv _ _ _ _ Hi) as Ii. cbv zeta in Ii.
  pose proof (RGCNLayer_init_inv _ _ _ _ Ho) as Io. cbv zeta in Io.
  cbn [a_in_feat a_out_feat a_num_rels a_activation a_is_input_layer] in Ii, Io.
  destruct Ii as (Ii1 & Ii2 & Ii3 & _ & Ii5 & Ii6 & _).
  destruct Io as (Io1 & Io2 & Io3 & _ & Io5 & Io6 & _).
  split; [repeat split; assumption|].
  split.
  { apply Forall_forall. intros l Hl. destruct (Hin l Hl) as (k & _ & Hk).
    pose proof (RGCNLayer_init_inv _ _ _ _ Hk) as Ik. cbv zeta in Ik.
    cbn [a_in_feat a_out_feat a_num_rels a_activation a_is_input_layer] in Ik.
    destruct Ik as (Ik1 & Ik2 & _ & _ & Ik5 & Ik6 & _). repeat split; assumption. }
  split; [repeat split; assumption|].
  split; [|split; [assumption|reflexivity]].
  constructor; [split; [assumption|eauto]|].
  apply Forall_app. split.
  - apply Forall_forall. intros l Hl. destruct (Hin l Hl) as (k & _ & Hk).
    pose proof (RGCNLayer_init_inv _ _ _ _ Hk) as Ik. cbv zeta in Ik.
    cbn [a_num_rels] in Ik. destruct Ik as (_ & _ & Ik3 & _). split; [assumption|eauto].
  - constructor; [|constructor]. split; [assumption|eauto].
Qed.

(** [Model.__init__] builds [num_hidden_layers + 2] layers (two when the
    count is not positive): one input layer from [num_nodes] to [h_dim],
    hidden layers from [h_dim] to [h_dim], one output layer from [h_dim] to
    [out_dim], so each layer's output width is the next layer's input
    width; all share [num_rels], and the feature vector is the node ids
    [0 .. num_nodes - 1]. *)
Theorem Model_init_structure
        (v : torch_version) (a : model_args) (env : model_env F) (m : Model F) :
  Model_init relu softmax v a env = Ok m ->
  exists i2h h2hs h2o,
    layers m = i2h :: h2hs ++ [h2o] /\
    length h2hs = Z.to_nat (ma_num_hidden_layers a) /\
    (is_input_layer i2h = true /\ in_feat i2h = ma_num_nodes a
     /\ out_feat i2h = ma_h_dim a /\ activation i2h = Some relu) /\
    Forall (fun l => is_input_layer l = false /\ in_feat l = ma_h_dim a
                     /\ out_feat l = ma_h_dim a /\ activation l = Some relu) h2hs /\
    (is_input_layer h2o = false /\ in_feat h2o = ma_h_dim a
     /\ out_feat h2o = ma_out_dim a /\ activation h2o = Some softmax) /\
    Forall (fun l => num_rels l = ma_num_rels a
                     /\ exists a' env', RGCNLayer_init v a' env' = Ok l)
           (layers m) /\
    0 <= ma_num_nodes a /\
    features m = create_features (Z.to_nat (ma_num_nodes a)).
Proof.
  intros Hm. exact (Model_init_inv v a env m Hm).
Qed.



Lemma run_hidden_layers (ir : index_rule) (v : torch_version) (d R : Z)
      (ls : list (RGCNLayer F)) :
  Forall (fun l => (exists a' env', RGCNLayer_init v a' env' = Ok l)
                   /\ is_input_layer l = false /\ in_feat l = d /\ out_feat l = d
                   /\ d <> 1 /\ num_rels l = R
                   /\ (forall act, activation l = Some act -> keeps_matrices act)) ls ->
  forall (g : DGLGraph F) (h : tensor F),
    norm_layout g = NormColumn -> norm_dtype g = Float32 ->
    index_dtype_ok ir (rel_dtype g) = true ->
    (forall e, In e (edges g) ->
       0 <= rel_type e < R /\ 0 <= src e < Z.of_nat (number_of_nodes g)) ->
    ndata_h g = Some (mkFT Float32 h) ->
    shape h = [Z.of_nat (number_of_nodes g); d] -> tensor_wf h ->
    exists h',
      run_layers ir ls g
      = Ok (mkGraph (number_of_nodes g) (edges g) (rel_dtype g) (norm_layout g)
                    (norm_dtype g) (ndata_id g) (Some (mkFT Float32 h')))
      /\ shape h' = [Z.of_nat (number_of_nodes g); d] /\ tensor_wf h'.
Proof.
  induction 1 as [|l ls Hl _ IH]; intros g h Hcol Hdt Hidx Hedges Hh Hsh Hwf.
  - exists h. cbn [run_layers]. destruct g as [n es rd nl nd ids hh]. cbn in *.
    subst hh. split; [reflexivity|]. split; assumption.
  - destruct Hl as ((a' & env' & Hinit) & Hmode & Hin & Hout & Hd & HR & Hact).
    destruct (forward_ok ir v a' env' l g Hinit) as (h1 & Hfw & Hsh1 & Hwf1).
    + split; [assumption|]. split; [now rewrite HR|]. rewrite Hmode.
      split; [assumption|]. split; [now rewrite Hout|].
      exists h. split; [assumption|]. split; [now rewrite Hin|assumption].
    + assumption.
    + cbn [run_layers]. rewrite Hfw. cbn [bind]. rewrite Hdt. cbn [promote].
      rewrite Hout in Hsh1.
      destruct (IH (mkGraph (number_of_nodes g) (edges g) (rel_dtype g)
                            (norm_layout g) Float32 (ndata_id g)
                            (Some (mkFT Float32 h1)))
                   h1 Hcol eq_refl Hidx Hedges eq_refl Hsh1 Hwf1)
        as (h' & Hrun & Hsh' & Hwf').
      exists h'. cbn [number_of_nodes edges ndata_id rel_dtype norm_layout norm_dtype]
        in Hrun, Hsh'.
      split; [assumption|]. split; assumption.
Qed.

(** [Model.forward] succeeds on every graph with [num_nodes] nodes whose
    norms are a single-precision column, whose relation ids have an index
    type the library accepts and lie in [[0, num_rels)], with sources in
    [[0, num_nodes)], when [num_rels * num_nodes] does not exceed the
    largest value of that type plus one and neither [h_dim] nor [out_dim]
    is 1: the layers run in order, each consuming the matrix the previous
    one produced, and the result is a single-precision matrix of shape
    [num_nodes x out_dim]; the graph comes back with the ids installed and
    without its ['h'] frame.  The two activations map a matrix to a matrix
    of the same shape. *)
Theorem Model_forward_total
        (ir : index_rule) (v : torch_version) (a : model_args) (env : model_env F)
        (m : Model F) (g : DGLGraph F) :
  Model_init relu softmax v a env = Ok m ->
  keeps_matrices relu -> keeps_matrices softmax ->
  Z.of_nat (number_of_nodes g) = ma_num_nodes a ->
  norm_layout g = NormColumn -> norm_dtype g = Float32 ->
  index_dtype_ok ir (rel_dtype g) = true ->
  ma_num_rels a * ma_num_nodes a <= 2 ^ (int_bits (rel_dtype g) - 1) ->
  (forall e, In e (edges g) ->
     0 <= rel_type e < ma_num_rels a /\ 0 <= src e < ma_num_nodes a) ->
  ma_h_dim a <> 1 -> ma_out_dim a <> 1 ->
  exists h,
    Model_forward ir m g
    = Ok (mkFT Float32 h,
          mkGraph (number_of_nodes g) (edges g) (rel_dtype g) NormColumn Float32
                  (Some (features m)) None)
    /\ shape h = [Z.of_nat (number_of_nodes g); ma_out_dim a]
    /\ tensor_wf h.
Proof.
  intros Hm Hrelu Hsoft HN Hcol Hdt Hidx Hfit Hedges Hh1 Ho1'.
  destruct (Model_init_inv v a env m Hm)
    as (i2h & h2hs & h2o & Hls & _ & Hi & Hh & Ho & Hall & _ & Hfs).
  rewrite Hls in Hall. inversion Hall as [|? ? Hci Hall']; subst.
  apply Forall_app in Hall' as [Hch Hco].
  inversion Hco as [|? ? Hco' _]; subst.
  destruct Hi as (Hi1 & Hi2 & Hi3 & Hi4).
  destruct Ho as (Ho1 & Ho2 & Ho3 & Ho4).
  destruct Hci as (HRi & ai & envi & Hiniti).
  destruct Hco' as (HRo & ao & envo & Hinito).
  assert (Hnat : Z.to_nat (ma_num_nodes a) = number_of_nodes g) by lia.
  unfold Model_forward, set_ndata_id.
  rewrite Hfs. unfold create_features at 1. rewrite length_map, length_seq, Hnat.
  rewrite Nat.eqb_refl. cbn [bind]. rewrite Hls. cbn [run_layers].
  set (g0 := mkGraph (number_of_nodes g) (edges g) (rel_dtype g) (norm_layout g)
                     (norm_dtype g)
                     (Some (create_features (number_of_nodes g))) (ndata_h g)).
  assert (Hedges0 : forall e, In e (edges g0) ->
            0 <= rel_type e < ma_num_rels a
            /\ 0 <= src e < Z.of_nat (number_of_nodes g0)).
  { intros e He. cbn [number_of_nodes g0]. rewrite HN. now apply Hedges. }
  destruct (forward_ok ir v ai envi i2h g0 Hiniti) as (h1 & Hfw1 & Hsh1 & Hwf1).
  { split; [exact Hcol|]. split; [now rewrite HRi|].
    rewrite Hi1. split; [reflexivity|].
    cbn [number_of_nodes g0 rel_dtype]. split; [congruence|].
    rewrite HRi, Hi2. exact Hfit. }
  { intros act Hact. rewrite Hi4 in Hact. injection Hact as <-. exact Hrelu. }
  rewrite Hfw1. cbn [bind]. rewrite run_layers_app.
  rewrite Hi3 in Hsh1. cbn [norm_dtype g0] in *. rewrite Hdt in *. cbn [promote] in *.
  set (g1 := mkGraph (number_of_nodes g0) (edges g0) (rel_dtype g0) (norm_layout g0)
                     Float32 (ndata_id g0) (Some (mkFT Float32 h1))).
  destruct (run_hidden_layers ir v (ma_h_dim a) (ma_num_rels a) h2hs)
    with (g := g1) (h := h1)
    as (h2 & Hrun & Hsh2 & Hwf2); try assumption; try reflexivity.
  { apply Forall_forall. intros l Hl.
    rewrite Forall_forall in Hh, Hch.
    destruct (Hh l Hl) as (H1 & H2 & H3 & H4).
    destruct (Hch l Hl) as (H5 & a' & env' & H6).
    split; [eauto|]. repeat (split; [assumption|]).
    intros act Hact. rewrite H4 in Hact. injection Hact as <-. exact Hrelu. }
  rewrite Hrun. cbn [bind run_layers].
  set (g2 := mkGraph (number_of_nodes g1) (edges g1) (rel_dtype g1) (norm_layout g1)
                     (norm_dtype g1) (ndata_id g1) (Some (mkFT Float32 h2))).
  destruct (forward_ok ir v ao envo h2o g2 Hinito) as (h3 & Hfw3 & Hsh3 & Hwf3).
  { split; [exact Hcol|]. split; [now rewrite HRo|].
    rewrite Ho1. split; [exact Hidx|]. split; [now rewrite Ho3|].
    exists h2. split; [reflexivity|]. split; [now rewrite Ho2|assumption]. }
  { intros act Hact. rewrite Ho4 in Hact. injection Hact as <-. exact Hsoft. }
  rewrite Hfw3.
  cbn [bind ndata_h number_of_nodes edges ndata_id rel_dtype norm_layout norm_dtype
       g2 g1 g0 promote].
  rewrite Hcol. exists h3. split; [reflexivity|]. split; [|assumption].
  now rewrite <- Ho3.
Qed.

Lemma forward_keeps_edata (ir : index_rule) (l : RGCNLayer F) (g g' : DGLGraph F) :
  forward ir l g = Ok g' ->
  rel_dtype g' = rel_dtype g /\ norm_dtype g' = norm_dtype g
  /\ exists h, ndata_h g' = Some h
               /\ (norm_dtype g = Float64 -> ft_dtype h = Float64).
Proof.
  unfold forward. intros Hfw.
  apply bind_Ok in Hfw as (w & _ & Hfw).
  apply bind_Ok in Hfw as (sums & Hsums & Hfw).
  apply bind_Ok in Hfw as (h & Happ & Hset).
  unfold set_ndata_h in Hset. destruct (shape (ft h)) as [|d0 rest]; [discriminate|].
  destruct (d0 =? _); [|discriminate]. injection Hset as <-.
  cbn [rel_dtype norm_dtype ndata_h]. split; [reflexivity|]. split; [reflexivity|].
  exists h. split; [reflexivity|]. intros H64.
  assert (Hs : ft_dtype sums = Float64).
  { unfold aggregate in Hsums. apply bind_Ok in Hsums as (msg & Hmsg & Hred).
    assert (Hm : ft_dtype msg = Float64).
    { unfold message_func, message_input, message_hidden in Hmsg.
      destruct (is_input_layer l).
      - apply bind_Ok in Hmsg as (? & _ & Hmsg).
        apply bind_Ok in Hmsg as (? & _ & Hmsg).
        apply bind_Ok in Hmsg as (? & _ & Hmsg).
        apply bind_Ok in Hmsg as (? & _ & [= <-]). cbn. now rewrite H64.
      - apply bind_Ok in Hmsg as (? & _ & Hmsg).
        apply bind_Ok in Hmsg as (? & _ & Hmsg).
        apply bind_Ok in Hmsg as (? & _ & Hmsg).
        apply bind_Ok in Hmsg as (? & _ & Hmsg).
        apply bind_Ok in Hmsg as (? & _ & [= <-]). cbn. now rewrite H64. }
    unfold reduce_sum in Hred. cbv zeta in Hred.
    destruct (_ || _)%bool; [|discriminate]. injection Hred as <-. exact Hm. }
  unfold apply_func in Happ.
  apply bind_Ok in Happ as (bt & _ & Happ).
  apply bind_Ok in Happ as (h1 & Hh1 & Happ).
  assert (H1 : ft_dtype h1 = Float64).
  { destruct bt; [|now injection Hh1 as <-].
    unfold add_bias in Hh1. destruct (bias l) as [b|t].
    - injection Hh1 as <-. exact Hs.
    - apply bind_Ok in Hh1 as (s & _ & [= <-]). cbn. now rewrite Hs. }
  destruct (activation l) as [act|].
  - apply bind_Ok in Happ as (t & _ & [= <-]). exact H1.
  - now injection Happ as <-.
Qed.

(** A layer other than the input layer raises when the type of [rel_type]
    is not one the library takes as an index. *)
Lemma forward_narrow_rel_type (ir : index_rule) (l : RGCNLayer F) (g : DGLGraph F) :
  is_input_layer l = false -> index_dtype_ok ir (rel_dtype g) = false ->
  raises (forward ir l g).
Proof.
  intros Hmode Hidx. unfold forward.
  destruct (forward_weight l) as [w|x]; [|now exists x]. cbn [bind].
  unfold aggregate, message_func, message_hidden. rewrite Hmode, Hidx.
  now exists IndexError.
Qed.


Lemma run_layers_raises_last (ir : index_rule) (P : DGLGraph F -> Prop)
      (ls : list (RGCNLayer F)) (lo : RGCNLayer F) (g : DGLGraph F) :
  (forall l g1 g2, P g1 -> forward ir l g1 = Ok g2 -> P g2) ->
  (forall g1, P g1 -> raises (forward ir lo g1)) ->
  P g -> raises (run_layers ir (ls ++ [lo]) g).
Proof.
  intros Hkeep Hlast. revert g. induction ls as [|l ls IH]; intros g HP.
  - cbn [app run_layers]. destruct (Hlast g HP) as [x Hx]. rewrite Hx. now exists x.
  - cbn [app run_layers]. destruct (forward ir l g) as [g1|x] eqn:Hfw; [|now exists x].
    cbn [bind]. apply IH. exact (Hkeep l g g1 HP Hfw).
Qed.

(** [Model.forward] raises on every graph whose relation ids are stored in
    an integer type the library does not take as an index (8-bit or
    16-bit, and 32-bit in the releases that take 64-bit indices only), as
    the notebook's graph stores them: the output layer indexes its weights
    by [rel_type]. *)
Theorem Model_forward_rejects_narrow_rel_type
        (ir : index_rule) (v : torch_version) (a : model_args) (env : model_env F)
        (m : Model F) (g : DGLGraph F) :
  Model_init relu softmax v a env = Ok m ->
  index_dtype_ok ir (rel_dtype g) = false ->
  raises (Model_forward ir m g).
Proof.
  intros Hm Hidx.
  destruct (Model_init_inv v a env m Hm)
    as (i2h & h2hs & h2o & Hls & _ & _ & _ & Ho & _).
  destruct Ho as (Ho1 & _).
  unfold Model_forward.
  destruct (set_ndata_id g (features m)) as [g0|x] eqn:Eset; [|now exists x].
  cbn [bind]. rewrite Hls.
  assert (Hg0 : rel_dtype g0 = rel_dtype g).
  { unfold set_ndata_id in Eset. destruct (_ =? _)%nat; [|discriminate].
    now injection Eset as <-. }
  destruct (run_layers_raises_last ir
              (fun g1 => index_dtype_ok ir (rel_dtype g1) = false)
              (i2h :: h2hs) h2o g0) as [x Hx].
  - intros l g1 g2 HP Hfw.
    destruct (forward_keeps_edata ir l g1 g2 Hfw) as (Hrd & _). now rewrite Hrd.
  - intros g1 HP. now apply forward_narrow_rel_type.
  - now rewrite Hg0.
  - cbn [app] in Hx. rewrite Hx. now exists x.
Qed.


(** With positive sizes [Model.__init__] returns a model. *)
Theorem Model_init_total (v : torch_version) (a : model_args) (env : model_env F) :
  0 < ma_num_nodes a -> 0 < ma_h_dim a -> 0 < ma_out_dim a -> 0 < ma_num_rels a ->
  exists m, Model_init relu softmax v a env = Ok m /\
            length (layers m) = (2 + Z.to_nat (ma_num_hidden_layers a))%nat.
Proof.
  intros HN Hh Ho HR. unfold Model_init, build_model.
  destruct (RGCNLayer_init_ok v
              (mkArgs (ma_num_nodes a) (ma_h_dim a) (ma_num_rels a) (ma_num_bases a)
                      false (Some relu) true) (env_input env))
    as (i2h & Hi); try assumption; try reflexivity.
  destruct (RGCNLayer_init_ok v
              (mkArgs (ma_h_dim a) (ma_out_dim a) (ma_num_rels a) (ma_num_bases a)
                      false (Some softmax) false) (env_output env))
    as (h2o & Ho'); try assumption; try reflexivity.
  destruct (mapM_total (fun k => build_hidden_layer relu v a (env_hidden env k))
              (fun _ => True) (seq 0 (Z.to_nat (ma_num_hidden_layers a))))
    as (h2hs & Hh' & Hlen & _).
  { intros k _. unfold build_hidden_layer.
    destruct (RGCNLayer_init_ok v
                (mkArgs (ma_h_dim a) (ma_h_dim a) (ma_num_rels a) (ma_num_bases a)
                        false (Some relu) false) (env_hidden env k))
      as (l & Hl); try assumption; try reflexivity.
    eauto. }
  unfold build_input_layer, build_output_layer. rewrite Hi. cbn [bind].
  rewrite Hh'. cbn [bind]. rewrite Ho'. cbn [bind].
  unfold Model_create_features.
  replace (ma_num_nodes a <? 0) with false by (symmetry; apply Z.ltb_ge; lia).
  cbn [bind]. eexists. split; [reflexivity|]. cbn [layers length].
  rewrite length_app, Hlen, length_seq. cbn. lia.
Qed.

End ModelFacts.

(** * Further properties of the preprocessing cells *)

(** ** Codes depend on the set of labels only *)

Lemma sorted_rank_same_labels (col col' : list string) (x : string) :
  (forall z, In z col <-> In z col') ->
  sorted_rank col x = sorted_rank col' x.
Proof.
  intros Hsame. unfold sorted_rank. f_equal.
  apply Permutation_length, filter_Permutation, NoDup_Permutation;
    try apply NoDup_nodup.
  intros z. rewrite !nodup_In. apply Hsame.
Qed.

(** The relation id of a label does not depend on the order of the rows,
    nor on how often a row occurs: two tables with the same set of relation
    labels give every label the same id. *)
Theorem relation_category_same_labels
        (rows rows' : list triple) (i j : nat) (t t' : triple) :
  (forall z, In z (map stmt_type rows) <-> In z (map stmt_type rows')) ->
  nth_error rows i = Some t ->
  nth_error rows' j = Some t' ->
  stmt_type t = stmt_type t' ->
  exists c, nth_error (relation_category rows) i = Some c /\
            nth_error (relation_category rows') j = Some c.
Proof.
  intros Hsame Ht Ht' Heq.
  exists (sorted_rank (map stmt_type rows) (stmt_type t)). split.
  - unfold relation_category. apply cat_codes_nth. now rewrite nth_error_map, Ht.
  - rewrite (sorted_rank_same_labels _ (map stmt_type rows') _ Hsame), Heq.
    unfold relation_category. apply cat_codes_nth. now rewrite nth_error_map, Ht'.
Qed.

(** ** The lookup table from codes back to labels *)

Lemma zdict_get_set (d : list (Z * string)) (k k' : Z) (x : string) :
  zdict_get (zdict_set d k x) k' = if k' =? k then Ok x else zdict_get d k'.
Proof.
  induction d as [|[k0 x0] d IH]; cbn.
  - reflexivity.
  - destruct (k =? k0) eqn:E; cbn.
    + apply Z.eqb_eq in E. subst k0. destruct (k' =? k); reflexivity.
    + destruct (k' =? k0) eqn:E'.
      * apply Z.eqb_eq in E'. subst k0.
        replace (k' =? k) with false; [reflexivity|].
        symmetry. rewrite Z.eqb_sym. exact E.
      * apply IH.
Qed.

Lemma zdict_fold_get (k : Z) (x : string) (ps : list (Z * string))
      (d : list (Z * string)) :
  (forall y, In (k, y) ps -> y = x) ->
  In (k, x) ps \/ zdict_get d k = Ok x ->
  zdict_get (fold_left (fun d p => zdict_set d (fst p) (snd p)) ps d) k = Ok x.
Proof.
  revert d. induction ps as [|[k0 y0] ps IH]; intros d Hval Hsrc; cbn [fold_left].
  - destruct Hsrc as [[]|Hd]. exact Hd.
  - apply IH; [intros y Hy; apply Hval; now right|].
    cbn [fst snd]. rewrite zdict_get_set.
    destruct (k =? k0) eqn:E.
    + apply Z.eqb_eq in E. subst k0. right. f_equal.
      apply Hval. now left.
    + destruct Hsrc as [[Heq|Hin]|Hd]; [|now left|now right].
      injection Heq as -> _. now rewrite Z.eqb_refl in E.
Qed.

Lemma zdict_fold_missing (k : Z) (ps : list (Z * string)) (d : list (Z * string)) :
  (forall y, ~ In (k, y) ps) -> zdict_get d k = Raise KeyError ->
  zdict_get (fold_left (fun d p => zdict_set d (fst p) (snd p)) ps d) k
  = Raise KeyError.
Proof.
  revert d. induction ps as [|[k0 y0] ps IH]; intros d Hno Hd; cbn [fold_left].
  - exact Hd.
  - apply IH; [intros y Hy; apply (Hno y); now right|].
    cbn [fst snd]. rewrite zdict_get_set.
    destruct (k =? k0) eqn:E; [|exact Hd].
    apply Z.eqb_eq in E. subst k0. exfalso. apply (Hno y0). now left.
Qed.

Lemma cat_codes_map (col : list string) :
  cat_codes col = map (sorted_rank col) col.
Proof.
  unfold cat_codes. apply map_ext_in. intros x Hx. now apply code_of_rank.
Qed.

Lemma combine_map_self {A B : Type} (f : A -> B) (l : list A) :
  combine (map f l) l = map (fun x => (f x, x)) l.
Proof. induction l as [|x l IH]; cbn; [reflexivity|]. now rewrite IH. Qed.

(** [edge_relation_lookup] decodes every relation id back to its label,
    and a key that is no relation id of the table raises [KeyError]. *)
Theorem edge_relation_lookup_round_trip (rows : list triple) :
  (forall i t, nth_error rows i = Some t ->
     exists c, nth_error (relation_category rows) i = Some c /\
               zdict_get (edge_relation_lookup rows) c = Ok (stmt_type t))
  /\ (forall k, ~ In k (relation_category rows) ->
        zdict_get (edge_relation_lookup rows) k = Raise KeyError).
Proof.
  unfold edge_relation_lookup, relation_category, dict_zip.
  set (col := map stmt_type rows).
  rewrite cat_codes_map, combine_map_self. split.
  - intros i t Ht.
    assert (Hcol : nth_error col i = Some (stmt_type t))
      by (unfold col; now rewrite nth_error_map, Ht).
    pose proof (nth_error_In _ _ Hcol) as Hin.
    exists (sorted_rank col (stmt_type t)).
    split; [now rewrite nth_error_map, Hcol|].
    apply zdict_fold_get.
    + intros y Hy. apply in_map_iff in Hy as (z & Hz & Hzin).
      injection Hz as Hrank ->.
      now apply (sorted_rank_order col y (stmt_type t) Hzin Hin).
    + left. apply in_map_iff. exists (stmt_type t). split; [reflexivity|assumption].
  - intros k Hk. apply zdict_fold_missing; [|reflexivity].
    intros y Hy. apply in_map_iff in Hy as (z & Hz & Hzin).
    injection Hz as Hrank ->. apply Hk. apply in_map_iff. now exists y.
Qed.

(** ** Number of relations and of nodes *)

Lemma insert_unique_In (x z : Z) (l : list Z) :
  In z (insert_unique x l) <-> z = x \/ In z l.
Proof.
  induction l as [|y l IH]; cbn.
  - intuition congruence.
  - destruct (x ?= y) eqn:E; cbn.
    + apply Z.compare_eq in E. subst. intuition congruence.
    + intuition congruence.
    + rewrite IH. intuition congruence.
Qed.

Lemma insert_unique_sorted (x : Z) (l : list Z) :
  StronglySorted Z.lt l -> StronglySorted Z.lt (insert_unique x l).
Proof.
  induction 1 as [|y l Hs IH Hall]; cbn.
  - repeat constructor.
  - destruct (x ?= y) eqn:E.
    + now constructor.
    + constructor; [now constructor|]. constructor; [exact E|].
      rewrite Forall_forall in *. intros z Hz.
      specialize (Hall z Hz). apply -> Z.compare_lt_iff in E. lia.
    + constructor; [assumption|].
      rewrite Forall_forall in *. intros z Hz.
      apply insert_unique_In in Hz as [->|Hz]; [|now apply Hall].
      apply -> Z.compare_gt_iff in E. exact E.
Qed.

Lemma np_unique_spec (l : list Z) :
  StronglySorted Z.lt (np_unique l) /\ forall z, In z (np_unique l) <-> In z l.
Proof.
  unfold np_unique.
  assert (Hgen : forall l acc, StronglySorted Z.lt acc ->
            StronglySorted Z.lt (fold_left (fun acc x => insert_unique x acc) l acc)
            /\ forall z, In z (fold_left (fun acc x => insert_unique x acc) l acc)
                         <-> In z acc \/ In z l).
  { clear l. induction l as [|x l IH]; intros acc Hs; cbn [fold_left].
    - split; [assumption|]. cbn. intuition.
    - destruct (IH _ (insert_unique_sorted x acc Hs)) as [Hsorted Hin].
      split; [assumption|]. intros z. rewrite Hin, insert_unique_In. cbn.
      intuition congruence. }
  destruct (Hgen l [] (SSorted_nil _)) as [Hs Hin].
  split; [assumption|]. intros z. rewrite Hin. cbn. intuition.
Qed.

Lemma np_unique_NoDup (l : list Z) : NoDup (np_unique l).
Proof.
  destruct (np_unique_spec l) as [Hs _].
  induction Hs as [|y l' Hs IH Hall]; constructor; [|assumption].
  intros Hy. rewrite Forall_forall in Hall. specialize (Hall y Hy). lia.
Qed.

(** The distinct codes of a column are as many as its distinct labels. *)
Lemma length_np_unique_cat_codes (col : list string) :
  length (np_unique (cat_codes col)) = length (nodup string_dec col).
Proof.
  rewrite <- (length_map (sorted_rank col) (nodup string_dec col)).
  apply Permutation_length, NoDup_Permutation.
  - apply np_unique_NoDup.
  - apply Finite.Injective_map_NoDup_in; [|apply NoDup_nodup].
    intros x y Hx Hy Heq. apply nodup_In in Hx, Hy.
    now apply (sorted_rank_order col x y Hx Hy).
  - intros z. rewrite (proj2 (np_unique_spec _)), cat_codes_map, !in_map_iff.
    split; intros (x & Hx & Hin); exists x; (split; [assumption|]);
      [now apply nodup_In|now apply nodup_In in Hin].
Qed.

(** [num_rels] is the number of distinct relation labels, and every
    relation id the encoder emits lies in [[0, num_rels)], never [-1]: the
    ids are valid relation ids for a layer built with that [num_rels]. *)
Theorem relation_category_in_range (rows : list triple) :
  notebook_num_rels rows
  = Z.of_nat (length (nodup string_dec (map stmt_type rows)))
  /\ forall c, In c (relation_category rows) -> 0 <= c < notebook_num_rels rows.
Proof.
  unfold notebook_num_rels, relation_category.
  rewrite length_np_unique_cat_codes. split; [reflexivity|].
  intros c Hc. rewrite cat_codes_map in Hc.
  apply in_map_iff in Hc as (x & <- & Hx). now apply sorted_rank_bounds.
Qed.

Lemma fold_max_upper (l : list Z) (k : Z) :
  0 <= k -> (forall x, In x l -> x < k) ->
  fold_right Z.max 0 (map Z.succ l) <= k.
Proof.
  intros Hk. induction l as [|x l IH]; intros Hall; cbn; [assumption|].
  specialize (IH (fun y Hy => Hall y (or_intror Hy))).
  specialize (Hall x (or_introl eq_refl)). lia.
Qed.

Lemma fold_max_lower (l : list Z) (x : Z) :
  In x l -> x < fold_right Z.max 0 (map Z.succ l).
Proof.
  induction l as [|y l IH]; intros Hx; [easy|]. cbn.
  destruct Hx as [->|Hx]; [lia|]. specialize (IH Hx). lia.
Qed.

Lemma fold_max_nonneg (l : list Z) : 0 <= fold_right Z.max 0 (map Z.succ l).
Proof. induction l as [|y l IH]; cbn; lia. Qed.

Lemma fold_max_app (l1 l2 : list Z) :
  fold_right Z.max 0 (map Z.succ (l1 ++ l2))
  = Z.max (fold_right Z.max 0 (map Z.succ l1)) (fold_right Z.max 0 (map Z.succ l2)).
Proof.
  induction l1 as [|x l1 IH]; cbn [app map fold_right].
  - pose proof (fold_max_nonneg l2). lia.
  - rewrite IH. lia.
Qed.

(** Distinct numbers below [k], [k] of them, include [k - 1]. *)
Lemma NoDup_full_range (l : list Z) (k : nat) :
  NoDup l -> (forall x, In x l -> 0 <= x < Z.of_nat k) ->
  length l = k -> (0 < k)%nat -> In (Z.of_nat k - 1) l.
Proof.
  intros Hnd Hrange Hlen Hk.
  destruct (in_dec Z.eq_dec (Z.of_nat k - 1) l) as [Hin|Hnot]; [assumption|].
  exfalso.
  assert (Hincl : incl l (map Z.of_nat (seq 0 (k - 1)))).
  { intros x Hx. apply in_map_iff. exists (Z.to_nat x).
    specialize (Hrange x Hx).
    assert (x <> Z.of_nat k - 1) by (intros ->; contradiction).
    split; [lia|]. apply in_seq. lia. }
  pose proof (NoDup_incl_length Hnd Hincl) as Hle.
  rewrite length_map, length_seq in Hle. lia.
Qed.

Lemma fold_max_cat_codes (col : list string) :
  fold_right Z.max 0 (map Z.succ (cat_codes col))
  = Z.of_nat (length (nodup string_dec col)).
Proof.
  set (k := length (nodup string_dec col)).
  assert (Hrange : forall c, In c (cat_codes col) -> 0 <= c < Z.of_nat k).
  { intros c Hc. rewrite cat_codes_map in Hc.
    apply in_map_iff in Hc as (x & <- & Hx). now apply sorted_rank_bounds. }
  apply Z.le_antisymm.
  - apply fold_max_upper; [lia|]. intros c Hc. now apply Hrange.
  - destruct (Nat.eq_dec k 0) as [Hz|Hnz].
    { rewrite Hz. apply fold_max_nonneg. }
    assert (Hin : In (Z.of_nat k - 1) (np_unique (cat_codes col))).
    { apply NoDup_full_range.
      - apply np_unique_NoDup.
      - intros x Hx. apply Hrange.
        exact (proj1 (proj2 (np_unique_spec (cat_codes col)) x) Hx).
      - apply length_np_unique_cat_codes.
      - lia. }
    pose proof (proj1 (proj2 (np_unique_spec (cat_codes col)) _) Hin) as Hin'.
    pose proof (fold_max_lower _ _ Hin'). lia.
Qed.

(** The node count the graph library infers, and so the input width of the
    model, is the larger of the numbers of distinct subject labels and of
    distinct object labels; every emitted source and destination id is a
    node of that graph. *)
Theorem notebook_num_nodes_spec (rows : list triple) :
  notebook_num_nodes rows
  = Z.max (Z.of_nat (length (nodup string_dec (map agent_A rows))))
          (Z.of_nat (length (nodup string_dec (map agent_B rows))))
  /\ (forall s, In s (edge_src rows) -> 0 <= s < notebook_num_nodes rows)
  /\ (forall d, In d (edge_dst rows) -> 0 <= d < notebook_num_nodes rows).
Proof.
  unfold notebook_num_nodes, dgl_number_of_nodes, edge_src, edge_dst.
  rewrite fold_max_app, !fold_max_cat_codes. split; [reflexivity|].
  split; intros c Hc; rewrite cat_codes_map in Hc;
    apply in_map_iff in Hc as (x & <- & Hx);
    pose proof (sorted_rank_bounds _ _ Hx); lia.
Qed.

(** The graph of the centrality table can have more nodes than that: on
    the rows (B, C), (A, B) it has the three nodes B, C, A, while the ids
    span two nodes. *)
Example notebook_num_nodes_fewer :
  notebook_num_nodes ex_rows_shared = 2 /\
  length (nodes (from_pandas_edgelist ex_rows_shared)) = 3%nat.
Proof. split; reflexivity. Qed.

(** * Further properties of the centrality graph *)

Lemma add_node_first_seen (G : DiGraph) (n : string) (rest : list string) :
  first_seen (nodes (add_node G n)) rest = first_seen (nodes G) (n :: rest).
Proof.
  unfold add_node, has_node. cbn [first_seen].
  destruct (existsb (String.eqb n) (nodes G)); reflexivity.
Qed.

Lemma add_edge_nodes_first_seen (G : DiGraph) (u v : string) (rest : list string) :
  first_seen (nodes (add_edge G u v)) rest
  = first_seen (nodes G) (u :: v :: rest).
Proof.
  unfold add_edge. destruct (has_arc _ u v); cbn [nodes];
    now rewrite !add_node_first_seen.
Qed.

Lemma add_node_arcs (G : DiGraph) (n : string) : arcs (add_node G n) = arcs G.
Proof. unfold add_node. now destruct (has_node G n). Qed.

Lemma has_arc_In (G : DiGraph) (u v : string) :
  has_arc G u v = true <-> In (u, v) (arcs G).
Proof.
  unfold has_arc. rewrite existsb_exists. split.
  - intros ([u' v'] & Hin & Heq). cbn in Heq.
    apply andb_true_iff in Heq as [Hu Hv].
    apply String.eqb_eq in Hu, Hv. now subst.
  - intros Hin. exists (u, v). split; [assumption|]. cbn.
    now rewrite !String.eqb_refl.
Qed.

Lemma add_edge_arcs (G : DiGraph) (u v : string) (p : string * string) :
  In p (arcs (add_edge G u v)) <-> p = (u, v) \/ In p (arcs G).
Proof.
  unfold add_edge. destruct (has_arc _ u v) eqn:E.
  - apply has_arc_In in E. rewrite !add_node_arcs in *.
    intuition congruence.
  - cbn [arcs]. rewrite in_app_iff, !add_node_arcs. cbn. intuition congruence.
Qed.

Lemma add_node_NoDup (G : DiGraph) (n : string) :
  NoDup (nodes G) -> NoDup (nodes (add_node G n)).
Proof.
  intros Hnd. unfold add_node, has_node.
  destruct (existsb (String.eqb n) (nodes G)) eqn:E; [assumption|].
  cbn [nodes]. apply NoDup_app; [assumption|repeat constructor; easy|].
  intros x Hx [Heq|[]]. subst x.
  assert (existsb (String.eqb n) (nodes G) = true).
  { apply existsb_exists. exists n. split; [assumption|apply String.eqb_refl]. }
  congruence.
Qed.

Lemma add_edge_NoDup (G : DiGraph) (u v : string) :
  NoDup (nodes G) -> NoDup (arcs G) ->
  NoDup (nodes (add_edge G u v)) /\ NoDup (arcs (add_edge G u v)).
Proof.
  intros Hn Ha. unfold add_edge.
  pose proof (add_node_NoDup _ v (add_node_NoDup _ u Hn)) as Hn'.
  destruct (has_arc _ u v) eqn:E.
  - split; [assumption|]. now rewrite !add_node_arcs.
  - cbn [nodes arcs]. split; [assumption|]. rewrite !add_node_arcs.
    apply NoDup_app; [assumption|repeat constructor; easy|].
    intros p Hp [Heq|[]]. subst p.
    assert (has_arc (add_node (add_node G u) v) u v = true)
      by (apply has_arc_In; now rewrite !add_node_arcs).
    congruence.
Qed.

Lemma from_pandas_edgelist_fold (rows : list triple) (G : DiGraph) :
  NoDup (nodes G) -> NoDup (arcs G) ->
  let G' := fold_left (fun G t => add_edge G (agent_A t) (agent_B t)) rows G in
  NoDup (nodes G') /\ NoDup (arcs G')
  /\ nodes G' = first_seen (nodes G) (node_labels rows)
  /\ forall p, In p (arcs G')
               <-> In p (arcs G) \/ In p (map (fun t => (agent_A t, agent_B t)) rows).
Proof.
  revert G. induction rows as [|t rows IH]; intros G Hn Ha; cbv zeta;
    cbn [fold_left node_labels flat_map map].
  - split; [assumption|]. split; [assumption|]. split; [reflexivity|].
    intros p. cbn. intuition.
  - destruct (add_edge_NoDup G (agent_A t) (agent_B t) Hn Ha) as [Hn' Ha'].
    destruct (IH _ Hn' Ha') as (H1 & H2 & H3 & H4). cbv zeta in *.
    split; [assumption|]. split; [assumption|]. split.
    { rewrite H3. cbn [app]. apply add_edge_nodes_first_seen. }
    intros p. split.
    + intros Hp. apply H4 in Hp as [Hp|Hp]; [|right; now right].
      apply add_edge_arcs in Hp as [->|Hp]; [right; now left|now left].
    + intros [Hp|[<-|Hp]]; apply H4.
      * left. apply add_edge_arcs. now right.
      * left. apply add_edge_arcs. now left.
      * now right.
Qed.

(** Nodes and arcs of the graph built from the table. *)
Lemma from_pandas_edgelist_spec (rows : list triple) :
  let G := from_pandas_edgelist rows in
  nodes G = first_seen [] (node_labels rows)
  /\ NoDup (nodes G) /\ NoDup (arcs G)
  /\ forall u v, In (u, v) (arcs G)
                 <-> exists t, In t rows /\ agent_A t = u /\ agent_B t = v.
Proof.
  cbv zeta. unfold from_pandas_edgelist.
  destruct (from_pandas_edgelist_fold rows (mkDiGraph [] [])
              (NoDup_nil _) (NoDup_nil _)) as (H1 & H2 & H3 & H4).
  cbv zeta in *. cbn [nodes arcs] in *.
  split; [exact H3|]. split; [exact H1|]. split; [exact H2|].
  intros u v. split.
  - intros Hp. apply H4 in Hp as [[]|Hp].
    apply in_map_iff in Hp as (t & Ht & Hin). injection Ht as <- <-. eauto.
  - intros (t & Hin & <- & <-). apply H4. right.
    apply in_map_iff. now exists t.
Qed.

(** The graph built from the table is a simple directed graph: its nodes
    are the labels of the table in order of first appearance (subject before
    object within a row), each once, and its arcs are the distinct
    (subject, object) pairs of the rows. *)
Theorem from_pandas_edgelist_simple (rows : list triple) :
  let G := from_pandas_edgelist rows in
  nodes G = first_seen [] (node_labels rows)
  /\ NoDup (nodes G) /\ NoDup (arcs G)
  /\ forall u v, In (u, v) (arcs G)
                 <-> exists t, In t rows /\ agent_A t = u /\ agent_B t = v.
Proof.
  exact (from_pandas_edgelist_spec rows).
Qed.


(** Every node of the graph has an arc: its degree is at least 1 (a node
    is only ever added as an endpoint), and at most twice the number of
    nodes. *)
Theorem degree_bounds (rows : list triple) (n : string) :
  let G := from_pandas_edgelist rows in
  In n (nodes G) ->
  (1 <= degree G n <= 2 * length (nodes G))%nat.
Proof.
  cbv zeta. intros Hn.
  destruct (from_pandas_edgelist_spec rows) as (Hnodes & Hnd & Hna & Harcs).
  cbv zeta in *. set (G := from_pandas_edgelist rows) in *.
  assert (Hlabels : forall z, In z (nodes G) <-> In z (node_labels rows)).
  { intros z. unfold G, from_pandas_edgelist.
    rewrite from_pandas_edgelist_nodes. cbn. intuition. }
  split.
  - apply Hlabels in Hn. unfold node_labels in Hn.
    apply in_flat_map in Hn as (t & Ht & Hin).
    assert (Harc : In (agent_A t, agent_B t) (arcs G)) by (apply Harcs; eauto).
    unfold degree, out_degree, in_degree.
    destruct Hin as [<-|[<-|[]]].
    + assert (Hf : In (agent_A t, agent_B t)
                      (filter (fun a => String.eqb (agent_A t) (fst a)) (arcs G))).
      { apply filter_In. split; [assumption|]. apply String.eqb_refl. }
      destruct (filter _ (arcs G)); [easy|]. cbn. lia.
    + assert (Hf : In (agent_A t, agent_B t)
                      (filter (fun a => String.eqb (agent_B t) (snd a)) (arcs G))).
      { apply filter_In. split; [assumption|]. apply String.eqb_refl. }
      destruct (filter (fun a => String.eqb (agent_B t) (snd a)) (arcs G));
        [easy|]. cbn. lia.
  - assert (Hend : forall u v, In (u, v) (arcs G) -> In u (nodes G) /\ In v (nodes G)).
    { intros u v Huv. apply Harcs in Huv as (t & Ht & <- & <-).
      split; apply Hlabels; unfold node_labels; apply in_flat_map;
        exists t; (split; [assumption|]); cbn; auto. }
    assert (Hout : (out_degree G n <= length (nodes G))%nat).
    { unfold out_degree.
      rewrite <- (length_map snd (filter _ (arcs G))).
      apply NoDup_incl_length.
      - apply Finite.Injective_map_NoDup_in.
        + intros [u v] [u' v'] Hp Hp' Heq. cbn in Heq. subst v'.
          apply filter_In in Hp as [_ Hu]. apply filter_In in Hp' as [_ Hu'].
          cbn in Hu, Hu'. apply String.eqb_eq in Hu, Hu'. congruence.
        + now apply NoDup_filter.
      - intros v Hv. apply in_map_iff in Hv as ([u v'] & <- & Hp).
        apply filter_In in Hp as [Hp _]. now apply (Hend u v'). }
    assert (Hinb : (in_degree G n <= length (nodes G))%nat).
    { unfold in_degree.
      rewrite <- (length_map fst (filter _ (arcs G))).
      apply NoDup_incl_length.
      - apply Finite.Injective_map_NoDup_in.
        + intros [u v] [u' v'] Hp Hp' Heq. cbn in Heq. subst u'.
          apply filter_In in Hp as [_ Hu]. apply filter_In in Hp' as [_ Hu'].
          cbn in Hu, Hu'. apply String.eqb_eq in Hu, Hu'. congruence.
        + now apply NoDup_filter.
      - intros u Hu. apply in_map_iff in Hu as ([u' v] & <- & Hp).
        apply filter_In in Hp as [Hp _]. now apply (Hend u' v). }
    unfold degree. lia.
Qed.

(** ** Edge norms *)

Lemma dict_get_missing (f : string -> float) (ns : list string) (n : string) :
  ~ In n ns -> dict_get (map (fun n => (n, f n)) ns) n = Raise KeyError.
Proof.
  induction ns as [|m ns IH]; intros Hn; [reflexivity|]. cbn.
  destruct (String.eqb_spec n m) as [->|Hne]; [exfalso; apply Hn; now left|].
  apply IH. intros Hin. apply Hn. now right.
Qed.

(** On a table with at least one row the [edge_norm] column is computed
    for every row, one norm per row, without a [KeyError]; evaluating the
    norm of a row whose subject does not occur in the table raises
    [KeyError]. *)
Theorem edge_norm_total (rows : list triple) :
  rows <> [] ->
  (exists norms, edge_norm rows = Ok norms /\ length norms = length rows)
  /\ (forall X Y r, ~ In X (node_labels rows) ->
        edge_norm_row (degree_centrality (from_pandas_edgelist rows))
                      (mkTriple X Y r) = Raise KeyError).
Proof.
  intros Hrows. split.
  - assert (Hdef : edge_norm rows
                   = mapM (edge_norm_row (degree_centrality (from_pandas_edgelist rows)))
                          rows)
      by (destruct rows; [congruence|reflexivity]).
    rewrite Hdef.
    destruct (mapM_total
                (edge_norm_row (degree_centrality (from_pandas_edgelist rows)))
                (fun _ => True) rows) as (norms & Hn & Hlen & _).
    + intros t Ht. unfold edge_norm_row.
      destruct (degree_centrality_get (from_pandas_edgelist rows) (agent_A t))
        as [x Hx].
      { apply from_pandas_edgelist_nodes. right. unfold node_labels.
        apply in_flat_map. exists t. split; [assumption|]. cbn. auto. }
      destruct (degree_centrality_get (from_pandas_edgelist rows) (agent_B t))
        as [y Hy].
      { apply from_pandas_edgelist_nodes. right. unfold node_labels.
        apply in_flat_map. exists t. split; [assumption|]. cbn. auto. }
      rewrite Hx, Hy. cbn [bind]. eauto.
    + exists norms. split; assumption.
  - intros X Y r HX. unfold edge_norm_row. cbn [agent_A].
    assert (Hnot : ~ In X (nodes (from_pandas_edgelist rows))).
    { intros Hin. apply from_pandas_edgelist_nodes in Hin as [[]|Hin]. auto. }
    unfold degree_centrality.
    destruct (length (nodes (from_pandas_edgelist rows)) <=? 1)%nat;
      now rewrite dict_get_missing.
Qed.

(** The table without rows: the assignment of the column raises. *)
Example edge_norm_empty : edge_norm [] = Raise ValueError.
Proof. reflexivity. Qed.

(** * Labels and the centrality printout *)

Lemma agent_label_cons (c : ascii) (ns id : string) :
  agent_label (String c ns) id = String c (agent_label ns id).
Proof. reflexivity. Qed.

(** Agents with different namespace or different id get different labels,
    as long as namespaces contain no colon. *)
Theorem agent_label_injective (ns1 id1 ns2 id2 : string) :
  ~ In ":"%char (list_ascii_of_string ns1) ->
  ~ In ":"%char (list_ascii_of_string ns2) ->
  agent_label ns1 id1 = agent_label ns2 id2 ->
  ns1 = ns2 /\ id1 = id2.
Proof.
  revert ns2. induction ns1 as [|c ns1 IH]; intros [|c' ns2] H1 H2 Heq.
  - cbn in Heq. injection Heq as ->. now split.
  - cbn in Heq. injection Heq as <- _. exfalso. apply H2. now left.
  - cbn in Heq. injection Heq as -> _. exfalso. apply H1. now left.
  - rewrite !agent_label_cons in Heq. injection Heq as -> Heq.
    destruct (IH ns2) as [-> ->]; try assumption.
    + intros Hin. apply H1. now right.
    + intros Hin. apply H2. now right.
    + now split.
Qed.

(** With a colon in a namespace two different agents can share a label. *)
Example agent_label_collision :
  agent_label "a" "b:c" = agent_label "a:b" "c".
Proof. reflexivity. Qed.

Lemma insert_desc_Permutation (kx : string * float) (l : list (string * float)) :
  Permutation (insert_desc kx l) (kx :: l).
Proof.
  induction l as [|y l IH]; cbn; [reflexivity|].
  destruct (PrimFloat.ltb (snd y) (snd kx)); [reflexivity|].
  rewrite IH. apply perm_swap.
Qed.

Lemma sorted_desc_Permutation (d : list (string * float)) :
  Permutation (sorted_desc d) d.
Proof.
  unfold sorted_desc.
  assert (Hgen : forall d acc,
             Permutation (fold_left (fun acc kx => insert_desc kx acc) d acc)
                         (acc ++ d)).
  { clear d. induction d as [|kx d IH]; intros acc; cbn [fold_left].
    - now rewrite app_nil_r.
    - rewrite IH, insert_desc_Permutation. apply Permutation_middle. }
  apply (Hgen d []).
Qed.

Lemma SFcompare_antisym (x y : spec_float) :
  SFcompare y x = option_map CompOpp (SFcompare x y).
Proof.
  destruct x as [sx|sx| |sx mx ex], y as [sy|sy| |sy my ey]; cbn;
    try reflexivity;
    try (destruct sx; reflexivity); try (destruct sy; reflexivity);
    try (destruct sx, sy; reflexivity).
  destruct sx, sy; try reflexivity; rewrite (Z.compare_antisym ex ey);
    destruct (ex ?= ey); cbn; try reflexivity;
    rewrite (Pos.compare_cont_antisym mx my Eq); cbn; reflexivity.
Qed.

(** On floats [x < y] excludes [y < x]. *)
Lemma float_ltb_asym (x y : float) :
  PrimFloat.ltb x y = true -> PrimFloat.ltb y x = false.
Proof.
  rewrite !FloatAxioms.ltb_spec. unfold SFltb. rewrite (SFcompare_antisym (Prim2SF x)).
  destruct (SFcompare (Prim2SF x) (Prim2SF y)) as [[| |]|]; cbn; congruence.
Qed.

Lemma insert_desc_Sorted (kx : string * float) (l : list (string * float)) :
  Sorted (fun p q => PrimFloat.ltb (snd p) (snd q) = false) l ->
  Sorted (fun p q => PrimFloat.ltb (snd p) (snd q) = false) (insert_desc kx l).
Proof.
  induction 1 as [|y l Hs IH Hhd]; cbn.
  - repeat constructor.
  - destruct (PrimFloat.ltb (snd y) (snd kx)) eqn:E.
    + constructor; [now constructor|]. constructor. now apply float_ltb_asym.
    + constructor; [assumption|].
      destruct l as [|z l]; cbn.
      * now constructor.
      * inversion Hhd; subst.
        destruct (PrimFloat.ltb (snd z) (snd kx)); now constructor.
Qed.

Lemma sorted_desc_Sorted (d : list (string * float)) :
  Sorted (fun p q => PrimFloat.ltb (snd p) (snd q) = false) (sorted_desc d).
Proof.
  unfold sorted_desc.
  assert (Hgen : forall d acc,
             Sorted (fun p q => PrimFloat.ltb (snd p) (snd q) = false) acc ->
             Sorted (fun p q => PrimFloat.ltb (snd p) (snd q) = false)
                    (fold_left (fun acc kx => insert_desc kx acc) d acc)).
  { clear d. induction d as [|kx d IH]; intros acc Hacc; cbn [fold_left];
      [assumption|]. apply IH. now apply insert_desc_Sorted. }
  apply Hgen. constructor.
Qed.

Lemma Sorted_firstn {A : Type} (R : A -> A -> Prop) (n : nat) (l : list A) :
  Sorted R l -> Sorted R (firstn n l).
Proof.
  revert l. induction n as [|n IH]; intros l Hs; [constructor|].
  destruct l as [|x l]; [constructor|]. cbn [firstn].
  inversion Hs as [|? ? Hs' Hhd]; subst.
  constructor; [now apply IH|].
  destruct n; [constructor|]. destruct l as [|y l]; [constructor|].
  cbn [firstn]. inversion Hhd; subst. now constructor.
Qed.

(** [print_centrality] prints one line per node up to fifteen; every line
    is an entry of the table, no node is printed twice, and no line is
    followed by a line of greater centrality. *)
Theorem print_centrality_lines (G : DiGraph) :
  NoDup (nodes G) ->
  let lines := print_centrality (degree_centrality G) in
  length lines = Nat.min 15 (length (nodes G))
  /\ (forall n c, In (n, c) lines -> dict_get (degree_centrality G) n = Ok c)
  /\ NoDup (map fst lines)
  /\ Sorted (fun p q => PrimFloat.ltb (snd p) (snd q) = false) lines.
Proof.
  intros Hnd. cbv zeta. unfold print_centrality.
  set (d := degree_centrality G).
  pose proof (sorted_desc_Permutation d) as Hperm.
  assert (Hkeys : map fst d = nodes G).
  { unfold d, degree_centrality.
    destruct (length (nodes G) <=? 1)%nat; rewrite map_map; cbn [fst];
      apply map_id. }
  assert (Hget : forall n c, In (n, c) d -> dict_get d n = Ok c).
  { unfold d, degree_centrality.
    destruct (length (nodes G) <=? 1)%nat; intros n c Hin;
      apply in_map_iff in Hin as (m & Hm & Hin); injection Hm as -> <-;
      now rewrite dict_get_map. }
  split; [|split; [|split]]; [| | |apply Sorted_firstn, sorted_desc_Sorted].
  - rewrite length_firstn, (Permutation_length Hperm).
    rewrite <- Hkeys, length_map. reflexivity.
  - intros n c Hin. apply Hget.
    apply (Permutation_in _ Hperm).
    rewrite <- (firstn_skipn 15 (sorted_desc d)). apply in_or_app. now left.
  - assert (Hall : NoDup (map fst (sorted_desc d))).
    { eapply Permutation_NoDup; [apply Permutation_map; symmetry; exact Hperm|].
      now rewrite Hkeys. }
    rewrite <- (firstn_skipn 15 (sorted_desc d)), map_app in Hall.
    now apply NoDup_app_remove_r in Hall.
Qed.
(** * Instances on the example inputs *)

Lemma RGCNLayer_init_decomposed_witness :
  exists l c,
    RGCNLayer_init Current ex_args_bases ex_env = Ok l /\
    num_bases l = 1 /\ w_comp l = Some c /\ shape c = [2; 1] /\
    shape (weight l) = [1; 2; 1].
Proof.
  destruct (@RGCNLayer_init_decomposed Z Z_Scalar Current ex_args_bases ex_env
              ltac:(cbn; lia)) as [Hall Hex].
  destruct (Hex ltac:(cbn; lia) ltac:(cbn; lia) eq_refl) as [l Hl].
  destruct (Hall l Hl) as (Hnb & Hs & _ & c & Hc & Hsc & _).
  exists l, c. repeat split; assumption.
Defined.

Lemma forward_weight_decomposed_entries_witness :
  exists w,
    forward_weight ex_layer_bases = Ok w /\
    shape w = [2; 2; 1] /\
    getF (data w) 1 = 0 * 1.
Proof.
  destruct (@forward_weight_decomposed_entries Z Z_Scalar Current ex_args_bases
              ex_env ex_layer_bases (mkTensor [2; 1] [1; 0]) 0 1 0
              eq_refl ltac:(cbn; lia) eq_refl
              ltac:(cbn; lia) ltac:(cbn; lia) ltac:(cbn; lia))
    as (w & Hw & Hs & Hentry).
  exists w. split; [exact Hw|]. split; [exact Hs|]. exact Hentry.
Defined.

Lemma ex_graph_ready : graph_ready LongOnly ex_layer_hidden ex_graph_h.
Proof.
  split; [reflexivity|]. split.
  - intros e He. cbn in He.
    destruct He as [<-|[<-|[<-|[]]]]; cbn; lia.
  - cbn. split; [reflexivity|]. split; [lia|].
    eexists. split; [reflexivity|]. split; [reflexivity|].
    split; [repeat constructor; lia|reflexivity].
Defined.

Lemma ex_graph_ready_input : graph_ready LongOnly ex_layer_direct ex_graph.
Proof.
  split; [reflexivity|]. split.
  - intros e He. cbn in He.
    destruct He as [<-|[<-|[<-|[]]]]; cbn; lia.
  - cbn. split; [reflexivity|]. split; [reflexivity|]. lia.
Defined.

Lemma forward_total_witness :
  exists h,
    forward LongOnly ex_layer_hidden ex_graph_h
    = Ok (mkGraph 2 ex_edges Int64 NormColumn Float32 (Some (create_features 2))
                  (Some (mkFT Float32 h)))
    /\ shape h = [2; 3].
Proof.
  destruct (@forward_total Z Z_Scalar LongOnly Current ex_args_hidden ex_env
              ex_layer_hidden ex_graph_h eq_refl ex_graph_ready)
    as (h & Hfw & Hsh & _).
  - intros act Hact. discriminate Hact.
  - exists h. split; [exact Hfw|exact Hsh].
Defined.

Lemma aggregate_computes_node_sums_witness :
  exists w,
    forward_weight ex_layer_hidden = Ok w /\
    aggregate LongOnly ex_layer_hidden w ex_graph_h
    = Ok (mkFT Float32
            (mkTensor [2; 3]
               (concat (node_sums 3 (spec_message ex_layer_hidden w ex_graph_h)
                                  ex_graph_h)))).
Proof.
  destruct (@aggregate_computes_node_sums Z Z_Scalar LongOnly Current ex_args_hidden
              ex_env ex_layer_hidden ex_graph_h eq_refl ex_graph_ready)
    as (w & Hw & Hagg & _).
  exists w. split; [exact Hw|exact Hagg].
Defined.

Lemma aggregate_permutation_invariant_witness :
  exists w sums,
    forward_weight ex_layer_hidden = Ok w /\
    aggregate LongOnly ex_layer_hidden w ex_graph_h = Ok sums /\
    aggregate LongOnly ex_layer_hidden w (with_edges ex_graph_h (rev ex_edges))
    = Ok sums.
Proof.
  exact (@aggregate_permutation_invariant Z Z_Scalar Z.add_comm Z.add_assoc
           LongOnly Current ex_args_hidden ex_env ex_layer_hidden ex_graph_h
           (rev ex_edges) eq_refl ex_graph_ready (Permutation_rev _)).
Defined.

Lemma message_input_matches_one_hot_witness :
  exists w,
    forward_weight ex_layer_direct = Ok w /\
    message_func LongOnly ex_layer_direct w ex_graph
    = Ok (mkFT Float32
            (mkTensor [3; 1] (flat_map (one_hot_message ex_layer_direct w) ex_edges))).
Proof.
  exact (@message_input_matches_one_hot Z Z_Scalar
           Z.mul_0_l Z.mul_1_l Z.add_0_l Z.add_0_r
           LongOnly Current ex_args_direct ex_env ex_layer_direct ex_graph
           eq_refl eq_refl ex_graph_ready_input).
Defined.

Lemma forward_rejects_large_relation_witness :
  raises (forward LongOnly ex_layer_direct ex_graph_bad_relation).
Proof.
  apply (@forward_rejects_large_relation Z Z_Scalar LongOnly Current ex_args_direct
           ex_env ex_layer_direct ex_graph_bad_relation (mkEdge 1 0 2 1) eq_refl).
  - cbn. right. left. reflexivity.
  - cbn. lia.
  - intros _. split; [reflexivity|]. cbn. lia.
Defined.

Lemma message_func_negative_relation_witness :
  message_func LongOnly ex_layer_direct (weight ex_layer_direct) ex_graph_negative
  = message_func LongOnly ex_layer_direct (weight ex_layer_direct)
      (with_edges ex_graph_negative [mkEdge 0 1 1 3; mkEdge 1 0 0 1]).
Proof.
  apply (@message_func_negative_relation Z Z_Scalar LongOnly Current ex_args_direct
           ex_env ex_layer_direct (weight ex_layer_direct) ex_graph_negative
           eq_refl eq_refl).
  - intros e He. cbn in He. destruct He as [<-|[<-|[]]]; cbn; lia.
  - intros _. split; [reflexivity|]. split; [reflexivity|]. split.
    + intros e He. cbn in He. destruct He as [<-|[<-|[]]]; cbn; lia.
    + cbn. lia.
Defined.

Lemma aggregate_no_incoming_edge_witness :
  exists sums tail,
    aggregate LongOnly ex_layer_direct (weight ex_layer_direct) ex_graph_one_edge
    = Ok sums /\
    shape (ft sums) = 2 :: tail /\
    slice (0 * prod_nat (map Z.to_nat tail)) (prod_nat (map Z.to_nat tail))
          (data (ft sums))
    = zeros (prod_nat (map Z.to_nat tail)).
Proof.
  eexists.
  destruct (@aggregate_no_incoming_edge Z Z_Scalar LongOnly ex_layer_direct
              (weight ex_layer_direct) ex_graph_one_edge _ 0%nat eq_refl)
    as (tail & Hs & _ & Hrow).
  - cbn. lia.
  - intros e He. cbn in He. destruct He as [<-|[]]. cbn. lia.
  - exists tail. split; [reflexivity|]. split; [exact Hs|exact Hrow].
Defined.

Lemma Model_init_structure_witness :
  exists m i2h h2hs h2o,
    Model_init ex_relu ex_relu Current ex_model_args ex_model_env = Ok m /\
    layers m = i2h :: h2hs ++ [h2o] /\ length h2hs = 1%nat /\
    out_feat i2h = 2 /\ in_feat h2o = 2 /\ out_feat h2o = 3.
Proof.
  eexists.
  destruct (@Model_init_structure Z Z_Scalar ex_relu ex_relu Current
              ex_model_args ex_model_env _ eq_refl)
    as (i2h & h2hs & h2o & Hls & Hlen & (_ & _ & Hi & _) & _
        & (_ & Ho1 & Ho2 & _) & _).
  exists i2h, h2hs, h2o. split; [reflexivity|].
  split; [exact Hls|]. split; [exact Hlen|].
  split; [exact Hi|]. split; [exact Ho1|exact Ho2].
Defined.

Lemma Model_init_total_witness :
  exists m, Model_init ex_relu ex_relu Current ex_model_args ex_model_env = Ok m /\
            length (layers m) = 3%nat.
Proof.
  apply (@Model_init_total Z Z_Scalar ex_relu ex_relu Current ex_model_args
           ex_model_env); cbn; lia.
Defined.

Lemma Model_forward_total_witness :
  exists m h,
    Model_init ex_relu ex_softmax Current ex_model_args ex_model_env = Ok m /\
    Model_forward LongOnly m ex_graph
    = Ok (mkFT Float32 h,
          mkGraph 2 ex_edges Int64 NormColumn Float32 (Some (features m)) None) /\
    shape h = [2; 3].
Proof.
  eexists.
  destruct (@Model_forward_total Z Z_Scalar ex_relu ex_softmax LongOnly Current
              ex_model_args ex_model_env _ ex_graph eq_refl)
    as (h & Hfw & Hsh & _).
  - apply F_relu_keeps_matrices.
  - apply F_softmax_keeps_matrices.
  - reflexivity.
  - reflexivity.
  - reflexivity.
  - reflexivity.
  - cbn. lia.
  - intros e He. cbn in He.
    destruct He as [<-|[<-|[<-|[]]]]; cbn; lia.
  - cbn. lia.
  - cbn. lia.
  - exists h. split; [reflexivity|]. split; [exact Hfw|exact Hsh].
Defined.

Lemma Model_forward_rejects_narrow_rel_type_witness :
  exists m,
    Model_init ex_relu ex_softmax Current ex_model_args ex_model_env = Ok m /\
    raises (Model_forward LongOrInt m ex_graph_notebook).
Proof.
  eexists. split; [reflexivity|].
  apply (@Model_forward_rejects_narrow_rel_type Z Z_Scalar ex_relu ex_softmax
           LongOrInt Current ex_model_args ex_model_env _ ex_graph_notebook eq_refl).
  reflexivity.
Defined.


Lemma edge_norm_total_witness :
  ex_triples <> [] /\
  exists norms, edge_norm ex_triples = Ok norms /\ length norms = 3%nat.
Proof.
  assert (Hne : ex_triples <> []) by discriminate.
  split; [exact Hne|].
  destruct (edge_norm_total ex_triples Hne) as [(norms & Hn & Hlen) _].
  exists norms. split; [exact Hn|exact Hlen].
Defined.

Lemma relation_category_same_labels_witness :
  exists c, nth_error (relation_category ex_triples) 1 = Some c /\
            nth_error (relation_category (rev ex_triples)) 1 = Some c.
Proof.
  apply (relation_category_same_labels ex_triples (rev ex_triples) 1 1
           (mkTriple "B" "A" "Activation") (mkTriple "B" "A" "Activation")).
  - intros z. rewrite map_rev. apply in_rev.
  - reflexivity.
  - reflexivity.
  - reflexivity.
Defined.

Lemma degree_bounds_witness :
  (1 <= degree (from_pandas_edgelist ex_triples) "C"
   <= 2 * length (nodes (from_pandas_edgelist ex_triples)))%nat.
Proof.
  apply (degree_bounds ex_triples "C").
  cbn. right. right. left. reflexivity.
Defined.

Lemma agent_label_injective_witness :
  agent_label "HGNC" "6843" = agent_label "HGNC" "6843" /\
  ("HGNC" = "HGNC" /\ "6843" = "6843")%string.
Proof.
  split; [reflexivity|].
  apply (agent_label_injective "HGNC" "6843" "HGNC" "6843").
  - cbn. intros [H|[H|[H|[H|[]]]]]; discriminate H.
  - cbn. intros [H|[H|[H|[H|[]]]]]; discriminate H.
  - reflexivity.
Defined.

Lemma print_centrality_lines_witness :
  let lines := print_centrality (degree_centrality (from_pandas_edgelist ex_triples)) in
  length lines = 3%nat /\ NoDup (map fst lines).
Proof.
  cbv zeta.
  destruct (print_centrality_lines (from_pandas_edgelist ex_triples))
    as (Hlen & _ & Hnd & _).
  - exact (proj1 (proj2 (from_pandas_edgelist_spec ex_triples))).
  - split; [exact Hlen|exact Hnd].
Defined.

(** The lines printed for the triples A->B, B->A, B->C. *)
Example print_centrality_example :
  print_centrality (degree_centrality (from_pandas_edgelist ex_triples))
  = [("B", 1.5); ("A", 1); ("C", 0.5)]%string%float.
Proof. vm_compute. reflexivity. Qed.
